(** * Setlist reconciliation: normalizer, matchers, validator, orchestrator

    A shallow embedding of [matching.py], [llm_matching.py] and
    [reconciler.py], with the properties of the reconciliation core
    stated and proved over it.

    Text is modelled as [list ascii]; a character is read as one of the
    code points U+0000..U+00FF.  Python's [str.isspace], which decides both
    the regular-expression class [\s] and what [str.strip] removes, and
    [str.lower] are given on that range. *)

From Stdlib Require Import List Ascii String ZArith QArith Qminmax Lia Bool.
From Stdlib Require Import DecimalString Lqa.
From stdpp Require Import base gmap strings.
Import ListNotations.

Set Warnings "-register-all".
Local Open Scope list_scope.

(** ** Text *)

Abbreviation str := (list ascii).

Definition lit (s : string) : str := list_ascii_of_string s.

Definition LF : ascii := "010"%char.
Definition SP : ascii := " "%char.
Definition LPAR : ascii := "("%char.
Definition RPAR : ascii := ")"%char.
Definition SLASH : ascii := "/"%char.

Definition code (c : ascii) : nat := nat_of_ascii c.

(** [str.isspace] on U+0000..U+00FF: TAB LF VT FF CR, FS GS RS US, SPACE,
    NEL and NBSP.  The [re] module uses the same table for [\s]. *)
Definition py_isspace (c : ascii) : bool :=
  let n := code c in
  ((9 <=? n) && (n <=? 13)) || ((28 <=? n) && (n <=? 32))
  || (n =? 133) || (n =? 160).

(** [str.lower] on one character of U+0000..U+00FF: A-Z and the Latin-1
    capitals U+00C0..U+00DE (the multiplication sign U+00D7 excepted) move
    up by 32. *)
Definition lower_char (c : ascii) : ascii :=
  let n := code c in
  if ((65 <=? n) && (n <=? 90))
     || ((192 <=? n) && (n <=? 222) && negb (n =? 215))
  then ascii_of_nat (n + 32) else c.

Definition lower (s : str) : str := map lower_char s.

Definition ascii_eqb (a b : ascii) : bool := Ascii.eqb a b.

Fixpoint lstrip (s : str) : str :=
  match s with
  | c :: s' => if py_isspace c then lstrip s' else s
  | [] => []
  end.

Definition rstrip (s : str) : str := rev (lstrip (rev s)).

(** [str.strip()] with no argument. *)
Definition strip (s : str) : str := rstrip (lstrip s).

Definition str_eqb (a b : str) : bool := bool_decide (a = b).

(** ** Regular expressions

    The two patterns of [normalize] are sequences of single-character
    classes, some under a greedy or a lazy star.  The matcher is the
    backtracking one of [re]: alternatives are tried in priority order and
    the first that lets the rest of the pattern match wins.  A matcher
    returns the length of the match it finds at the head of its input. *)

Inductive item : Type :=
  | One (p : ascii -> bool)
  | Star (greedy : bool) (p : ascii -> bool).

Definition matcher := str -> option nat.

Definition m_one (p : ascii -> bool) (k : matcher) : matcher :=
  fun s =>
    match s with
    | c :: s' => if p c then option_map S (k s') else None
    | [] => None
    end.

(** Greedy star: take one more character first, fall back to the
    continuation when that fails. *)
Fixpoint m_star_greedy (p : ascii -> bool) (k : matcher) (s : str)
  : option nat :=
  match s with
  | c :: s' =>
      if p c then
        match m_star_greedy p k s' with
        | Some n => Some (S n)
        | None => k s
        end
      else k s
  | [] => k s
  end.

(** Lazy star: try the continuation first, take one more character
    only when it fails. *)
Fixpoint m_star_lazy (p : ascii -> bool) (k : matcher) (s : str)
  : option nat :=
  match k s with
  | Some n => Some n
  | None =>
      match s with
      | c :: s' => if p c then option_map S (m_star_lazy p k s') else None
      | [] => None
      end
  end.

Fixpoint compile (pat : list item) : matcher :=
  match pat with
  | [] => fun _ => Some 0
  | One p :: r => m_one p (compile r)
  | Star true p :: r => m_star_greedy p (compile r)
  | Star false p :: r => m_star_lazy p (compile r)
  end.

(** [re.sub(pat, repl, s)]: scan left to right, replace each leftmost
    match, resume after it.  [skip] counts the characters of the current
    match still to be dropped.  An empty match inserts [repl] and copies the
    next character, as Python 3.7 and later do. *)
Fixpoint sub_go (m : matcher) (repl : str) (skip : nat) (s : str) : str :=
  match s with
  | [] =>
      match skip with
      | 0 => match m [] with Some _ => repl | None => [] end
      | S _ => []
      end
  | c :: s' =>
      match skip with
      | S k => sub_go m repl k s'
      | 0 =>
          match m s with
          | Some (S n) => repl ++ sub_go m repl n s'
          | Some 0 => repl ++ c :: sub_go m repl 0 s'
          | None => c :: sub_go m repl 0 s'
          end
      end
  end.

Definition re_sub (pat : list item) (repl : str) (s : str) : str :=
  sub_go (compile pat) repl 0 s.

Definition is_lpar (c : ascii) : bool := ascii_eqb c LPAR.
Definition is_rpar (c : ascii) : bool := ascii_eqb c RPAR.
(** [.] without [re.DOTALL]: anything but a line feed. *)
Definition dot (c : ascii) : bool := negb (ascii_eqb c LF).

(** [\s*\(.*?\)\s*] *)
Definition pat_paren : list item :=
  [Star true py_isspace; One is_lpar; Star false dot; One is_rpar;
   Star true py_isspace].

(** [\s+] *)
Definition pat_spaces : list item :=
  [One py_isspace; Star true py_isspace].

(** ** matching.py *)

(** [normalize(text)] *)
Definition normalize (text : str) : str :=
  let text := re_sub pat_paren [SP] text in
  let text := strip (lower text) in
  re_sub pat_spaces [SP] text.

(** A catalog song: one row of the catalog file. *)
Record CatalogEntry : Type := {
  catalog_id : str;
  title : str;
  writers : str;
  controlled_percentage : str
}.

(** A flattened track: one song performed at one show. *)
Record Track : Type := {
  show_date : str;
  venue_name : str;
  city : str;
  setlist_track_name : str
}.

Definition Exact : str := lit "Exact".
Definition High : str := lit "High".
Definition Review : str := lit "Review".
Definition NoneStr : str := lit "None".

(** config.py: [VALID_CONFIDENCE], [MAX_RETRIES], [BACKOFF_BASE],
    [BACKOFF_MAX]. *)
Definition VALID_CONFIDENCE : gset str := {[ Exact; High; Review; NoneStr ]}.
Definition MAX_RETRIES : Z := 3.
Definition BACKOFF_BASE : Z := 2.
Definition BACKOFF_MAX : Z := 30.

(** [deterministic_match(track_name, catalog)].  The source returns the
    pair [(catalog_id, "Exact")] of the first song that matches, or
    [(None, None)]; the latter is [None] here. *)
Fixpoint deterministic_match (track_name : str) (catalog : list CatalogEntry)
  : option (str * str) :=
  match catalog with
  | [] => None
  | song :: rest =>
      if str_eqb (strip (lower track_name)) (strip (lower (title song)))
      then Some (catalog_id song, Exact)
      else if str_eqb (normalize track_name) (normalize (title song))
      then Some (catalog_id song, Exact)
      else deterministic_match track_name rest
  end.

(** ** Values decoded from JSON

    What [json.loads] returns.  An object lists its items in insertion
    order; a lookup takes the first binding of the key.  A float carries the
    text [str] prints for it. *)
Inductive json : Type :=
  | JNull
  | JBool (b : bool)
  | JInt (z : Z)
  | JFloat (text : str)
  | JStr (s : str)
  | JList (l : list json)
  | JDict (items : list (str * json)).

Definition pydict := list (str * json).

Fixpoint dict_get (d : pydict) (key : str) : option json :=
  match d with
  | [] => None
  | (k, v) :: d' => if str_eqb k key then Some v else dict_get d' key
  end.

(** A match as the matchers hand it on: the two keys of the dict that
    [validate_match] builds, and of the fallback dict. *)
Record MatchCandidate : Type := {
  mc_catalog_id : str;
  mc_confidence : str
}.

(** ** The external matcher and the process state *)

(** One call of [client.chat.completions.create] followed by
    [json.loads] of the reply: the call (or reading the reply) raises, the
    text is not JSON, or a value is decoded. *)
Inductive Response : Type :=
  | Raises
  | NotJSON
  | Reply (parsed : json).

(** A client answers a request from the number of calls made before it
    and from what the prompt is built of: the track name and the catalog. *)
Definition Client := nat -> str -> list CatalogEntry -> Response.

(** What the program takes from outside its own source: the SHA-256
    hex digest, [repr] of a list or dict, the configured inter-call delay
    (seconds), the successive draws of [random.uniform(0, 1)], and the
    client that [OpenAI(api_key=...)] builds. *)
Record extern : Type := {
  sha256_hex : str -> str;
  py_repr : json -> str;
  RATE_LIMIT_DELAY : Q;
  random_uniform : nat -> Q;
  OpenAI : str -> Client
}.

(** What happens during a run, in order. *)
Inductive event : Type :=
  | EvSleep (seconds : Q)
  | EvCreate (track_name : str)
  | EvDeterministic (track_name : str)
  | EvLLM (track_name : str)
  | EvOpenAI (api_key : str).

(** The process state: the module-level [_match_cache], the number of
    [create] calls and of random draws made so far, the value of the
    environment variable [OPENAI_API_KEY], and the events so far. *)
Record World : Type := {
  _match_cache : gmap str (list MatchCandidate);
  api_calls : nat;
  draws : nat;
  OPENAI_API_KEY : option str;
  trace : list event
}.

Definition log (e : event) (w : World) : World :=
  {| _match_cache := _match_cache w; api_calls := api_calls w;
     draws := draws w; OPENAI_API_KEY := OPENAI_API_KEY w;
     trace := trace w ++ [e] |}.

Definition cache_store (key : str) (v : list MatchCandidate) (w : World)
  : World :=
  {| _match_cache := <[key := v]> (_match_cache w); api_calls := api_calls w;
     draws := draws w; OPENAI_API_KEY := OPENAI_API_KEY w;
     trace := trace w |}.

Definition count_call (w : World) : World :=
  {| _match_cache := _match_cache w; api_calls := S (api_calls w);
     draws := draws w; OPENAI_API_KEY := OPENAI_API_KEY w;
     trace := trace w |}.

Definition count_draw (w : World) : World :=
  {| _match_cache := _match_cache w; api_calls := api_calls w;
     draws := S (draws w); OPENAI_API_KEY := OPENAI_API_KEY w;
     trace := trace w |}.

(** [clear_cache()] *)
Definition clear_cache (w : World) : World :=
  {| _match_cache := ∅; api_calls := api_calls w;
     draws := draws w; OPENAI_API_KEY := OPENAI_API_KEY w;
     trace := trace w |}.

(** ** Exceptions

    What a function gives back is a value or the exception it raises.  A
    function that changes the process state gives the state back in
    either case: what was done before an exception stays done. *)

Inductive pyerr : Type := ValueError | TypeError | KeyError | OverflowError.

Definition res (A : Type) : Type := (pyerr + A)%type.

Definition rbind {A B : Type} (m : res A) (k : A -> res B) : res B :=
  match m with
  | inl e => inl e
  | inr a => k a
  end.

Notation "'do' x <- m ; k" := (rbind m (fun x => k))
  (at level 10, x name, m at level 100, k at level 200, only parsing).

(** A row of the output. *)
Record ResultRow : Type := {
  r_show_date : str;
  r_venue_name : str;
  r_setlist_track_name : str;
  matched_catalog_id : str;
  matched_catalog_title : str;
  match_confidence : str
}.

Section Core.

Variable E : extern.

(** [str(v)] for a decoded value. *)
Definition py_str (v : json) : str :=
  match v with
  | JNull => NoneStr
  | JBool true => lit "True"
  | JBool false => lit "False"
  | JInt z => lit (DecimalString.NilZero.string_of_int (Z.to_int z))
  | JFloat text => text
  | JStr s => s
  | JList _ | JDict _ => py_repr E v
  end.

(** [validate_match(match, catalog_ids)] *)
Definition validate_match (m : pydict) (catalog_ids : gset str)
  : MatchCandidate :=
  let catalog_id :=
    strip (py_str (default (JStr NoneStr) (dict_get m (lit "catalog_id")))) in
  let confidence :=
    strip (py_str (default (JStr NoneStr) (dict_get m (lit "confidence")))) in
  let '(catalog_id, confidence) :=
    if negb (str_eqb catalog_id NoneStr)
       && negb (bool_decide (catalog_id ∈ catalog_ids))
    then (NoneStr, NoneStr)
    else (catalog_id, confidence) in
  let confidence :=
    if negb (bool_decide (confidence ∈ VALID_CONFIDENCE))
    then Review else confidence in
  {| mc_catalog_id := catalog_id; mc_confidence := confidence |}.

(** ** llm_matching.py *)

(** [_cache_key(track_name)] *)
Definition _cache_key (track_name : str) : str :=
  sha256_hex E (normalize track_name).

(** [min(BACKOFF_BASE ** attempt + jitter, BACKOFF_MAX)], seconds, in exact
    arithmetic. *)
Definition delay_value (attempt : nat) (jitter : Q) : Q :=
  Qmin (inject_Z (BACKOFF_BASE ^ Z.of_nat attempt) + jitter)
       (inject_Z BACKOFF_MAX).

(** The delay of [_backoff_sleep(attempt)] when [random.uniform(0, 1)]
    draws [jitter].  [BACKOFF_BASE ** attempt] is an integer and the jitter
    a float: their sum converts the integer to a float, which raises
    [OverflowError] from [2 ** 1024] on. *)
Definition backoff_delay (attempt : nat) (jitter : Q) : res Q :=
  if 1024 <=? attempt then inl OverflowError
  else inr (delay_value attempt jitter).

(** [_backoff_sleep(attempt)]: the jitter is drawn before the sum is
    formed; no sleep takes place when the sum raises. *)
Definition _backoff_sleep (attempt : nat) (w : World) : res unit * World :=
  let jitter := random_uniform E (draws w) in
  let w := count_draw w in
  match backoff_delay attempt jitter with
  | inl e => (inl e, w)
  | inr delay => (inr tt, log (EvSleep delay) w)
  end.

Definition is_list (v : json) : option (list json) :=
  match v with JList l => Some l | _ => None end.

(** [for key in keys: if key in parsed and isinstance(parsed[key], list)] *)
Fixpoint first_list_under (d : pydict) (keys : list str)
  : option (list json) :=
  match keys with
  | [] => None
  | key :: keys' =>
      match dict_get d key ≫= is_list with
      | Some l => Some l
      | None => first_list_under d keys'
      end
  end.

(** [for val in parsed.values(): if isinstance(val, list)] *)
Fixpoint first_list_value (d : pydict) : option (list json) :=
  match d with
  | [] => None
  | (_, v) :: d' =>
      match is_list v with
      | Some l => Some l
      | None => first_list_value d'
      end
  end.

(** [_parse_llm_response(raw)], on the value [json.loads(raw)] gave. *)
Definition _parse_llm_response (parsed : json) : list json :=
  match parsed with
  | JList l => l
  | JDict d =>
      match first_list_under d [lit "matches"; lit "results"; lit "data"] with
      | Some l => l
      | None =>
          if bool_decide (is_Some (dict_get d (lit "catalog_id")))
          then [parsed]
          else default [] (first_list_value d)
      end
  | _ => []
  end.

(** [validate_match(m, catalog_ids)] on one element of the parsed list:
    [m.get] raises on anything that is not a dict. *)
Definition validate_entry (catalog_ids : gset str) (m : json)
  : option MatchCandidate :=
  match m with
  | JDict d => Some (validate_match d catalog_ids)
  | _ => None
  end.

Definition unparseable : json :=
  JDict [(lit "catalog_id", JStr NoneStr); (lit "confidence", JStr NoneStr);
         (lit "reasoning", JStr (lit "Unparseable response"))].

(** The body of the [try] once the reply is in: [None] when it raises. *)
Definition try_body (catalog_ids : gset str) (r : Response)
  : option (list MatchCandidate) :=
  match r with
  | Raises | NotJSON => None
  | Reply parsed =>
      let matches := _parse_llm_response parsed in
      let matches :=
        match matches with [] => [unparseable] | _ => matches end in
      mapM (validate_entry catalog_ids) matches
  end.

Definition fallback : list MatchCandidate :=
  [{| mc_catalog_id := NoneStr; mc_confidence := NoneStr |}].

(** [if attempt < max_retries: _backoff_sleep(attempt)], the tail of
    the loop body after a failed attempt.  It stands outside the [try]. *)
Definition retry_pause (max_retries : Z) (attempt : nat) (w : World)
  : res unit * World :=
  if (Z.of_nat attempt <? max_retries)%Z
  then _backoff_sleep attempt w else (inr tt, w).

(** [for attempt in range(max_retries + 1)], over the attempts still to
    make.  [Some validated] is the [return] inside the loop; [None] means
    that the loop ran to its end; an exception is one that the pause
    raised. *)
Fixpoint attempt_loop (client : Client) (track_name : str)
    (catalog : list CatalogEntry) (catalog_ids : gset str) (key : str)
    (max_retries : Z) (attempts : list nat) (w : World)
  : res (option (list MatchCandidate)) * World :=
  match attempts with
  | [] => (inr None, w)
  | attempt :: rest =>
      let response := client (api_calls w) track_name catalog in
      let w := log (EvCreate track_name) (count_call w) in
      match try_body catalog_ids response with
      | Some validated => (inr (Some validated), cache_store key validated w)
      | None =>
          match retry_pause max_retries attempt w with
          | (inl e, w) => (inl e, w)
          | (inr _, w) =>
              attempt_loop client track_name catalog catalog_ids key
                           max_retries rest w
          end
      end
  end.

(** [range(n)] *)
Definition range (n : Z) : list nat := seq 0 (Z.to_nat n).

(** [llm_fuzzy_match(track_name, catalog, client, max_retries)] *)
Definition llm_fuzzy_match (track_name : str) (catalog : list CatalogEntry)
    (client : Client) (max_retries : option Z) (w : World)
  : res (list MatchCandidate) * World :=
  let max_retries := default MAX_RETRIES max_retries in
  let w := log (EvLLM track_name) w in
  let key := _cache_key track_name in
  match _match_cache w !! key with
  | Some cached => (inr cached, w)
  | None =>
      let catalog_ids : gset str := list_to_set (map catalog_id catalog) in
      let w :=
        if Qlt_le_dec 0 (RATE_LIMIT_DELAY E)
        then log (EvSleep (RATE_LIMIT_DELAY E)) w else w in
      match attempt_loop client track_name catalog catalog_ids key
                         max_retries (range (max_retries + 1)) w with
      | (inl e, w) => (inl e, w)
      | (inr (Some validated), w) => (inr validated, w)
      | (inr None, w) => (inr fallback, cache_store key fallback w)
      end
  end.

(** ** reconciler.py *)

Fixpoint title_of (catalog : list CatalogEntry) (cid : str) : str :=
  match catalog with
  | [] => []
  | song :: rest =>
      if str_eqb (catalog_id song) cid then title song else title_of rest cid
  end.

(** [_result_row(track, catalog_id, confidence, catalog)] *)
Definition _result_row (track : Track) (cid confidence : str)
    (catalog : list CatalogEntry) : ResultRow :=
  let matched_title :=
    if negb (str_eqb cid []) && negb (str_eqb cid NoneStr)
    then title_of catalog cid else [] in
  {| r_show_date := show_date track;
     r_venue_name := venue_name track;
     r_setlist_track_name := setlist_track_name track;
     matched_catalog_id := cid;
     matched_catalog_title := matched_title;
     match_confidence := confidence |}.

(** The head of [reconcile]: with no client passed, one is built from
    [OPENAI_API_KEY] when that variable is set and not empty. *)
Definition resolve_client (client : option Client) (w : World)
  : option Client * World :=
  match client with
  | Some c => (Some c, w)
  | None =>
      match OPENAI_API_KEY w with
      | Some (c :: k) =>
          (Some (OpenAI E (c :: k)), log (EvOpenAI (c :: k)) w)
      | _ => (None, w)
      end
  end.

Definition has_slash (s : str) : bool := existsb (ascii_eqb SLASH) s.

Definition rows_of (track : Track) (matches : list MatchCandidate)
    (catalog : list CatalogEntry) : list ResultRow :=
  map (fun m => _result_row track (mc_catalog_id m) (mc_confidence m) catalog)
      matches.

(** The stage-2 tail shared by the medley branch and by a deterministic
    miss. *)
Definition send_to_llm (client : option Client) (track : Track)
    (catalog : list CatalogEntry) (w : World)
  : res (list ResultRow) * World :=
  match client with
  | None => (inr [_result_row track NoneStr NoneStr catalog], w)
  | Some c =>
      match llm_fuzzy_match (setlist_track_name track) catalog c None w with
      | (inl e, w) => (inl e, w)
      | (inr matches, w) => (inr (rows_of track matches catalog), w)
      end
  end.

(** One turn of the loop [for track in tracks]. *)
Definition reconcile_track (client : option Client) (track : Track)
    (catalog : list CatalogEntry) (w : World)
  : res (list ResultRow) * World :=
  let track_name := setlist_track_name track in
  if has_slash track_name then send_to_llm client track catalog w
  else
    let w := log (EvDeterministic track_name) w in
    match deterministic_match track_name catalog with
    | Some (c :: cid, confidence) =>
        (inr [_result_row track (c :: cid) confidence catalog], w)
    | _ => send_to_llm client track catalog w
    end.

(** The loop: an exception ends it and the rows gathered so far are
    lost with it. *)
Fixpoint reconcile_loop (client : option Client) (tracks : list Track)
    (catalog : list CatalogEntry) (w : World)
  : res (list ResultRow) * World :=
  match tracks with
  | [] => (inr [], w)
  | track :: rest =>
      match reconcile_track client track catalog w with
      | (inl e, w) => (inl e, w)
      | (inr rows, w) =>
          match reconcile_loop client rest catalog w with
          | (inl e, w) => (inl e, w)
          | (inr more, w) => (inr (rows ++ more), w)
          end
      end
  end.

(** [reconcile(tracks, catalog, client)] *)
Definition reconcile (tracks : list Track) (catalog : list CatalogEntry)
    (client : option Client) (w : World) : res (list ResultRow) * World :=
  let '(client, w) := resolve_client client w in
  reconcile_loop client tracks catalog w.

End Core.

(** ** Vocabulary of the properties *)

(** A [(] with a [)] somewhere after it: a parenthesized substring. *)
Fixpoint has_pair (s : str) : bool :=
  match s with
  | [] => false
  | c :: s' => (is_lpar c && existsb is_rpar s') || has_pair s'
  end.

Definition hd_space (s : str) : bool :=
  match s with
  | c :: _ => py_isspace c
  | [] => false
  end.

(** Two whitespace characters in a row. *)
Fixpoint dbl_space (s : str) : bool :=
  match s with
  | [] => false
  | c :: s' => (py_isspace c && hd_space s') || dbl_space s'
  end.

(** No line feed in the text. *)
Definition single_line (s : str) : bool := forallb dot s.

(** The number of whitespace characters at the head. *)
Fixpoint span (s : str) : nat :=
  match s with
  | c :: s' => if py_isspace c then S (span s') else 0
  | [] => 0
  end.

(** What [re.sub(r'\s+', ' ', s)] computes, by one structural pass:
    [in_run] tells that the previous character was whitespace. *)
Fixpoint squeeze (in_run : bool) (s : str) : str :=
  match s with
  | [] => []
  | c :: s' =>
      if py_isspace c
      then (if in_run then squeeze true s' else SP :: squeeze true s')
      else c :: squeeze false s'
  end.

(** The text holds a substring that starts with [(] and ends with [)]. *)
Definition parenthesized (s : str) : Prop :=
  exists u v w, s = u ++ LPAR :: v ++ RPAR :: w.

(** The text holds two consecutive whitespace characters. *)
Definition doubled_space (s : str) : Prop :=
  exists u a b w,
    s = u ++ a :: b :: w /\ py_isspace a = true /\ py_isspace b = true.

(** A parenthetical that runs over a line feed: ["(a\n)"]. *)
Definition two_line_suffix : str := [LPAR; "a"%char; LF; RPAR].

(** ** A small scenario

    An environment, a fresh process, two catalogs, and three clients: one
    that answers with a confident match on CAT-002, one whose first reply
    is not JSON, one whose every call raises. *)

Definition env0 : extern :=
  {| sha256_hex := fun s => s;
     py_repr := fun _ => [];
     RATE_LIMIT_DELAY := 1 # 10;
     random_uniform := fun _ => 1 # 2;
     OpenAI := fun _ _ _ _ =>
       Reply (JDict [(lit "matches",
                      JList [JDict [(lit "catalog_id", JStr (lit "CAT-002"));
                                    (lit "confidence", JStr (lit "High"))]])])
  |}.

Definition fresh : World :=
  {| _match_cache := ∅; api_calls := 0; draws := 0;
     OPENAI_API_KEY := None; trace := [] |}.

Definition song (cid ttl : string) : CatalogEntry :=
  {| catalog_id := lit cid; title := lit ttl; writers := lit "Alex Park";
     controlled_percentage := lit "100" |}.

Definition tour_catalog : list CatalogEntry :=
  [song "CAT-001" "Neon Dreams"; song "CAT-002" "Midnight in Tokyo"].

Definition other_catalog : list CatalogEntry :=
  [song "CAT-007" "Velocity"].

Definition tokyo_reply : json :=
  JDict [(lit "matches",
          JList [JDict [(lit "catalog_id", JStr (lit "CAT-002"));
                        (lit "confidence", JStr (lit "High"));
                        (lit "reasoning", JStr (lit "abbreviation"))]])].

Definition client_ok : Client := fun _ _ _ => Reply tokyo_reply.

Definition client_flaky : Client :=
  fun n _ _ => match n with 0 => NotJSON | _ => Reply tokyo_reply end.

Definition client_down : Client := fun _ _ _ => Raises.

Definition played (name : string) : Track :=
  {| show_date := lit "2024-03-01"; venue_name := lit "The Fillmore";
     city := lit "San Francisco"; setlist_track_name := lit name |}.

(** ** Vocabulary of the orchestrator *)

(** [w'] continues [w] by events that all satisfy [P]. *)
Definition extends (P : event -> Prop) (w w' : World) : Prop :=
  exists new, trace w' = trace w ++ new /\ Forall P new.

Definition is_det (e : event) : bool :=
  match e with EvDeterministic _ => true | _ => false end.

(** The deterministic matcher was only asked about names without [/]. *)
Definition det_on_plain (e : event) : Prop :=
  forall name, e = EvDeterministic name -> has_slash name = false.

Definition none_row (track : Track) (catalog : list CatalogEntry)
  : ResultRow := _result_row track NoneStr NoneStr catalog.

(** The row of a track when there is no client at all. *)
Definition offline_row (catalog : list CatalogEntry) (track : Track)
  : ResultRow :=
  if has_slash (setlist_track_name track) then none_row track catalog
  else
    match deterministic_match (setlist_track_name track) catalog with
    | Some (c :: cid, confidence) =>
        _result_row track (c :: cid) confidence catalog
    | _ => none_row track catalog
    end.

(** A miss of stage 1 as [reconcile] sees it: no pair, or an id that
    is empty and so fails the test [if catalog_id]. *)
Definition deterministic_miss (name : str) (catalog : list CatalogEntry)
  : Prop :=
  match deterministic_match name catalog with
  | Some (_ :: _, _) => False
  | _ => True
  end.

(** A process in which [OPENAI_API_KEY] is set. *)
Definition with_key : World :=
  {| _match_cache := ∅; api_calls := 0; draws := 0;
     OPENAI_API_KEY := Some (lit "sk-test"); trace := [] |}.

(** A candidate, a row, a cache that fit a catalog: the id is ["None"]
    or an id of the catalog, the confidence one of the four levels. *)
Definition known_id (catalog : list CatalogEntry) (cid : str) : Prop :=
  cid = NoneStr \/ In cid (map catalog_id catalog).

Definition known_confidence (c : str) : Prop :=
  c = Exact \/ c = High \/ c = Review \/ c = NoneStr.

Definition valid_candidate (catalog : list CatalogEntry) (m : MatchCandidate)
  : Prop :=
  known_id catalog (mc_catalog_id m) /\ known_confidence (mc_confidence m).

Definition valid_row (catalog : list CatalogEntry) (r : ResultRow) : Prop :=
  known_id catalog (matched_catalog_id r)
  /\ known_confidence (match_confidence r).

Definition cache_valid (catalog : list CatalogEntry)
    (c : gmap str (list MatchCandidate)) : Prop :=
  forall k v, c !! k = Some v -> Forall (valid_candidate catalog) v.

Definition medley_catalog : list CatalogEntry :=
  [song "CAT-004" "Desert Rain / Ocean Avenue"].

(** The continuations of [\s*\(.*?\)\s*], from its end to its
    opening parenthesis. *)
Definition k_end : matcher := fun _ => Some 0.
Definition k_tail : matcher := m_star_greedy py_isspace k_end.
Definition k_rpar : matcher := m_one is_rpar k_tail.
Definition k_body : matcher := m_star_lazy dot k_rpar.
Definition k_lpar : matcher := m_one is_lpar k_body.

(** A character that is not whitespace, or is the plain space. *)
Definition plain_space (c : ascii) : bool :=
  implb (py_isspace c) (ascii_eqb c SP).

(** ** Vocabulary of the further properties *)

(** The two tests of [deterministic_match] on one song. *)
Definition song_matches (track_name : str) (s : CatalogEntry) : bool :=
  str_eqb (strip (lower track_name)) (strip (lower (title s)))
  || str_eqb (normalize track_name) (normalize (title s)).

(** The second test alone. *)
Definition norm_matches (track_name : str) (s : CatalogEntry) : bool :=
  str_eqb (normalize track_name) (normalize (title s)).

(** A match length [n] in [s] and the one, [n'], that the same match has
    once the whitespace [post] is appended: unchanged, or, when the match
    ran to the end of [s], longer by all of [post]. *)
Definition grown (s post : str) (n n' : nat) : Prop :=
  n' = n \/ (n = length s /\ n' = n + length post).

Definition is_dict (j : json) : bool :=
  match j with JDict _ => true | _ => false end.

(** The entries that the body of the [try] validates: the parsed list,
    or the one stand-in entry when that list is empty. *)
Definition parsed_matches (parsed : json) : list json :=
  match _parse_llm_response parsed with
  | [] => [unparseable]
  | l => l
  end.

(** The seconds slept during a sequence of events. *)
Fixpoint slept (evs : list event) : Q :=
  match evs with
  | [] => 0
  | EvSleep q :: evs' => q + slept evs'
  | _ :: evs' => slept evs'
  end.

(** No cached sequence is empty. *)
Definition cache_nonempty (c : gmap str (list MatchCandidate)) : Prop :=
  forall k v, c !! k = Some v -> v <> [].

(** The state in which the retry loop starts on a cache miss: the
    invocation is on record and the rate-limit pause, if any, is taken. *)
Definition enter (E : extern) (t : str) (w : World) : World :=
  if Qlt_le_dec 0 (RATE_LIMIT_DELAY E)
  then log (EvSleep (RATE_LIMIT_DELAY E)) (log (EvLLM t) w)
  else log (EvLLM t) w.

(** The attempts after which the loop pauses: [attempt < max_retries]. *)
Definition pauses (max_retries : Z) (attempts : list nat) : nat :=
  length (List.filter (fun a => (Z.of_nat a <? max_retries)%Z) attempts).

Definition reply_with_number : json :=
  JDict [(lit "matches",
          JList [JDict [(lit "catalog_id", JStr (lit "CAT-002"));
                        (lit "confidence", JStr (lit "High"))];
                 JInt 5])].

(** Stage 1 yields a row: a match whose id passes [if catalog_id]. *)
Definition det_hit (name : str) (catalog : list CatalogEntry) : bool :=
  match deterministic_match name catalog with
  | Some (_ :: _, _) => true
  | _ => false
  end.

(** The tracks that [reconcile] passes on to stage 2. *)
Definition needs_llm (catalog : list CatalogEntry) (track : Track) : bool :=
  has_slash (setlist_track_name track)
  || negb (det_hit (setlist_track_name track) catalog).

Definition track_key (E : extern) (track : Track) : str :=
  _cache_key E (setlist_track_name track).

(** The row repeats the date, the venue and the name of the track. *)
Definition from_track (track : Track) (r : ResultRow) : Prop :=
  r_show_date r = show_date track
  /\ r_venue_name r = venue_name track
  /\ r_setlist_track_name r = setlist_track_name track.

(** The title of a row is the one its id looks up. *)
Definition titled (catalog : list CatalogEntry) (r : ResultRow) : Prop :=
  matched_catalog_title r
  = if bool_decide (matched_catalog_id r = [] \/ matched_catalog_id r = NoneStr)
    then []
    else from_option title []
           (List.find (fun s => str_eqb (catalog_id s) (matched_catalog_id r))
                      catalog).

(** ** ingestion.py

    The tour data are a decoded JSON value.  The operations of Python that
    the two functions apply to it raise on values of the wrong kind. *)

Fixpoint is_prefix (p s : str) : bool :=
  match p, s with
  | [], _ => true
  | a :: p', b :: s' => ascii_eqb a b && is_prefix p' s'
  | _ :: _, [] => false
  end.

(** [needle in hay] on two strings. *)
Fixpoint str_contains (needle hay : str) : bool :=
  is_prefix needle hay
  || match hay with
     | [] => false
     | _ :: hay' => str_contains needle hay'
     end.

(** [key in v]: a key of a dict, an element of a list, a substring of a
    string; a [TypeError] on anything else. *)
Definition py_contains (key : str) (v : json) : res bool :=
  match v with
  | JDict d => inr (bool_decide (is_Some (dict_get d key)))
  | JList l =>
      inr (existsb (fun x => match x with
                             | JStr s => str_eqb s key
                             | _ => false
                             end) l)
  | JStr s => inr (str_contains key s)
  | _ => inl TypeError
  end.

(** [v[key]] with a string key: the value of a dict, a [KeyError] when
    the key is missing, a [TypeError] on anything that is not a dict. *)
Definition py_getitem (v : json) (key : str) : res json :=
  match v with
  | JDict d =>
      match dict_get d key with
      | Some x => inr x
      | None => inl KeyError
      end
  | _ => inl TypeError
  end.

(** [for x in v]: the elements of a list, the keys of a dict, the
    characters of a string; a [TypeError] on anything else. *)
Definition py_iter (v : json) : res (list json) :=
  match v with
  | JList l => inr l
  | JDict d => inr (map (fun kv => JStr kv.1) d)
  | JStr s => inr (map (fun c => JStr [c]) s)
  | _ => inl TypeError
  end.

(** [if key not in show: raise ValueError] *)
Definition require_key (key : str) (show : json) : res unit :=
  do present <- py_contains key show;
  if present then inr tt else inl ValueError.

(** The body of the loop of [_validate_tour_data] for one show. *)
Definition validate_show (show : json) : res unit :=
  do _ <- require_key (lit "date") show;
  do _ <- require_key (lit "venue") show;
  do _ <- require_key (lit "city") show;
  do _ <- require_key (lit "setlist") show;
  do setlist <- py_getitem show (lit "setlist");
  match setlist with
  | JList _ => inr tt
  | _ => inl ValueError
  end.

Fixpoint validate_shows (shows : list json) : res unit :=
  match shows with
  | [] => inr tt
  | show :: rest => do _ <- validate_show show; validate_shows rest
  end.

(** [_validate_tour_data(data)] *)
Definition _validate_tour_data (data : json) : res unit :=
  match data with
  | JDict _ =>
      do present <- py_contains (lit "data") data;
      if negb present then inl ValueError else
      do inner <- py_getitem data (lit "data");
      do present <- py_contains (lit "shows") inner;
      if negb present then inl ValueError else
      do shows <- py_getitem inner (lit "shows");
      match shows with
      | JList (show :: rest) => validate_shows (show :: rest)
      | _ => inl ValueError
      end
  | _ => inl ValueError
  end.

(** A track as [flatten_setlists] builds it: the four values are
    whatever the tour data hold. *)
Record RawTrack : Type := {
  rt_show_date : json;
  rt_venue_name : json;
  rt_city : json;
  rt_setlist_track_name : json
}.

(** The inner loop of [flatten_setlists]: one dict per name, its first
    three values read from the show each time. *)
Fixpoint flatten_names (show : json) (names : list json)
  : res (list RawTrack) :=
  match names with
  | [] => inr []
  | track_name :: rest =>
      do date <- py_getitem show (lit "date");
      do venue <- py_getitem show (lit "venue");
      do city <- py_getitem show (lit "city");
      do more <- flatten_names show rest;
      inr ({| rt_show_date := date; rt_venue_name := venue;
              rt_city := city; rt_setlist_track_name := track_name |}
           :: more)
  end.

Fixpoint flatten_shows (shows : list json) : res (list RawTrack) :=
  match shows with
  | [] => inr []
  | show :: rest =>
      do setlist <- py_getitem show (lit "setlist");
      do names <- py_iter setlist;
      do tracks <- flatten_names show names;
      do more <- flatten_shows rest;
      inr (tracks ++ more)
  end.

(** [flatten_setlists(tour_data)] *)
Definition flatten_setlists (tour_data : json) : res (list RawTrack) :=
  do data <- py_getitem tour_data (lit "data");
  do shows <- py_getitem data (lit "shows");
  do items <- py_iter shows;
  flatten_shows items.

(** The track that [reconcile] expects, when the four values are
    strings. *)
Definition as_track (r : RawTrack) : option Track :=
  match rt_show_date r, rt_venue_name r, rt_city r, rt_setlist_track_name r with
  | JStr d, JStr v, JStr c, JStr n =>
      Some {| show_date := d; venue_name := v; city := c;
              setlist_track_name := n |}
  | _, _, _, _ => None
  end.

(** A show that the validation lets through, and tour data it lets
    through. *)
Definition good_show (show : json) : Prop :=
  exists sd l,
    show = JDict sd
    /\ is_Some (dict_get sd (lit "date"))
    /\ is_Some (dict_get sd (lit "venue"))
    /\ is_Some (dict_get sd (lit "city"))
    /\ dict_get sd (lit "setlist") = Some (JList l).

Definition good_tour (data : json) : Prop :=
  exists d inner shows,
    data = JDict d
    /\ dict_get d (lit "data") = Some (JDict inner)
    /\ dict_get inner (lit "shows") = Some (JList shows)
    /\ shows <> []
    /\ Forall good_show shows.

(** The shows of tour data and the rows of one show, read without
    checks. *)
Definition field (v : json) (key : str) : json :=
  match v with
  | JDict d => default JNull (dict_get d key)
  | _ => JNull
  end.

Definition elements (v : json) : list json :=
  match v with JList l => l | _ => [] end.

Definition show_rows (show : json) : list RawTrack :=
  map (fun name =>
         {| rt_show_date := field show (lit "date");
            rt_venue_name := field show (lit "venue");
            rt_city := field show (lit "city");
            rt_setlist_track_name := name |})
      (elements (field show (lit "setlist"))).

Definition tour_shows (data : json) : list json :=
  elements (field (field data (lit "data")) (lit "shows")).

(** The tour data of the ingestion tests, and a variant in which a
    show lacks its venue and has played nothing. *)
Definition show_of (date venue town : string) (setlist : list json) : json :=
  JDict [(lit "date", JStr (lit date)); (lit "venue", JStr (lit venue));
         (lit "city", JStr (lit town)); (lit "setlist", JList setlist)].

Definition tour_of (shows : list json) : json :=
  JDict [(lit "status", JStr (lit "success"));
         (lit "data", JDict [(lit "artist", JStr (lit "The Neon Lights"));
                             (lit "shows", JList shows)])].

Definition sample_tour : json :=
  tour_of
    [show_of "2024-11-15" "The Echo Lounge" "Los Angeles"
       [JStr (lit "Neon Dreams"); JStr (lit "Tokyo (Acoustic)");
        JStr (lit "Shattered Glass")];
     show_of "2024-11-16" "Fillmore" "San Francisco"
       [JStr (lit "Neon Dreams"); JStr (lit "Velocity (Extended Jam)")]].

Definition silent_tour : json :=
  tour_of [JDict [(lit "date", JStr (lit "2024-01-01"));
                  (lit "setlist", JList [])]].

(** The dict that [validate_match] returns for a candidate. *)
Definition match_dict (m : MatchCandidate) : pydict :=
  [(lit "catalog_id", JStr (mc_catalog_id m));
   (lit "confidence", JStr (mc_confidence m))].


(** The events of [k] failed attempts, the first of them attempt [a]
    using draw [d], each followed by its backoff pause. *)
Fixpoint retry_events (E : extern) (t : str) (a d k : nat) : list event :=
  match k with
  | 0 => []
  | S k' =>
      EvCreate t :: EvSleep (delay_value a (random_uniform E d))
      :: retry_events E t (S a) (S d) k'
  end.

(** The row of a track for which there is no match. *)
Definition blank_row (track : Track) : ResultRow :=
  {| r_show_date := show_date track;
     r_venue_name := venue_name track;
     r_setlist_track_name := setlist_track_name track;
     matched_catalog_id := NoneStr;
     matched_catalog_title := [];
     match_confidence := NoneStr |}.

(** The row repeats the id and the confidence of the candidate. *)
Definition row_of_candidate (track : Track) (m : MatchCandidate)
    (r : ResultRow) : Prop :=
  from_track track r
  /\ matched_catalog_id r = mc_catalog_id m
  /\ match_confidence r = mc_confidence m.

(** * Properties *)

(** ** Characters *)

Ltac each_char c :=
  destruct c as [[] [] [] [] [] [] [] []]; vm_compute; try congruence.

Lemma ascii_eqb_eq (a b : ascii) : ascii_eqb a b = true <-> a = b.
Proof. apply Ascii.eqb_eq. Qed.

Lemma space_not_lpar c : py_isspace c = true -> is_lpar c = false.
Proof. each_char c. Qed.

Lemma space_not_rpar c : py_isspace c = true -> is_rpar c = false.
Proof. each_char c. Qed.

Lemma lower_char_idem c : lower_char (lower_char c) = lower_char c.
Proof. each_char c. Qed.

Lemma lower_char_space c : py_isspace (lower_char c) = py_isspace c.
Proof. each_char c. Qed.

Lemma lower_char_lpar c : is_lpar (lower_char c) = is_lpar c.
Proof. each_char c. Qed.

Lemma lower_char_rpar c : is_rpar (lower_char c) = is_rpar c.
Proof. each_char c. Qed.

Lemma is_lpar_eq c : is_lpar c = true <-> c = LPAR.
Proof. apply ascii_eqb_eq. Qed.

Lemma is_rpar_eq c : is_rpar c = true <-> c = RPAR.
Proof. apply ascii_eqb_eq. Qed.

(** ** The pattern of parenthesized suffixes *)

Lemma compile_paren : compile pat_paren = m_star_greedy py_isspace k_lpar.
Proof. reflexivity. Qed.

Lemma k_tail_span s : k_tail s = Some (span s).
Proof.
  induction s as [|c s IH]; [reflexivity|].
  unfold k_tail in *. simpl. destruct (py_isspace c); [|reflexivity].
  now rewrite IH.
Qed.

Lemma k_body_cons c s :
  k_body (c :: s) =
  if is_rpar c then Some (S (span s))
  else if dot c then option_map S (k_body s) else None.
Proof.
  unfold k_body. simpl. unfold k_rpar at 1, m_one.
  destruct (is_rpar c); [now rewrite k_tail_span|reflexivity].
Qed.

Lemma k_body_nil : k_body [] = None.
Proof. reflexivity. Qed.

(** A match of the body reaches a closing parenthesis. *)
Lemma k_body_some s n : k_body s = Some n -> existsb is_rpar s = true.
Proof.
  revert n. induction s as [|c s IH]; intros n; [discriminate|].
  rewrite k_body_cons. simpl. destruct (is_rpar c); [reflexivity|].
  destruct (dot c); [|discriminate].
  destruct (k_body s) eqn:Hs; [|discriminate]. intros _. now apply (IH n0).
Qed.

(** On one line, the body fails only when no closing parenthesis
    follows. *)
Lemma k_body_none s :
  single_line s = true -> k_body s = None -> existsb is_rpar s = false.
Proof.
  induction s as [|c s IH]; [reflexivity|].
  simpl. intros [Hc Hs]%andb_prop. rewrite k_body_cons, Hc.
  destruct (is_rpar c); [discriminate|].
  destruct (k_body s); [discriminate|]. intros _. now apply IH.
Qed.

Lemma k_lpar_some s n : k_lpar s = Some n -> has_pair s = true.
Proof.
  destruct s as [|c s]; [discriminate|]. unfold k_lpar, m_one. simpl.
  destruct (is_lpar c); [|discriminate].
  destruct (k_body s) eqn:Hs; [|discriminate]. intros _.
  now rewrite (k_body_some _ _ Hs).
Qed.

Lemma k_lpar_pos s : k_lpar s <> Some 0.
Proof.
  destruct s as [|c s]; [discriminate|]. unfold k_lpar, m_one.
  destruct (is_lpar c); [|discriminate]. now destruct (k_body s).
Qed.

Lemma paren_cons c s :
  compile pat_paren (c :: s) =
  if py_isspace c then
    match compile pat_paren s with
    | Some n => Some (S n)
    | None => k_lpar (c :: s)
    end
  else k_lpar (c :: s).
Proof. rewrite compile_paren. reflexivity. Qed.

(** The pattern matches only where a parenthesized substring starts. *)
Lemma paren_some s n : compile pat_paren s = Some n -> has_pair s = true.
Proof.
  revert n. induction s as [|c s IH]; intros n.
  - rewrite compile_paren. discriminate.
  - rewrite paren_cons. destruct (py_isspace c).
    + destruct (compile pat_paren s) eqn:Hs.
      * intros _. simpl. rewrite (IH _ eq_refl). apply orb_true_r.
      * apply k_lpar_some.
    + apply k_lpar_some.
Qed.

Lemma paren_pos s : compile pat_paren s <> Some 0.
Proof.
  induction s as [|c s IH].
  - rewrite compile_paren. discriminate.
  - rewrite paren_cons. destruct (py_isspace c); [|apply k_lpar_pos].
    destruct (compile pat_paren s); [discriminate|apply k_lpar_pos].
Qed.

Lemma paren_nil : compile pat_paren [] = None.
Proof. reflexivity. Qed.

(** ** One pass of [re.sub] with the replacement [" "] *)

Arguments compile : simpl never.

Lemma sub_go_rpar m k s :
  existsb is_rpar (sub_go m [SP] k s) = true -> existsb is_rpar s = true.
Proof.
  revert k. induction s as [|c s IH]; intros k.
  - simpl. destruct k; [destruct (m [])|]; discriminate.
  - simpl. destruct k as [|k].
    + destruct (m (c :: s)) as [[|n]|]; simpl.
      * intros H. destruct (is_rpar c); [reflexivity|]. now apply (IH 0).
      * intros H. rewrite (IH n H). apply orb_true_r.
      * intros H. destruct (is_rpar c); [reflexivity|]. now apply (IH 0).
    + intros H. rewrite (IH k H). apply orb_true_r.
Qed.

(** On one line, what the pass leaves holds no parenthesized substring. *)
Lemma paren_pass_no_pair k s :
  single_line s = true ->
  has_pair (sub_go (compile pat_paren) [SP] k s) = false.
Proof.
  revert k. induction s as [|c s IH]; intros k Hl.
  - cbn [sub_go]. destruct k; [rewrite paren_nil|]; reflexivity.
  - simpl in Hl. apply andb_prop in Hl as [Hc Hs].
    cbn [sub_go]. destruct k as [|k]; [|now apply IH].
    destruct (compile pat_paren (c :: s)) as [[|n]|] eqn:Hm.
    + now destruct (paren_pos (c :: s)).
    + simpl. now apply IH.
    + simpl. rewrite (IH 0 Hs), orb_false_r.
      destruct (is_lpar c) eqn:Hp; [|reflexivity]. simpl.
      rewrite paren_cons in Hm.
      destruct (py_isspace c) eqn:Hw.
      { now rewrite (space_not_lpar _ Hw) in Hp. }
      unfold k_lpar, m_one in Hm. rewrite Hp in Hm.
      destruct (k_body s) eqn:Hb; [discriminate|].
      apply not_true_is_false. intros H%sub_go_rpar.
      now rewrite (k_body_none _ Hs Hb) in H.
Qed.

(** Where no parenthesized substring is left, the pass changes
    nothing. *)
Lemma paren_pass_id s :
  has_pair s = false -> sub_go (compile pat_paren) [SP] 0 s = s.
Proof.
  induction s as [|c s IH]; intros Hp.
  - cbn [sub_go]. now rewrite paren_nil.
  - cbn [sub_go]. destruct (compile pat_paren (c :: s)) eqn:Hm.
    + apply paren_some in Hm. congruence.
    + simpl in Hp. apply orb_false_elim in Hp as [_ Hp]. now rewrite IH.
Qed.

(** ** Collapsing whitespace *)

Lemma spaces_cons c s :
  compile pat_spaces (c :: s) =
  if py_isspace c then Some (S (span s)) else None.
Proof.
  change (compile pat_spaces) with (m_one py_isspace k_tail).
  unfold m_one. now rewrite k_tail_span.
Qed.

Lemma skip_span m r s : sub_go m r (span s) s = sub_go m r 0 (lstrip s).
Proof.
  induction s as [|c s IH]; [reflexivity|].
  simpl. destruct (py_isspace c); [exact IH|reflexivity].
Qed.

Lemma squeeze_spec s :
  sub_go (compile pat_spaces) [SP] 0 (lstrip s) = squeeze true s
  /\ sub_go (compile pat_spaces) [SP] 0 s = squeeze false s.
Proof.
  induction s as [|c s [IH1 IH2]]; [split; reflexivity|].
  assert (H : sub_go (compile pat_spaces) [SP] 0 (c :: s)
              = squeeze false (c :: s)).
  { cbn [sub_go]. rewrite spaces_cons. simpl.
    destruct (py_isspace c); [|now rewrite IH2].
    simpl. now rewrite skip_span, IH1. }
  split; [|exact H].
  simpl lstrip. simpl squeeze. destruct (py_isspace c) eqn:Hc; [exact IH1|].
  rewrite H. simpl. now rewrite Hc.
Qed.

Lemma collapse_squeeze s : re_sub pat_spaces [SP] s = squeeze false s.
Proof. apply squeeze_spec. Qed.

Lemma squeeze_true_hd s : hd_space (squeeze true s) = false.
Proof.
  induction s as [|c s IH]; [reflexivity|].
  simpl. destruct (py_isspace c) eqn:Hc; [exact IH|]. simpl. exact Hc.
Qed.

Lemma squeeze_no_dbl f s : dbl_space (squeeze f s) = false.
Proof.
  revert f. induction s as [|c s IH]; intros f; [reflexivity|].
  simpl. destruct (py_isspace c) eqn:Hc.
  - destruct f; [apply IH|]. simpl.
    now rewrite squeeze_true_hd, IH.
  - simpl. now rewrite Hc, IH.
Qed.

Lemma squeeze_rpar f s : existsb is_rpar (squeeze f s) = existsb is_rpar s.
Proof.
  revert f. induction s as [|c s IH]; intros f; [reflexivity|].
  simpl. destruct (py_isspace c) eqn:Hc.
  - rewrite (space_not_rpar _ Hc). destruct f; simpl; apply IH.
  - simpl. now rewrite IH.
Qed.

Lemma squeeze_pair f s : has_pair (squeeze f s) = has_pair s.
Proof.
  revert f. induction s as [|c s IH]; intros f; [reflexivity|].
  simpl. destruct (py_isspace c) eqn:Hc.
  - rewrite (space_not_lpar _ Hc). destruct f; simpl; apply IH.
  - simpl. now rewrite IH, squeeze_rpar.
Qed.

Lemma squeeze_plain f s : forallb plain_space (squeeze f s) = true.
Proof.
  revert f. induction s as [|c s IH]; intros f; [reflexivity|].
  simpl. destruct (py_isspace c) eqn:Hc.
  - destruct f; [apply IH|]. simpl. apply IH.
  - simpl. unfold plain_space at 1. rewrite Hc. apply IH.
Qed.

(** A text whose whitespace is single plain spaces is left as it is. *)
Lemma squeeze_id f s :
  forallb plain_space s = true -> dbl_space s = false ->
  (f = true -> hd_space s = false) -> squeeze f s = s.
Proof.
  revert f. induction s as [|c s IH]; intros f Hp Hd Hf; [reflexivity|].
  simpl in *. apply andb_prop in Hp as [Hc Hp].
  apply orb_false_elim in Hd as [Hh Hd].
  destruct (py_isspace c) eqn:Hw.
  - destruct f; [now specialize (Hf eq_refl)|].
    unfold plain_space in Hc. rewrite Hw in Hc. simpl in Hc.
    apply ascii_eqb_eq in Hc. subst c. f_equal.
    apply IH; auto.
  - f_equal. apply IH; auto. discriminate.
Qed.

Lemma squeeze_snoc f s c :
  py_isspace c = false -> squeeze f (s ++ [c]) = squeeze f s ++ [c].
Proof.
  intros Hc. revert f. induction s as [|d s IH]; intros f.
  - simpl. now rewrite Hc.
  - simpl. destruct (py_isspace d); [destruct f|]; simpl; now rewrite IH.
Qed.

Lemma squeeze_false_hd s : hd_space s = false -> hd_space (squeeze false s) = false.
Proof.
  destruct s as [|c s]; [reflexivity|]. simpl. intros Hc. now rewrite Hc.
Qed.

(** ** Stripping and lowering *)

Lemma lstrip_hd s : hd_space (lstrip s) = false.
Proof.
  induction s as [|c s IH]; [reflexivity|].
  simpl. destruct (py_isspace c) eqn:Hc; [exact IH|]. simpl. exact Hc.
Qed.

Lemma lstrip_id s : hd_space s = false -> lstrip s = s.
Proof. destruct s as [|c s]; [reflexivity|]. simpl. now intros ->. Qed.

Lemma lstrip_split s : exists pre, s = pre ++ lstrip s.
Proof.
  induction s as [|c s [pre IH]]; [now exists []|].
  simpl. destruct (py_isspace c); [|now exists []].
  exists (c :: pre). simpl. now f_equal.
Qed.

Lemma rstrip_split s : exists post, s = rstrip s ++ post.
Proof.
  unfold rstrip. destruct (lstrip_split (rev s)) as [pre H].
  exists (rev pre). rewrite <- rev_app_distr, <- H. symmetry. apply rev_involutive.
Qed.

Lemma rstrip_shape s :
  rstrip s = [] \/ exists x c, rstrip s = x ++ [c] /\ py_isspace c = false.
Proof.
  unfold rstrip. pose proof (lstrip_hd (rev s)) as H.
  destruct (lstrip (rev s)) as [|c z]; [now left|].
  right. exists (rev z), c. split; [reflexivity|exact H].
Qed.

Lemma rstrip_snoc x c : py_isspace c = false -> rstrip (x ++ [c]) = x ++ [c].
Proof.
  intros Hc. unfold rstrip. rewrite rev_app_distr. simpl. rewrite Hc.
  simpl. now rewrite rev_involutive.
Qed.

Lemma rstrip_hd s : hd_space s = false -> hd_space (rstrip s) = false.
Proof.
  intros H. destruct (rstrip_split s) as [post Hs].
  destruct (rstrip s) as [|c z]; [reflexivity|].
  rewrite Hs in H. exact H.
Qed.

Lemma strip_hd s : hd_space (strip s) = false.
Proof. apply rstrip_hd, lstrip_hd. Qed.

Lemma existsb_rpar_app u v :
  existsb is_rpar (u ++ v) = existsb is_rpar u || existsb is_rpar v.
Proof. apply existsb_app. Qed.

Lemma has_pair_app_r u v : has_pair (u ++ v) = false -> has_pair v = false.
Proof.
  induction u as [|c u IH]; [trivial|].
  simpl. intros [_ H]%orb_false_elim. now apply IH.
Qed.

Lemma has_pair_app_l u v : has_pair (u ++ v) = false -> has_pair u = false.
Proof.
  induction u as [|c u IH]; [trivial|].
  simpl. intros [H1 H2]%orb_false_elim. rewrite (IH H2), orb_false_r.
  destruct (is_lpar c); [|reflexivity]. simpl in *.
  rewrite existsb_rpar_app in H1. now apply orb_false_elim in H1 as [-> _].
Qed.

Lemma strip_pair s : has_pair s = false -> has_pair (strip s) = false.
Proof.
  intros H. unfold strip.
  destruct (lstrip_split s) as [pre Hs]. rewrite Hs in H.
  apply has_pair_app_r in H.
  destruct (rstrip_split (lstrip s)) as [post Hr]. rewrite Hr in H.
  now apply has_pair_app_l in H.
Qed.

Lemma lower_rpar s : existsb is_rpar (lower s) = existsb is_rpar s.
Proof.
  induction s as [|c s IH]; [reflexivity|].
  simpl. now rewrite lower_char_rpar, IH.
Qed.

Lemma lower_pair s : has_pair (lower s) = has_pair s.
Proof.
  induction s as [|c s IH]; [reflexivity|].
  simpl. fold (lower s). now rewrite lower_char_lpar, lower_rpar, IH.
Qed.

Lemma lower_idem s : lower (lower s) = lower s.
Proof.
  unfold lower. rewrite map_map. apply map_ext. apply lower_char_idem.
Qed.

Lemma lower_lstrip s : lower (lstrip s) = lstrip (lower s).
Proof.
  induction s as [|c s IH]; [reflexivity|].
  simpl. rewrite lower_char_space. now destruct (py_isspace c).
Qed.

Lemma lower_strip s : lower (strip s) = strip (lower s).
Proof.
  unfold strip, rstrip, lower.
  rewrite map_rev. fold (lower (lstrip (rev (lstrip s)))).
  rewrite lower_lstrip. unfold lower. rewrite map_rev.
  fold (lower (lstrip s)). now rewrite lower_lstrip.
Qed.

Lemma lower_squeeze f s : lower (squeeze f s) = squeeze f (lower s).
Proof.
  revert f. induction s as [|c s IH]; intros f; [reflexivity|].
  simpl. rewrite lower_char_space.
  destruct (py_isspace c); [destruct f|]; simpl; now rewrite <- IH.
Qed.

(** ** The normalizer *)

Lemma normalize_unfold t :
  normalize t = squeeze false (strip (lower (re_sub pat_paren [SP] t))).
Proof. unfold normalize. apply collapse_squeeze. Qed.

Lemma normalize_lower t : lower (normalize t) = normalize t.
Proof.
  rewrite normalize_unfold, lower_squeeze, lower_strip. now rewrite lower_idem.
Qed.

Lemma normalize_strip t : strip (normalize t) = normalize t.
Proof.
  rewrite normalize_unfold.
  set (y := strip (lower (re_sub pat_paren [SP] t))).
  assert (Hh : hd_space (squeeze false y) = false)
    by apply squeeze_false_hd, strip_hd.
  unfold strip at 1. rewrite (lstrip_id _ Hh).
  destruct (rstrip_shape
              (lstrip (lower (re_sub pat_paren [SP] t)))) as [H|(x & c & H & Hc)];
    fold (strip (lower (re_sub pat_paren [SP] t))) in H; fold y in H;
    rewrite H.
  - reflexivity.
  - rewrite (squeeze_snoc _ _ _ Hc). now apply rstrip_snoc.
Qed.

Lemma normalize_squeeze t : squeeze false (normalize t) = normalize t.
Proof.
  rewrite normalize_unfold. apply squeeze_id.
  - apply squeeze_plain.
  - apply squeeze_no_dbl.
  - discriminate.
Qed.

Lemma normalize_no_pair t :
  single_line t = true -> has_pair (normalize t) = false.
Proof.
  intros Hl. rewrite normalize_unfold, squeeze_pair. apply strip_pair.
  rewrite lower_pair. now apply paren_pass_no_pair.
Qed.

Lemma has_pair_intro u v w : has_pair (u ++ LPAR :: v ++ RPAR :: w) = true.
Proof.
  induction u as [|c u IH]; simpl.
  - rewrite existsb_app. simpl. rewrite orb_true_r. reflexivity.
  - rewrite IH. apply orb_true_r.
Qed.

Lemma dbl_space_intro u a b w :
  py_isspace a = true -> py_isspace b = true ->
  dbl_space (u ++ a :: b :: w) = true.
Proof.
  intros Ha Hb. induction u as [|c u IH]; simpl.
  - now rewrite Ha, Hb.
  - rewrite IH. apply orb_true_r.
Qed.

(** The whitespace of a normalized text is never doubled, whatever the
    input. *)
Lemma normalize_no_doubled_space t : ~ doubled_space (normalize t).
Proof.
  intros (u & a & b & w & H & Ha & Hb).
  pose proof (squeeze_no_dbl false
                (strip (lower (re_sub pat_paren [SP] t)))) as Hd.
  rewrite <- normalize_unfold, H in Hd.
  now rewrite (dbl_space_intro u a b w Ha Hb) in Hd.
Qed.

(** C7, as amended: for every text [t] without a line feed,
    [normalize(normalize(t)) == normalize(t)]. *)
Theorem normalize_idempotent_single_line (t : str) :
  single_line t = true -> normalize (normalize t) = normalize t.
Proof.
  intros Hl.
  rewrite (normalize_unfold (normalize t)).
  unfold re_sub. rewrite (paren_pass_id _ (normalize_no_pair t Hl)).
  now rewrite normalize_lower, normalize_strip, normalize_squeeze.
Qed.

Lemma normalize_idempotent_single_line_witness :
  single_line (lit "Tokyo (Acoustic)") = true
  /\ normalize (normalize (lit "Tokyo (Acoustic)"))
     = normalize (lit "Tokyo (Acoustic)").
Proof.
  split; [reflexivity|].
  apply (normalize_idempotent_single_line (lit "Tokyo (Acoustic)")).
  reflexivity.
Defined.

(** C7 fails as stated: on ["(a\n)"] the first pass leaves ["(a )"], which
    the second pass empties. *)
Lemma normalize_not_idempotent :
  normalize two_line_suffix = lit "(a )"
  /\ normalize (normalize two_line_suffix) = []
  /\ normalize (normalize two_line_suffix) <> normalize two_line_suffix.
Proof. vm_compute. repeat split. discriminate. Qed.

(** C8, as amended: for every text [t] without a line feed,
    [normalize(t)] holds no substring delimited by [(] and [)] and no two
    consecutive whitespace characters, and removing parentheticals from it
    once more changes nothing. *)
Theorem normalize_clean_single_line (t : str) :
  single_line t = true ->
  ~ parenthesized (normalize t)
  /\ ~ doubled_space (normalize t)
  /\ re_sub pat_paren [SP] (normalize t) = normalize t.
Proof.
  intros Hl. pose proof (normalize_no_pair t Hl) as Hp. split; [|split].
  - intros (u & v & w & H). rewrite H in Hp.
    now rewrite has_pair_intro in Hp.
  - apply normalize_no_doubled_space.
  - now apply paren_pass_id.
Qed.

Lemma normalize_clean_single_line_witness :
  single_line (lit "a ((b) c)  (d") = true
  /\ ~ parenthesized (normalize (lit "a ((b) c)  (d"))
  /\ ~ doubled_space (normalize (lit "a ((b) c)  (d"))
  /\ re_sub pat_paren [SP] (normalize (lit "a ((b) c)  (d"))
     = normalize (lit "a ((b) c)  (d").
Proof.
  split; [reflexivity|].
  apply (normalize_clean_single_line (lit "a ((b) c)  (d")).
  reflexivity.
Defined.

(** C8 fails as stated: the normal form of ["(a\n)"] is ["(a )"]. *)
Lemma normalize_keeps_parenthesized :
  single_line two_line_suffix = false
  /\ normalize two_line_suffix = LPAR :: lit "a " ++ RPAR :: []
  /\ parenthesized (normalize two_line_suffix).
Proof.
  split; [reflexivity|]. split; [reflexivity|].
  exists [], (lit "a "), []. reflexivity.
Qed.

(** ** The validator *)

Lemma None_valid : NoneStr ∈ VALID_CONFIDENCE.
Proof. unfold VALID_CONFIDENCE. set_solver. Qed.

Lemma Review_valid : Review ∈ VALID_CONFIDENCE.
Proof. unfold VALID_CONFIDENCE. set_solver. Qed.

Lemma Exact_valid : Exact ∈ VALID_CONFIDENCE.
Proof. unfold VALID_CONFIDENCE. set_solver. Qed.

Lemma validate_match_spec (E : extern) (m : pydict) (ids : gset str) :
  let cid :=
    strip (py_str E (default (JStr NoneStr) (dict_get m (lit "catalog_id")))) in
  let conf :=
    strip (py_str E (default (JStr NoneStr) (dict_get m (lit "confidence")))) in
  let r := validate_match E m ids in
  r = (if bool_decide (cid <> NoneStr /\ cid ∉ ids)
       then {| mc_catalog_id := NoneStr; mc_confidence := NoneStr |}
       else {| mc_catalog_id := cid;
               mc_confidence :=
                 if bool_decide (conf ∈ VALID_CONFIDENCE)
                 then conf else Review |})
  /\ (mc_catalog_id r = NoneStr \/ mc_catalog_id r ∈ ids)
  /\ mc_confidence r ∈ VALID_CONFIDENCE.
Proof.
  intros cid conf r. subst r. unfold validate_match. fold cid. fold conf.
  unfold str_eqb.
  destruct (bool_decide (cid = NoneStr)) eqn:Hn;
    [apply bool_decide_eq_true in Hn | apply bool_decide_eq_false in Hn];
    destruct (bool_decide (cid ∈ ids)) eqn:Hi;
    try apply bool_decide_eq_true in Hi;
    try apply bool_decide_eq_false in Hi; simpl.
  all: try (rewrite (bool_decide_eq_false_2 (cid <> NoneStr /\ cid ∉ ids))
             by tauto).
  all: try (rewrite (bool_decide_eq_true_2 (cid <> NoneStr /\ cid ∉ ids))
             by tauto).
  all: try (rewrite (bool_decide_eq_true_2 _ None_valid); simpl;
            split; [reflexivity|]; split; [now left|apply None_valid]).
  all: destruct (bool_decide (conf ∈ VALID_CONFIDENCE)) eqn:Hc;
    [apply bool_decide_eq_true in Hc|]; simpl;
    (split; [reflexivity|]); (split; [tauto|]);
    first [exact Hc | apply Review_valid].
Qed.

(** C5: [validate_match] is total; an id that is neither ["None"] nor
    known forces both fields to ["None"]; otherwise the id is kept and a
    confidence outside the four levels becomes ["Review"]; the result is
    always a well-formed candidate. *)
Theorem validate_match_rules (E : extern) (m : pydict) (ids : gset str) :
  let cid :=
    strip (py_str E (default (JStr NoneStr) (dict_get m (lit "catalog_id")))) in
  let conf :=
    strip (py_str E (default (JStr NoneStr) (dict_get m (lit "confidence")))) in
  let r := validate_match E m ids in
  r = (if bool_decide (cid <> NoneStr /\ cid ∉ ids)
       then {| mc_catalog_id := NoneStr; mc_confidence := NoneStr |}
       else {| mc_catalog_id := cid;
               mc_confidence :=
                 if bool_decide (conf ∈ VALID_CONFIDENCE)
                 then conf else Review |})
  /\ (mc_catalog_id r = NoneStr \/ mc_catalog_id r ∈ ids)
  /\ mc_confidence r ∈ VALID_CONFIDENCE.
Proof. exact (validate_match_spec E m ids). Qed.

(** The cases of [TestValidateMatch]. *)
Example validate_unknown_id (E : extern) :
  validate_match E [(lit "catalog_id", JStr (lit "CAT-999"));
                    (lit "confidence", JStr High)] {[ lit "CAT-001" ]}
  = {| mc_catalog_id := NoneStr; mc_confidence := NoneStr |}.
Proof. vm_compute. reflexivity. Qed.

Example validate_unknown_confidence (E : extern) :
  validate_match E [(lit "catalog_id", JStr (lit "CAT-001"));
                    (lit "confidence", JStr (lit "Maybe"))] {[ lit "CAT-001" ]}
  = {| mc_catalog_id := lit "CAT-001"; mc_confidence := Review |}.
Proof. vm_compute. reflexivity. Qed.

Example validate_missing_fields (E : extern) :
  validate_match E [] {[ lit "CAT-001" ]}
  = {| mc_catalog_id := NoneStr; mc_confidence := NoneStr |}.
Proof. vm_compute. reflexivity. Qed.

Example validate_strips (E : extern) :
  validate_match E [(lit "catalog_id", JStr (lit " CAT-001 "));
                    (lit "confidence", JStr (lit " High "))] {[ lit "CAT-001" ]}
  = {| mc_catalog_id := lit "CAT-001"; mc_confidence := High |}.
Proof. vm_compute. reflexivity. Qed.

(** ** Backoff *)

Local Open Scope Q_scope.

(** Up to attempt 1023 the sum is formed and the delay is its minimum
    with the cap. *)
Lemma backoff_delay_ok (n : nat) (j : Q) :
  (n < 1024)%nat -> backoff_delay n j = inr (delay_value n j).
Proof.
  intros H. unfold backoff_delay.
  destruct (Nat.leb_spec 1024 n) as [H1|H1]; [lia|reflexivity].
Qed.

(** From attempt 1024 on, the integer power has no float and the sum
    raises. *)
Lemma backoff_delay_overflow (n : nat) (j : Q) :
  (1024 <= n)%nat -> backoff_delay n j = inl OverflowError.
Proof.
  intros H. unfold backoff_delay.
  destruct (Nat.leb_spec 1024 n) as [H1|H1]; [reflexivity|lia].
Qed.


Local Close Scope Q_scope.

(** [_backoff_sleep] below attempt 1024: one draw, one sleep. *)
Lemma backoff_sleep_ok (E : extern) (n : nat) (w : World) :
  n < 1024 ->
  _backoff_sleep E n w
  = (inr tt, log (EvSleep (delay_value n (random_uniform E (draws w))))
               (count_draw w)).
Proof.
  intros H. unfold _backoff_sleep. now rewrite backoff_delay_ok.
Qed.

(** [_backoff_sleep] from attempt 1024 on: the draw is made, the
    exception leaves before any sleep. *)
Lemma backoff_sleep_overflow (E : extern) (n : nat) (w : World) :
  1024 <= n -> _backoff_sleep E n w = (inl OverflowError, count_draw w).
Proof.
  intros H. unfold _backoff_sleep. now rewrite backoff_delay_overflow.
Qed.

Lemma backoff_sleep_calls (E : extern) n w :
  api_calls (_backoff_sleep E n w).2 = api_calls w.
Proof.
  unfold _backoff_sleep. now destruct (backoff_delay n _).
Qed.

Lemma backoff_sleep_cache (E : extern) n w :
  _match_cache (_backoff_sleep E n w).2 = _match_cache w.
Proof.
  unfold _backoff_sleep. now destruct (backoff_delay n _).
Qed.

Lemma backoff_sleep_draws (E : extern) n w :
  draws (_backoff_sleep E n w).2 = S (draws w).
Proof.
  unfold _backoff_sleep. now destruct (backoff_delay n _).
Qed.

Lemma backoff_sleep_key (E : extern) n w :
  OPENAI_API_KEY (_backoff_sleep E n w).2 = OPENAI_API_KEY w.
Proof.
  unfold _backoff_sleep. now destruct (backoff_delay n _).
Qed.

Lemma backoff_sleep_error (E : extern) n w e :
  (_backoff_sleep E n w).1 = inl e -> e = OverflowError /\ 1024 <= n.
Proof.
  destruct (Nat.lt_ge_cases n 1024) as [H|H].
  - now rewrite backoff_sleep_ok.
  - rewrite backoff_sleep_overflow by exact H. simpl. intros [= <-]. now split.
Qed.

Lemma retry_pause_calls (E : extern) mr n w :
  api_calls (retry_pause E mr n w).2 = api_calls w.
Proof.
  unfold retry_pause. destruct (_ <? _)%Z; [apply backoff_sleep_calls|easy].
Qed.

Lemma retry_pause_cache (E : extern) mr n w :
  _match_cache (retry_pause E mr n w).2 = _match_cache w.
Proof.
  unfold retry_pause. destruct (_ <? _)%Z; [apply backoff_sleep_cache|easy].
Qed.

Lemma retry_pause_key (E : extern) mr n w :
  OPENAI_API_KEY (retry_pause E mr n w).2 = OPENAI_API_KEY w.
Proof.
  unfold retry_pause. destruct (_ <? _)%Z; [apply backoff_sleep_key|easy].
Qed.

(** With at most 1024 retries no pause is asked for an attempt that
    overflows. *)
Lemma retry_pause_ok (E : extern) mr n w :
  (mr <= 1024)%Z -> (retry_pause E mr n w).1 = inr tt.
Proof.
  intros H. unfold retry_pause.
  destruct (Z.ltb_spec (Z.of_nat n) mr) as [H1|H1]; [|reflexivity].
  rewrite backoff_sleep_ok by lia. reflexivity.
Qed.

Lemma retry_pause_error (E : extern) mr n w e :
  (retry_pause E mr n w).1 = inl e ->
  e = OverflowError /\ 1024 <= n /\ (Z.of_nat n < mr)%Z.
Proof.
  unfold retry_pause.
  destruct (Z.ltb_spec (Z.of_nat n) mr) as [H1|H1]; [|discriminate].
  intros H. destruct (backoff_sleep_error _ _ _ _ H). now repeat split.
Qed.

(** Splits on the outcome of the pause that follows a failed attempt,
    keeping what the pause leaves unchanged. *)
Ltac pause_cases :=
  match goal with
  | |- context [retry_pause ?E0 ?mr0 ?a0 ?w0] =>
      let Hc := fresh "Hpc" in
      let Hk := fresh "Hpk" in
      let Hp := fresh "Hp" in
      let e := fresh "e" in
      let w' := fresh "w" in
      pose proof (retry_pause_calls E0 mr0 a0 w0) as Hc;
      pose proof (retry_pause_cache E0 mr0 a0 w0) as Hk;
      destruct (retry_pause E0 mr0 a0 w0) as [[e|[]] w'] eqn:Hp;
      cbn [fst snd] in Hc, Hk
  end.

(** ** The retry loop and the cache *)

Section Matcher.

Variable E : extern.
Variables (client : Client) (track_name : str) (catalog : list CatalogEntry).
Variables (catalog_ids : gset str) (key : str) (max_retries : Z).

Local Abbreviation run := (attempt_loop E client track_name catalog catalog_ids key
                              max_retries).

(** Each attempt is one call, and the loop makes no more attempts than
    it was given. *)
Lemma attempt_loop_calls attempts w :
  api_calls w <= api_calls (run attempts w).2
  /\ api_calls (run attempts w).2 <= api_calls w + length attempts.
Proof.
  revert w. induction attempts as [|a rest IH]; intros w; simpl; [lia|].
  destruct (try_body E catalog_ids (client (api_calls w) track_name catalog)).
  - simpl. lia.
  - pause_cases.
    + simpl in *. lia.
    + specialize (IH w0). simpl in *. lia.
Qed.

(** When the loop returns a sequence, it has stored it under the key;
    when it runs to its end, or is left by an exception, the cache is as
    it was. *)
Lemma attempt_loop_cache attempts w :
  match (run attempts w).1 with
  | inr (Some validated) =>
      _match_cache (run attempts w).2 = <[key := validated]> (_match_cache w)
  | _ => _match_cache (run attempts w).2 = _match_cache w
  end.
Proof.
  revert w. induction attempts as [|a rest IH]; intros w; simpl; [reflexivity|].
  destruct (try_body E catalog_ids (client (api_calls w) track_name catalog)).
  - reflexivity.
  - pause_cases.
    + exact Hpk.
    + specialize (IH w0). rewrite Hpk in IH. exact IH.
Qed.

(** What a successful attempt returns went through the validator. *)
Lemma attempt_loop_validated attempts w validated :
  (run attempts w).1 = inr (Some validated) ->
  exists i, try_body E catalog_ids (client i track_name catalog)
            = Some validated.
Proof.
  revert w. induction attempts as [|a rest IH]; intros w; simpl; [discriminate|].
  destruct (try_body E catalog_ids (client (api_calls w) track_name catalog))
    eqn:Hb.
  - simpl. intros [= <-]. now exists (api_calls w).
  - pause_cases; [discriminate|]. apply IH.
Qed.

(** The only exception that leaves the loop is the overflow of the
    backoff, and it needs more than 1024 retries. *)
Lemma attempt_loop_error attempts w e :
  (run attempts w).1 = inl e ->
  e = OverflowError /\ (1024 < max_retries)%Z.
Proof.
  revert w. induction attempts as [|a rest IH]; intros w; simpl; [discriminate|].
  destruct (try_body E catalog_ids (client (api_calls w) track_name catalog)).
  - discriminate.
  - pause_cases.
    + simpl. intros [= <-].
      destruct (retry_pause_error E max_retries a _ _ (f_equal fst Hp))
        as (-> & H1 & H2).
      split; [reflexivity|lia].
    + apply IH.
Qed.

(** With at most 1024 retries the loop ends without an exception. *)
Lemma attempt_loop_returns attempts w :
  (max_retries <= 1024)%Z -> exists o, (run attempts w).1 = inr o.
Proof.
  intros H. destruct (run attempts w).1 as [e|o] eqn:Hr; [|now exists o].
  apply attempt_loop_error in Hr. lia.
Qed.

(** When every attempt fails and no pause overflows, the loop makes
    them all and returns nothing. *)
Lemma attempt_loop_exhausted attempts w :
  (max_retries <= 1024)%Z ->
  (forall i, i < length attempts ->
     try_body E catalog_ids (client (api_calls w + i) track_name catalog) = None) ->
  (run attempts w).1 = inr None
  /\ api_calls (run attempts w).2 = api_calls w + length attempts.
Proof.
  intros Hm. revert w. induction attempts as [|a rest IH]; intros w Hf; simpl.
  - split; [reflexivity|lia].
  - pose proof (Hf 0 ltac:(simpl; lia)) as H0.
    rewrite Nat.add_0_r in H0. rewrite H0.
    pose proof (retry_pause_ok E max_retries a
                  (log (EvCreate track_name) (count_call w)) Hm) as Hok.
    pause_cases; [discriminate|].
    destruct (IH w0) as [IH1 IH2].
    + intros i Hi. specialize (Hf (S i) ltac:(simpl; lia)).
      rewrite Hpc. simpl. now rewrite Nat.add_succ_r in Hf.
    + split; [exact IH1|]. rewrite IH2, Hpc. simpl. lia.
Qed.

End Matcher.

Lemma log_cache e w : _match_cache (log e w) = _match_cache w.
Proof. reflexivity. Qed.

Lemma log_calls e w : api_calls (log e w) = api_calls w.
Proof. reflexivity. Qed.

Lemma range_length n : length (range n) = Z.to_nat n.
Proof. unfold range. apply length_seq. Qed.

(** Splits on the outcome of the retry loop. *)
Ltac loop_cases lem H :=
  match goal with
  | |- context [attempt_loop ?a0 ?b0 ?c0 ?d0 ?e0 ?f0 ?g0 ?h0 ?w0] =>
      let e := fresh "e" in
      let v := fresh "v" in
      let w' := fresh "w" in
      pose proof (lem a0 b0 c0 d0 e0 f0 g0 h0 w0) as H;
      destruct (attempt_loop a0 b0 c0 d0 e0 f0 g0 h0 w0) as [[e|[v|]] w']
  end.

(** A cached key is answered from the cache: no call, no change but the
    entry in the trace. *)
Lemma llm_hit (E : extern) t catalog client mr w cached :
  _match_cache w !! _cache_key E t = Some cached ->
  llm_fuzzy_match E t catalog client mr w = (inr cached, log (EvLLM t) w).
Proof. intros H. unfold llm_fuzzy_match. rewrite log_cache, H. reflexivity. Qed.

(** The invocation that misses the cache is the retry loop, run after
    the rate-limit pause. *)
Lemma llm_miss_loop (E : extern) t catalog client mr w :
  _match_cache w !! _cache_key E t = None ->
  exists w1,
    api_calls w1 = api_calls w /\ _match_cache w1 = _match_cache w
    /\ llm_fuzzy_match E t catalog client mr w =
       match attempt_loop E client t catalog
               (list_to_set (map catalog_id catalog)) (_cache_key E t)
               (default MAX_RETRIES mr)
               (range (default MAX_RETRIES mr + 1)) w1 with
       | (inl e, w2) => (inl e, w2)
       | (inr (Some validated), w2) => (inr validated, w2)
       | (inr None, w2) =>
           (inr fallback, cache_store (_cache_key E t) fallback w2)
       end.
Proof.
  intros Hk. unfold llm_fuzzy_match. rewrite log_cache, Hk.
  eexists. split; [|split; [|reflexivity]];
    now destruct (Qlt_le_dec 0 (RATE_LIMIT_DELAY E)).
Qed.

(** Whatever [llm_fuzzy_match] returns is in the cache afterwards, under
    the key of the track name. *)
Lemma llm_cached (E : extern) t catalog client mr w r :
  (llm_fuzzy_match E t catalog client mr w).1 = inr r ->
  _match_cache (llm_fuzzy_match E t catalog client mr w).2 !! _cache_key E t
  = Some r.
Proof.
  destruct (_match_cache w !! _cache_key E t) eqn:Hk.
  - rewrite (llm_hit _ _ _ _ _ _ _ Hk). simpl. now intros [= <-].
  - destruct (llm_miss_loop E t catalog client mr w Hk) as (w1 & _ & _ & ->).
    loop_cases attempt_loop_cache Hc; simpl in *; intros [= <-].
    + rewrite Hc. apply lookup_insert_eq.
    + apply lookup_insert_eq.
Qed.

(** When the invocation is left by an exception, the cache is as it
    was. *)
Lemma llm_raise_cache (E : extern) t catalog client mr w e :
  (llm_fuzzy_match E t catalog client mr w).1 = inl e ->
  _match_cache (llm_fuzzy_match E t catalog client mr w).2 = _match_cache w.
Proof.
  destruct (_match_cache w !! _cache_key E t) eqn:Hk.
  - now rewrite (llm_hit _ _ _ _ _ _ _ Hk).
  - destruct (llm_miss_loop E t catalog client mr w Hk) as (w1 & _ & Hw & ->).
    loop_cases attempt_loop_cache Hc; simpl in *; try discriminate.
    intros _. now rewrite Hc.
Qed.

(** One invocation makes at most [max_retries + 1] calls. *)
Lemma llm_calls_bound (E : extern) t catalog client mr w :
  api_calls w <= api_calls (llm_fuzzy_match E t catalog client mr w).2
  /\ api_calls (llm_fuzzy_match E t catalog client mr w).2
     <= api_calls w + Z.to_nat (default MAX_RETRIES mr + 1).
Proof.
  destruct (_match_cache w !! _cache_key E t) eqn:Hk.
  - rewrite (llm_hit _ _ _ _ _ _ _ Hk). simpl. lia.
  - destruct (llm_miss_loop E t catalog client mr w Hk) as (w1 & Hw & _ & ->).
    loop_cases attempt_loop_calls Hc; simpl in *; rewrite range_length in Hc;
      lia.
Qed.

(** The only exception of an invocation is the overflow of the backoff,
    with more than 1024 retries. *)
Lemma llm_error (E : extern) t catalog client mr w e :
  (llm_fuzzy_match E t catalog client mr w).1 = inl e ->
  e = OverflowError /\ (1024 < default MAX_RETRIES mr)%Z.
Proof.
  destruct (_match_cache w !! _cache_key E t) eqn:Hk.
  - now rewrite (llm_hit _ _ _ _ _ _ _ Hk).
  - destruct (llm_miss_loop E t catalog client mr w Hk) as (w1 & _ & _ & ->).
    loop_cases attempt_loop_error Hc; simpl in *; try discriminate.
    intros [= <-]. now apply Hc.
Qed.

(** With at most 1024 retries an invocation returns. *)
Lemma llm_returns (E : extern) t catalog client mr w :
  (default MAX_RETRIES mr <= 1024)%Z ->
  exists r, (llm_fuzzy_match E t catalog client mr w).1 = inr r.
Proof.
  intros H.
  destruct (llm_fuzzy_match E t catalog client mr w).1 as [e|r] eqn:Hr;
    [|now exists r].
  apply llm_error in Hr. lia.
Qed.

(** With the retries of the configuration an invocation returns. *)
Lemma llm_default_returns (E : extern) t catalog client w :
  exists r w', llm_fuzzy_match E t catalog client None w = (inr r, w').
Proof.
  destruct (llm_returns E t catalog client None w) as [r Hr].
  - vm_compute. discriminate.
  - exists r, (llm_fuzzy_match E t catalog client None w).2.
    rewrite <- Hr. now destruct (llm_fuzzy_match E t catalog client None w).
Qed.

Lemma cache_key_normalize (E : extern) t1 t2 :
  normalize t1 = normalize t2 -> _cache_key E t1 = _cache_key E t2.
Proof. unfold _cache_key. now intros ->. Qed.

(** ** The trace of a run *)

Section Trace.

Variable P : event -> Prop.
Hypothesis P_other : forall e, is_det e = false -> P e.
Hypothesis P_det : forall name, has_slash name = false -> P (EvDeterministic name).

Lemma extends_refl w : extends P w w.
Proof. exists []. split; [now rewrite app_nil_r|constructor]. Qed.

Lemma extends_trans w1 w2 w3 :
  extends P w1 w2 -> extends P w2 w3 -> extends P w1 w3.
Proof.
  intros (n1 & H1 & F1) (n2 & H2 & F2). exists (n1 ++ n2).
  split; [now rewrite H2, H1, <- app_assoc|now apply Forall_app].
Qed.

Lemma extends_log e w : P e -> extends P w (log e w).
Proof. intros H. exists [e]. split; [reflexivity|now repeat constructor]. Qed.

Lemma extends_same w w' : trace w' = trace w -> extends P w w'.
Proof. intros H. exists []. split; [now rewrite app_nil_r|constructor]. Qed.

Variable E : extern.

Lemma backoff_sleep_extends n w : extends P w (_backoff_sleep E n w).2.
Proof.
  unfold _backoff_sleep. destruct (backoff_delay n _) as [e|d]; simpl.
  - now apply extends_same.
  - apply (extends_log (EvSleep d) (count_draw w)). now apply P_other.
Qed.

Lemma retry_pause_extends mr n w : extends P w (retry_pause E mr n w).2.
Proof.
  unfold retry_pause.
  destruct (Z.of_nat n <? mr)%Z; [apply backoff_sleep_extends|apply extends_refl].
Qed.

Lemma attempt_loop_extends client t catalog ids key mr attempts w :
  extends P w (attempt_loop E client t catalog ids key mr attempts w).2.
Proof.
  revert w. induction attempts as [|a rest IH]; intros w; simpl.
  - apply extends_refl.
  - assert (Hc : extends P w (log (EvCreate t) (count_call w))).
    { apply (extends_log (EvCreate t) (count_call w)). now apply P_other. }
    destruct (try_body E ids (client (api_calls w) t catalog)).
    + exact Hc.
    + pose proof (retry_pause_extends mr a (log (EvCreate t) (count_call w)))
        as Hp.
      destruct (retry_pause E mr a (log (EvCreate t) (count_call w)))
        as [[e|[]] w1]; simpl in Hp.
      * eapply extends_trans; eassumption.
      * eapply extends_trans; [exact Hc|].
        eapply extends_trans; [exact Hp|apply IH].
Qed.

Lemma llm_extends t catalog client mr w :
  extends P w (llm_fuzzy_match E t catalog client mr w).2.
Proof.
  unfold llm_fuzzy_match. rewrite log_cache.
  eapply extends_trans; [apply (extends_log (EvLLM t)); now apply P_other|].
  destruct (_match_cache w !! _cache_key E t); [apply extends_refl|].
  match goal with |- context [attempt_loop ?a ?b ?c ?d ?e ?f ?g ?h ?w1] =>
    pose proof (attempt_loop_extends b c d e f g h w1) as Hx;
    destruct (attempt_loop a b c d e f g h w1) as [[e1|[v|]] w2] end;
    simpl in *.
  - eapply extends_trans; [|exact Hx].
    destruct (Qlt_le_dec 0 (RATE_LIMIT_DELAY E)); [|apply extends_refl].
    apply extends_log. now apply P_other.
  - eapply extends_trans; [|exact Hx].
    destruct (Qlt_le_dec 0 (RATE_LIMIT_DELAY E)); [|apply extends_refl].
    apply extends_log. now apply P_other.
  - eapply extends_trans; [|eapply extends_trans; [exact Hx|]].
    + destruct (Qlt_le_dec 0 (RATE_LIMIT_DELAY E)); [|apply extends_refl].
      apply extends_log. now apply P_other.
    + now apply extends_same.
Qed.

Lemma send_to_llm_extends client track catalog w :
  extends P w (send_to_llm E client track catalog w).2.
Proof.
  unfold send_to_llm. destruct client as [c|]; [|apply extends_refl].
  pose proof (llm_extends (setlist_track_name track) catalog c None w) as H.
  now destruct (llm_fuzzy_match E (setlist_track_name track) catalog c None w)
    as [[e|ms] w1].
Qed.

Lemma reconcile_track_extends client track catalog w :
  extends P w (reconcile_track E client track catalog w).2.
Proof.
  unfold reconcile_track.
  destruct (has_slash (setlist_track_name track)) eqn:Hs;
    [apply send_to_llm_extends|].
  eapply extends_trans;
    [apply (extends_log (EvDeterministic (setlist_track_name track)));
     now apply P_det|].
  destruct (deterministic_match (setlist_track_name track) catalog)
    as [[[|c cid] conf]|]; try apply send_to_llm_extends.
  apply extends_refl.
Qed.

Lemma reconcile_loop_extends client tracks catalog w :
  extends P w (reconcile_loop E client tracks catalog w).2.
Proof.
  revert w. induction tracks as [|track rest IH]; intros w; simpl.
  - apply extends_refl.
  - pose proof (reconcile_track_extends client track catalog w) as H1.
    destruct (reconcile_track E client track catalog w) as [[e|rows] w1];
      [exact H1|].
    specialize (IH w1).
    destruct (reconcile_loop E client rest catalog w1) as [[e|more] w2];
      simpl in *; eapply extends_trans; eassumption.
Qed.

Lemma resolve_client_extends client w :
  extends P w (resolve_client E client w).2.
Proof.
  unfold resolve_client. destruct client; [apply extends_refl|].
  destruct (OPENAI_API_KEY w) as [[|c k]|]; try apply extends_refl.
  apply extends_log. now apply P_other.
Qed.

Lemma reconcile_extends tracks catalog client w :
  extends P w (reconcile E tracks catalog client w).2.
Proof.
  unfold reconcile.
  pose proof (resolve_client_extends client w) as H.
  destruct (resolve_client E client w) as [c w0].
  eapply extends_trans; [exact H|apply reconcile_loop_extends].
Qed.

End Trace.

(** The trace only grows. *)
Lemma attempt_loop_grows (E : extern) client t catalog ids key mr attempts w :
  exists after,
    trace (attempt_loop E client t catalog ids key mr attempts w).2
    = trace w ++ after.
Proof.
  destruct (attempt_loop_extends (fun _ => True)) with (E := E)
    (client := client) (t := t) (catalog := catalog) (ids := ids) (key := key)
    (mr := mr) (attempts := attempts) (w := w) as (new & Hn & _);
    [easy|now exists new].
Qed.

(** ** The pauses of the retry loop *)

(** After [k] failed attempts, each followed by a pause, the loop stands
    at attempt [a + k] with [k] calls and [k] draws made and the events of
    those attempts on the trace. *)
Lemma attempt_loop_prefix (E : extern) client t catalog ids key mr :
  forall k a len w,
    k <= len ->
    (forall i, i < k ->
       try_body E ids (client (api_calls w + i) t catalog) = None) ->
    (Z.of_nat (a + k) <= mr)%Z ->
    a + k <= 1024 ->
    exists w',
      attempt_loop E client t catalog ids key mr (seq a len) w
      = attempt_loop E client t catalog ids key mr (seq (a + k) (len - k)) w'
      /\ trace w' = trace w ++ retry_events E t a (draws w) k
      /\ api_calls w' = api_calls w + k
      /\ draws w' = draws w + k
      /\ _match_cache w' = _match_cache w.
Proof.
  induction k as [|k IH]; intros a len w Hl Hf Hm Ha.
  - exists w. rewrite Nat.add_0_r, Nat.sub_0_r. simpl.
    rewrite app_nil_r. repeat split; lia.
  - destruct len as [|len]; [lia|].
    pose proof (Hf 0 ltac:(lia)) as H0. rewrite Nat.add_0_r in H0.
    cbn [seq attempt_loop]. rewrite H0.
    unfold retry_pause.
    destruct (Z.ltb_spec (Z.of_nat a) mr) as [H1|H1]; [|lia].
    rewrite backoff_sleep_ok by lia.
    set (w1 := log _ (count_draw (log (EvCreate t) (count_call w)))).
    destruct (IH (S a) len w1) as (w' & Hr & Ht & Hc & Hd & Hk).
    + lia.
    + intros i Hi. specialize (Hf (S i) ltac:(lia)).
      replace (api_calls w1 + i) with (api_calls w + S i)
        by (subst w1; simpl; lia).
      exact Hf.
    + lia.
    + lia.
    + exists w'. replace (a + S k) with (S a + k) by lia.
      replace (S len - S k) with (len - k) by lia.
      split; [exact Hr|]. split; [|split; [|split]].
      * rewrite Ht. subst w1. simpl. rewrite <- !app_assoc. reflexivity.
      * rewrite Hc. subst w1. simpl. lia.
      * rewrite Hd. subst w1. simpl. lia.
      * rewrite Hk. reflexivity.
Qed.

Local Open Scope Q_scope.




Local Close Scope Q_scope.
(** ** The LLM matcher *)




(** The same for every client and every retry count above 1024: when
    the attempts 0 to 1024 fail, the invocation raises [OverflowError]
    after 1025 calls and 1025 draws, and the cache is as it was. *)
Lemma llm_overflow (E : extern) (t : str) (catalog : list CatalogEntry)
    (client : Client) (mr : option Z) (w : World) :
  _match_cache w !! _cache_key E t = None ->
  (1024 < default MAX_RETRIES mr)%Z ->
  (forall i, i <= 1024 ->
     try_body E (list_to_set (map catalog_id catalog))
       (client (api_calls w + i) t catalog) = None) ->
  (llm_fuzzy_match E t catalog client mr w).1 = inl OverflowError
  /\ _match_cache (llm_fuzzy_match E t catalog client mr w).2 = _match_cache w
  /\ api_calls (llm_fuzzy_match E t catalog client mr w).2 = api_calls w + 1025
  /\ draws (llm_fuzzy_match E t catalog client mr w).2 = draws w + 1025.
Proof.
  intros Hk Hm Hf.
  unfold llm_fuzzy_match. rewrite log_cache, Hk.
  set (w0 := if Qlt_le_dec 0 (RATE_LIMIT_DELAY E)
             then log (EvSleep (RATE_LIMIT_DELAY E)) (log (EvLLM t) w)
             else log (EvLLM t) w).
  assert (H0 : _match_cache w0 = _match_cache w
               /\ api_calls w0 = api_calls w /\ draws w0 = draws w).
  { subst w0. now destruct (Qlt_le_dec 0 (RATE_LIMIT_DELAY E)). }
  destruct H0 as (Hk0 & Hc0 & Hd0).
  set (mx := default MAX_RETRIES mr) in *.
  unfold range.
  destruct (attempt_loop_prefix E client t catalog
              (list_to_set (map catalog_id catalog)) (_cache_key E t) mx
              1024 0 (Z.to_nat (mx + 1)) w0)
    as (w1 & Hr & _ & Hc1 & Hd1 & Hk1).
  { lia. }
  { intros i Hi. rewrite Hc0. apply Hf. lia. }
  { lia. }
  { lia. }
  rewrite Hr. change (0 + 1024) with 1024.
  destruct (Z.to_nat (mx + 1) - 1024) as [|len] eqn:Hlen; [lia|].
  cbn [seq attempt_loop].
  pose proof (Hf 1024 (Nat.le_refl _)) as Hfn.
  rewrite <- Hc0, <- Hc1 in Hfn. rewrite Hfn.
  unfold retry_pause.
  destruct (Z.ltb_spec (Z.of_nat 1024) mx) as [H1|H1]; [|lia].
  rewrite backoff_sleep_overflow by lia. cbn [fst snd].
  split; [reflexivity|]. split; [simpl; congruence|].
  split; simpl; lia.
Qed.

(** C3, as amended: within one run, an invocation on [t1] returns
    when at most 1024 retries are asked for; after an invocation on [t1]
    that returned, an invocation on any [t2] with
    [normalize(t2) == normalize(t1)] makes no external call and returns the
    very sequence the first one returned, the exhausted-retries fallback
    included; the first invocation makes at most [max_retries + 1] calls, so
    that is the total of the two. *)
Theorem llm_second_call_cached (E : extern) (t1 t2 : str)
    (catalog1 catalog2 : list CatalogEntry) (client1 client2 : Client)
    (mr1 mr2 : option Z) (w : World) :
  normalize t1 = normalize t2 ->
  let first := llm_fuzzy_match E t1 catalog1 client1 mr1 w in
  let second := llm_fuzzy_match E t2 catalog2 client2 mr2 first.2 in
  ((default MAX_RETRIES mr1 <= 1024)%Z -> exists r, first.1 = inr r)
  /\ (forall r, first.1 = inr r ->
       second.1 = inr r
       /\ second.1 = first.1
       /\ api_calls second.2 = api_calls first.2
       /\ _match_cache second.2 = _match_cache first.2
       /\ api_calls second.2
          <= api_calls w + Z.to_nat (default MAX_RETRIES mr1 + 1))
  /\ api_calls first.2 <= api_calls w + Z.to_nat (default MAX_RETRIES mr1 + 1).
Proof.
  intros Hn first second. split; [apply llm_returns|]. split.
  - intros r Hr.
    pose proof (llm_cached E t1 catalog1 client1 mr1 w r Hr) as Hc.
    fold first in Hc. rewrite (cache_key_normalize E _ _ Hn) in Hc.
    subst second. rewrite (llm_hit E _ _ _ _ _ _ Hc). simpl.
    split; [reflexivity|]. split; [now rewrite Hr|].
    split; [reflexivity|]. split; [reflexivity|].
    apply llm_calls_bound.
  - apply llm_calls_bound.
Qed.

Lemma llm_second_call_cached_witness :
  normalize (lit "Tokyo (Live)") = normalize (lit "Tokyo (Acoustic)")
  /\ let first := llm_fuzzy_match env0 (lit "Tokyo (Live)") tour_catalog
                                  client_ok None fresh in
     let second := llm_fuzzy_match env0 (lit "Tokyo (Acoustic)") tour_catalog
                                   client_ok None first.2 in
     ((default MAX_RETRIES None <= 1024)%Z -> exists r, first.1 = inr r)
     /\ (forall r, first.1 = inr r ->
          second.1 = inr r
          /\ second.1 = first.1
          /\ api_calls second.2 = api_calls first.2
          /\ _match_cache second.2 = _match_cache first.2
          /\ api_calls second.2
             <= api_calls fresh + Z.to_nat (default MAX_RETRIES None + 1))
     /\ api_calls first.2
        <= api_calls fresh + Z.to_nat (default MAX_RETRIES None + 1).
Proof.
  assert (H : normalize (lit "Tokyo (Live)")
              = normalize (lit "Tokyo (Acoustic)")) by reflexivity.
  split; [exact H|].
  exact (llm_second_call_cached env0 (lit "Tokyo (Live)")
           (lit "Tokyo (Acoustic)") tour_catalog tour_catalog
           client_ok client_ok None None fresh H).
Defined.

(** C3 fails as stated: a retry is an external call.  With one retry
    allowed and a first reply that is not JSON, two invocations on the same
    name make two calls; with the service down and the default three
    retries, they make four. *)
Lemma llm_retries_are_calls :
  (let first := llm_fuzzy_match env0 (lit "Neon Dreams") tour_catalog
                                client_flaky (Some 1%Z) fresh in
   let second := llm_fuzzy_match env0 (lit "Neon Dreams") tour_catalog
                                 client_flaky (Some 1%Z) first.2 in
   api_calls second.2 = 2 /\ ~ api_calls second.2 - api_calls fresh <= 1)
  /\ (let first := llm_fuzzy_match env0 (lit "Neon Dreams") tour_catalog
                                   client_down None fresh in
      let second := llm_fuzzy_match env0 (lit "Neon Dreams") tour_catalog
                                    client_down None first.2 in
      first.1 = inr fallback /\ second.1 = inr fallback
      /\ api_calls second.2 = 4
      /\ ~ api_calls second.2 - api_calls fresh <= 1).
Proof.
  split.
  - assert (H : api_calls
      (llm_fuzzy_match env0 (lit "Neon Dreams") tour_catalog client_flaky
         (Some 1%Z)
         (llm_fuzzy_match env0 (lit "Neon Dreams") tour_catalog client_flaky
            (Some 1%Z) fresh).2).2 = 2) by (vm_compute; reflexivity).
    cbv zeta. rewrite H. split; [reflexivity|]. simpl. lia.
  - assert (H : api_calls
      (llm_fuzzy_match env0 (lit "Neon Dreams") tour_catalog client_down
         None
         (llm_fuzzy_match env0 (lit "Neon Dreams") tour_catalog client_down
            None fresh).2).2 = 4) by (vm_compute; reflexivity).
    cbv zeta. rewrite H. repeat split; try (vm_compute; reflexivity).
    simpl. lia.
Qed.

(** C10: the cache key depends on the normalized track name alone.
    After [llm_fuzzy_match(t, C1, client)] has returned, an invocation on
    any [t2] with [normalize(t2) == normalize(t)] and any catalog [C2]
    returns what the first one returned, without a call and without looking
    at [C2]; when the first one was not itself served from the cache, that
    sequence is the fallback or a reply validated against the ids of [C1].
    Such a sequence can carry an id that [C2] lacks: CAT-002, validated
    against the tour catalog, is returned for a catalog that holds CAT-007
    only. *)
Theorem cache_key_ignores_catalog (E : extern) (t t2 : str)
    (C1 C2 : list CatalogEntry) (client client2 : Client)
    (mr mr2 : option Z) (w : World) (r1 : list MatchCandidate) :
  normalize t2 = normalize t ->
  let first := llm_fuzzy_match E t C1 client mr w in
  first.1 = inr r1 ->
  _cache_key E t2 = _cache_key E t
  /\ llm_fuzzy_match E t2 C2 client2 mr2 first.2
     = (first.1, log (EvLLM t2) first.2)
  /\ llm_fuzzy_match E t2 C2 client2 mr2 first.2
     = (inr r1, log (EvLLM t2) first.2)
  /\ (_match_cache w !! _cache_key E t = None ->
      r1 = fallback
      \/ exists i, try_body E (list_to_set (map catalog_id C1))
                     (client i t C1) = Some r1)
  /\ exists rs m,
       (llm_fuzzy_match env0 (lit "Tokyo (Acoustic)") other_catalog
          client_down None
          (llm_fuzzy_match env0 (lit "Tokyo (Live)") tour_catalog
             client_ok None fresh).2).1 = inr rs
       /\ In m rs
       /\ mc_catalog_id m = lit "CAT-002"
       /\ ~ In (mc_catalog_id m) (map catalog_id other_catalog).
Proof.
  intros Hn first Hr.
  pose proof (cache_key_normalize E _ _ Hn) as Hk.
  assert (Hh : llm_fuzzy_match E t2 C2 client2 mr2 first.2
               = (inr r1, log (EvLLM t2) first.2)).
  { apply llm_hit. rewrite Hk. now apply llm_cached. }
  split; [exact Hk|]. split; [now rewrite Hr|]. split; [exact Hh|]. split.
  - intros Hm. subst first. revert Hr.
    destruct (llm_miss_loop E t C1 client mr w Hm) as (w1 & _ & _ & ->).
    match goal with |- context [attempt_loop ?a ?b ?c ?d ?e ?f ?g ?h ?w1] =>
      pose proof (attempt_loop_validated a b c d e f g h w1) as Hv;
      destruct (attempt_loop a b c d e f g h w1) as [[e1|[v|]] w2] end;
      simpl in *; intros [= <-].
    + right. now apply Hv.
    + now left.
  - exists [{| mc_catalog_id := lit "CAT-002"; mc_confidence := High |}],
           {| mc_catalog_id := lit "CAT-002"; mc_confidence := High |}.
    split; [vm_compute; reflexivity|]. split; [now left|].
    split; [reflexivity|].
    vm_compute. intros [H|[]]. discriminate.
Qed.

Lemma cache_key_ignores_catalog_witness :
  normalize (lit "Tokyo (Acoustic)") = normalize (lit "Tokyo (Live)")
  /\ (llm_fuzzy_match env0 (lit "Tokyo (Live)") tour_catalog client_ok
        None fresh).1
     = inr [{| mc_catalog_id := lit "CAT-002"; mc_confidence := High |}]
  /\ llm_fuzzy_match env0 (lit "Tokyo (Acoustic)") other_catalog client_down
       None (llm_fuzzy_match env0 (lit "Tokyo (Live)") tour_catalog client_ok
               None fresh).2
     = ((llm_fuzzy_match env0 (lit "Tokyo (Live)") tour_catalog client_ok
           None fresh).1,
        log (EvLLM (lit "Tokyo (Acoustic)"))
          (llm_fuzzy_match env0 (lit "Tokyo (Live)") tour_catalog client_ok
             None fresh).2).
Proof.
  assert (H : normalize (lit "Tokyo (Acoustic)")
              = normalize (lit "Tokyo (Live)")) by reflexivity.
  assert (H1 : (llm_fuzzy_match env0 (lit "Tokyo (Live)") tour_catalog
                  client_ok None fresh).1
     = inr [{| mc_catalog_id := lit "CAT-002"; mc_confidence := High |}])
    by (vm_compute; reflexivity).
  split; [exact H|]. split; [exact H1|].
  exact (proj1 (proj2 (cache_key_ignores_catalog env0 (lit "Tokyo (Live)")
           (lit "Tokyo (Acoustic)") tour_catalog other_catalog
           client_ok client_down None None fresh _ H H1))).
Defined.

(** ** The orchestrator *)

Lemma medley_routing (E : extern) client track catalog w :
  has_slash (setlist_track_name track) = true ->
  reconcile_track E client track catalog w
  = send_to_llm E client track catalog w.
Proof. intros H. unfold reconcile_track. now rewrite H. Qed.

(** [reconcile] asks for the retries of the configuration, three of
    them, so none of its steps raises. *)
Lemma send_to_llm_returns (E : extern) client track catalog w :
  exists rows w', send_to_llm E client track catalog w = (inr rows, w').
Proof.
  unfold send_to_llm. destruct client as [c|]; [|now eexists _, _].
  destruct (llm_default_returns E (setlist_track_name track) catalog c w)
    as (r & w' & ->).
  now eexists _, _.
Qed.

Lemma reconcile_track_returns (E : extern) client track catalog w :
  exists rows w', reconcile_track E client track catalog w = (inr rows, w').
Proof.
  unfold reconcile_track.
  destruct (has_slash (setlist_track_name track));
    [apply send_to_llm_returns|].
  destruct (deterministic_match (setlist_track_name track) catalog)
    as [[[|c cid] conf]|]; try apply send_to_llm_returns.
  now eexists _, _.
Qed.

(** The loop carries an invariant of the process from turn to turn and
    gathers the rows of the turns in order. *)
Lemma reconcile_loop_inv (E : extern) client catalog
    (I : World -> Prop) (R : Track -> list ResultRow -> Prop) :
  (forall track w, I w ->
     exists rows w', reconcile_track E client track catalog w = (inr rows, w')
                     /\ I w' /\ R track rows) ->
  forall tracks w, I w ->
    exists blocks w',
      reconcile_loop E client tracks catalog w = (inr (concat blocks), w')
      /\ I w' /\ Forall2 R tracks blocks.
Proof.
  intros Hstep. induction tracks as [|track rest IH]; intros w Hi.
  - exists [], w. repeat split; [exact Hi|constructor].
  - destruct (Hstep track w Hi) as (rows & w1 & H1 & Hi1 & Hr).
    destruct (IH w1 Hi1) as (blocks & w2 & H2 & Hi2 & Hb).
    exists (rows :: blocks), w2. cbn [reconcile_loop]. rewrite H1, H2.
    repeat split; [exact Hi2|now constructor].
Qed.

Lemma reconcile_loop_returns (E : extern) client tracks catalog w :
  exists rows w', reconcile_loop E client tracks catalog w = (inr rows, w').
Proof.
  assert (Hs : forall track w0, True ->
            exists rows w', reconcile_track E client track catalog w0
                            = (inr rows, w') /\ True /\ True).
  { intros track w0 _.
    destruct (reconcile_track_returns E client track catalog w0)
      as (rows & w1 & ->).
    now eexists _, _. }
  destruct (reconcile_loop_inv E client catalog (fun _ => True)
              (fun _ _ => True) Hs tracks w Logic.I) as (blocks & w' & H & _).
  exists (concat blocks), w'. exact H.
Qed.

Lemma reconcile_returns (E : extern) tracks catalog client w :
  exists rows w', reconcile E tracks catalog client w = (inr rows, w').
Proof.
  unfold reconcile. destruct (resolve_client E client w) as [c w0].
  apply reconcile_loop_returns.
Qed.

(** The loop over a list in two parts is the loop over the first part
    followed by the loop over the second. *)
Lemma reconcile_loop_app (E : extern) client pre post catalog w r1 w1 r2 w2 :
  reconcile_loop E client pre catalog w = (inr r1, w1) ->
  reconcile_loop E client post catalog w1 = (inr r2, w2) ->
  reconcile_loop E client (pre ++ post) catalog w = (inr (r1 ++ r2), w2).
Proof.
  revert w r1. induction pre as [|track rest IH]; intros w r1 H1 H2.
  - simpl in *. injection H1 as <- <-. exact H2.
  - cbn [reconcile_loop app] in *.
    destruct (reconcile_track E client track catalog w) as [[e|rows] w0];
      [discriminate|].
    destruct (reconcile_loop E client rest catalog w0) as [[e|more] w3] eqn:Hl;
      [discriminate|].
    injection H1 as <- <-.
    rewrite (IH w0 more Hl H2). now rewrite <- app_assoc.
Qed.

(** An invocation puts itself on the trace first. *)
Lemma llm_trace_head (E : extern) t catalog client mr w :
  exists rest,
    trace (llm_fuzzy_match E t catalog client mr w).2
    = trace w ++ EvLLM t :: rest.
Proof.
  unfold llm_fuzzy_match. rewrite log_cache.
  destruct (_match_cache w !! _cache_key E t); [now exists []|].
  match goal with |- context [attempt_loop ?a ?b ?c ?d ?e ?f ?g ?h ?w1] =>
    destruct (attempt_loop_grows a b c d e f g h w1) as [after Ha];
    destruct (attempt_loop a b c d e f g h w1) as [[e1|[v|]] w2] end;
    simpl in Ha |- *; rewrite Ha;
    destruct (Qlt_le_dec 0 (RATE_LIMIT_DELAY E)); simpl;
    rewrite <- ?app_assoc; simpl; eexists; reflexivity.
Qed.

Lemma rows_of_candidates track matches catalog :
  Forall2 (row_of_candidate track) matches (rows_of track matches catalog).
Proof.
  unfold rows_of. induction matches as [|m ms IH]; simpl; constructor;
    [|exact IH].
  now repeat split.
Qed.

(** C6: a track whose name contains [/] is never given to the
    deterministic matcher, whatever the catalog holds.  In a run of
    [reconcile] over tracks among which it stands, the rows returned are
    those of the tracks before it, then its own, then those of the tracks
    after it.  Without a client its own rows are the single row with id
    ["None"], no title and confidence ["None"], and its turn changes
    nothing; with a client its turn is one invocation of the LLM matcher on
    its name, on record in the trace, and its rows are the candidates that
    invocation returned, one row each with the id and the confidence of the
    candidate.  Nowhere in the run is the deterministic matcher invoked on
    that name. *)
Theorem medley_bypasses_deterministic (E : extern) (pre post : list Track)
    (catalog : list CatalogEntry) (client : option Client) (w : World)
    (track : Track) :
  has_slash (setlist_track_name track) = true ->
  let name := setlist_track_name track in
  let c := (resolve_client E client w).1 in
  let w0 := (resolve_client E client w).2 in
  exists rows_before w1 block w2 rows_after w3,
    reconcile_loop E c pre catalog w0 = (inr rows_before, w1)
    /\ reconcile_loop E c post catalog w2 = (inr rows_after, w3)
    /\ reconcile E (pre ++ track :: post) catalog client w
       = (inr (rows_before ++ block ++ rows_after), w3)
    /\ match c with
       | None => block = [blank_row track] /\ w2 = w1
       | Some cl =>
           exists matches rest,
             llm_fuzzy_match E name catalog cl None w1 = (inr matches, w2)
             /\ block = rows_of track matches catalog
             /\ Forall2 (row_of_candidate track) matches block
             /\ trace w2 = trace w1 ++ EvLLM name :: rest
       end
    /\ exists new,
         trace w3 = trace w ++ new
         /\ ~ In (EvDeterministic name) new.
Proof.
  intros Hs name c w0.
  destruct (reconcile_loop_returns E c pre catalog w0) as (rb & w1 & Hb).
  assert (Hturn : exists block w2,
    reconcile_track E c track catalog w1 = (inr block, w2)
    /\ match c with
       | None => block = [blank_row track] /\ w2 = w1
       | Some cl =>
           exists matches rest,
             llm_fuzzy_match E name catalog cl None w1 = (inr matches, w2)
             /\ block = rows_of track matches catalog
             /\ Forall2 (row_of_candidate track) matches block
             /\ trace w2 = trace w1 ++ EvLLM name :: rest
       end).
  { rewrite medley_routing by exact Hs. unfold send_to_llm.
    destruct c as [cl|].
    - destruct (llm_default_returns E name catalog cl w1) as (ms & w2 & Hl).
      destruct (llm_trace_head E name catalog cl None w1) as [rest Hr].
      fold name. rewrite Hl in Hr |- *. simpl in Hr.
      exists (rows_of track ms catalog), w2. split; [reflexivity|].
      exists ms, rest. split; [reflexivity|]. split; [reflexivity|].
      split; [apply rows_of_candidates|exact Hr].
    - exists [blank_row track], w1. now repeat split. }
  destruct Hturn as (block & w2 & Ht & Hblock).
  destruct (reconcile_loop_returns E c post catalog w2) as (ra & w3 & Ha).
  assert (Hrun : reconcile E (pre ++ track :: post) catalog client w
                 = (inr (rb ++ block ++ ra), w3)).
  { unfold reconcile. subst c w0.
    destruct (resolve_client E client w) as [c w0]. cbn [fst snd] in *.
    apply (reconcile_loop_app E c pre (track :: post) catalog w0 rb w1);
      [exact Hb|].
    cbn [reconcile_loop]. now rewrite Ht, Ha. }
  exists rb, w1, block, w2, ra, w3.
  split; [exact Hb|]. split; [exact Ha|]. split; [exact Hrun|].
  split; [exact Hblock|].
  destruct (reconcile_extends det_on_plain) with (E := E)
    (tracks := pre ++ track :: post) (catalog := catalog) (client := client)
    (w := w) as (new & Hn & Hf).
  - intros e He n ->. discriminate.
  - intros n Hp n' [= <-]. exact Hp.
  - rewrite Hrun in Hn. exists new. split; [exact Hn|]. intros Hin.
    pose proof (proj1 (List.Forall_forall _ _) Hf _ Hin _ eq_refl).
    fold name in Hs. congruence.
Qed.

Lemma medley_bypasses_deterministic_witness :
  let track := played "Desert Rain / Ocean Avenue" in
  has_slash (setlist_track_name track) = true
  /\ deterministic_match (setlist_track_name track) medley_catalog
     = Some (lit "CAT-004", Exact)
  /\ (reconcile env0 [track] medley_catalog None fresh).1
     = inr [blank_row track]
  /\ exists rows_before w1 block w2 rows_after w3,
       reconcile_loop env0 (resolve_client env0 None fresh).1 []
                      medley_catalog (resolve_client env0 None fresh).2
       = (inr rows_before, w1)
       /\ reconcile_loop env0 (resolve_client env0 None fresh).1 []
                         medley_catalog w2
          = (inr rows_after, w3)
       /\ reconcile env0 ([] ++ track :: []) medley_catalog None fresh
          = (inr (rows_before ++ block ++ rows_after), w3)
       /\ match (resolve_client env0 None fresh).1 with
          | None => block = [blank_row track] /\ w2 = w1
          | Some cl =>
              exists matches rest,
                llm_fuzzy_match env0 (setlist_track_name track)
                                medley_catalog cl None w1 = (inr matches, w2)
                /\ block = rows_of track matches medley_catalog
                /\ Forall2 (row_of_candidate track) matches block
                /\ trace w2 = trace w1 ++ EvLLM (setlist_track_name track) :: rest
          end
       /\ exists new,
            trace w3 = trace fresh ++ new
            /\ ~ In (EvDeterministic (setlist_track_name track)) new.
Proof.
  intros track.
  assert (H2 : has_slash (setlist_track_name track) = true) by reflexivity.
  split; [exact H2|].
  split; [vm_compute; reflexivity|]. split; [vm_compute; reflexivity|].
  exact (medley_bypasses_deterministic env0 [] [] medley_catalog None fresh
           track H2).
Defined.

(** With a client, the medley whose name is a title of the catalog goes
    to the LLM matcher all the same. *)
Example medley_sent_to_llm :
  let track := played "Desert Rain / Ocean Avenue" in
  let out := reconcile env0 [track] medley_catalog (Some client_down) fresh in
  out.1 = inr [blank_row track]
  /\ api_calls out.2 = 4
  /\ In (EvLLM (setlist_track_name track)) (trace out.2)
  /\ ~ In (EvDeterministic (setlist_track_name track)) (trace out.2).
Proof.
  vm_compute. split; [reflexivity|]. split; [reflexivity|]. split; [tauto|].
  intros H. repeat (destruct H as [H|H]; [discriminate|]). exact H.
Qed.

Lemma reconcile_track_offline (E : extern) track catalog w :
  (reconcile_track E None track catalog w).1 = inr [offline_row catalog track]
  /\ api_calls (reconcile_track E None track catalog w).2 = api_calls w
  /\ _match_cache (reconcile_track E None track catalog w).2 = _match_cache w
  /\ extends (fun e => is_det e = true) w
       (reconcile_track E None track catalog w).2.
Proof.
  unfold reconcile_track, offline_row, send_to_llm, none_row.
  destruct (has_slash (setlist_track_name track)).
  - repeat split. exists []. split; [now rewrite app_nil_r|constructor].
  - assert (Hx : extends (fun e => is_det e = true) w
                   (log (EvDeterministic (setlist_track_name track)) w)).
    { exists [EvDeterministic (setlist_track_name track)].
      split; [reflexivity|now repeat constructor]. }
    destruct (deterministic_match (setlist_track_name track) catalog)
      as [[[|c cid] conf]|]; repeat split; exact Hx.
Qed.

Lemma reconcile_loop_offline (E : extern) tracks catalog w :
  (reconcile_loop E None tracks catalog w).1
  = inr (map (offline_row catalog) tracks)
  /\ api_calls (reconcile_loop E None tracks catalog w).2 = api_calls w
  /\ _match_cache (reconcile_loop E None tracks catalog w).2 = _match_cache w
  /\ extends (fun e => is_det e = true) w
       (reconcile_loop E None tracks catalog w).2.
Proof.
  revert w. induction tracks as [|track rest IH]; intros w; simpl.
  - repeat split. exists []. split; [now rewrite app_nil_r|constructor].
  - destruct (reconcile_track_offline E track catalog w) as (H1 & H2 & H3 & H4).
    destruct (reconcile_track E None track catalog w) as [[e|rows] w1];
      [discriminate|].
    destruct (IH w1) as (I1 & I2 & I3 & I4).
    destruct (reconcile_loop E None rest catalog w1) as [[e|more] w2];
      [discriminate|].
    simpl in *. injection H1 as ->. injection I1 as ->.
    repeat split; try congruence.
    destruct H4 as (n1 & E1 & F1), I4 as (n2 & E2 & F2).
    exists (n1 ++ n2). split; [now rewrite E2, E1, <- app_assoc|].
    now apply Forall_app.
Qed.

(** When [reconcile] is given no client and [OPENAI_API_KEY] is unset
    or empty, no client is built and none is called: the run makes no
    external call, leaves the cache alone, and does nothing but consult the
    deterministic matcher; it returns one row per track, in order, and the
    row of every medley track and of every track the deterministic matcher
    misses is ["None"/"None"]. *)
Lemma reconcile_without_client (E : extern) (tracks : list Track)
    (catalog : list CatalogEntry) (w : World) :
  OPENAI_API_KEY w = None \/ OPENAI_API_KEY w = Some [] ->
  let out := reconcile E tracks catalog None w in
  out.1 = inr (map (offline_row catalog) tracks)
  /\ (forall track,
       has_slash (setlist_track_name track) = true
       \/ deterministic_miss (setlist_track_name track) catalog ->
       offline_row catalog track = blank_row track
       /\ matched_catalog_id (offline_row catalog track) = NoneStr
       /\ match_confidence (offline_row catalog track) = NoneStr)
  /\ api_calls out.2 = api_calls w
  /\ _match_cache out.2 = _match_cache w
  /\ exists new, trace out.2 = trace w ++ new
                 /\ Forall (fun e => is_det e = true) new.
Proof.
  intros Hk out.
  assert (Hr : resolve_client E None w = (None, w)).
  { unfold resolve_client. now destruct Hk as [-> | ->]. }
  subst out. unfold reconcile. rewrite Hr.
  destruct (reconcile_loop_offline E tracks catalog w) as (H1 & H2 & H3 & H4).
  split; [exact H1|]. split; [|now repeat split].
  intros track Hm.
  assert (Ho : offline_row catalog track = blank_row track).
  { unfold offline_row, none_row, deterministic_miss in *.
    destruct (has_slash (setlist_track_name track)); [reflexivity|].
    destruct Hm as [Hm|Hm]; [discriminate|].
    now destruct (deterministic_match (setlist_track_name track) catalog)
      as [[[|c cid] conf]|]. }
  rewrite Ho. now repeat split.
Qed.

(** When [reconcile] is given no client and [OPENAI_API_KEY] is set
    and not empty, the run is the run with the client [OpenAI(api_key)]
    built from the variable. *)
Lemma reconcile_with_key (E : extern) (tracks : list Track)
    (catalog : list CatalogEntry) (w : World) (c : ascii) (k : str) :
  OPENAI_API_KEY w = Some (c :: k) ->
  reconcile E tracks catalog None w
  = reconcile E tracks catalog (Some (OpenAI E (c :: k)))
              (log (EvOpenAI (c :: k)) w).
Proof. intros H. unfold reconcile, resolve_client. now rewrite H. Qed.

(** C1 does not hold of the code, which departs here from the
    docstring of [reconcile], by which [client=None] disables LLM
    matching.  Called
    without a client in a process where [OPENAI_API_KEY] is set,
    [reconcile] builds a client from the key and sends the medley to it:
    one call is made and the row carries CAT-002 with confidence [High],
    where the same call in a process without the variable gives the one
    ["None"/"None"] row and makes no call. *)
Theorem reconcile_builds_client :
  let track := played "Desert Rain / Ocean Avenue" in
  let out := reconcile env0 [track] tour_catalog None with_key in
  let off := reconcile env0 [track] tour_catalog None fresh in
  OPENAI_API_KEY with_key = Some (lit "sk-test")
  /\ has_slash (setlist_track_name track) = true
  /\ In (EvOpenAI (lit "sk-test")) (trace out.2)
  /\ In (EvCreate (lit "Desert Rain / Ocean Avenue")) (trace out.2)
  /\ api_calls out.2 = 1
  /\ (exists r, out.1 = inr [r]
        /\ matched_catalog_id r = lit "CAT-002"
        /\ match_confidence r = High)
  /\ out.1 <> inr [blank_row track]
  /\ off.1 = inr [blank_row track]
  /\ api_calls off.2 = 0.
Proof.
  vm_compute.
  split; [reflexivity|]. split; [reflexivity|]. split; [tauto|].
  split; [tauto|]. split; [reflexivity|].
  split; [eexists; split; [reflexivity|split; reflexivity]|].
  split; [discriminate|]. split; reflexivity.
Qed.

(** ** Rows fit the catalog *)

Lemma known_confidence_valid c : c ∈ VALID_CONFIDENCE -> known_confidence c.
Proof.
  unfold VALID_CONFIDENCE, known_confidence.
  rewrite !elem_of_union, !elem_of_singleton. tauto.
Qed.

Lemma known_id_set catalog cid :
  cid = NoneStr \/ cid ∈ (list_to_set (map catalog_id catalog) : gset str) ->
  known_id catalog cid.
Proof.
  intros [H|H]; [now left|]. right.
  apply elem_of_list_to_set in H. now apply list_elem_of_In.
Qed.

Lemma fallback_valid catalog : Forall (valid_candidate catalog) fallback.
Proof.
  constructor; [|constructor]. split; simpl; [now left|].
  now right; right; right.
Qed.

Lemma validate_entry_valid (E : extern) catalog j m :
  validate_entry E (list_to_set (map catalog_id catalog)) j = Some m ->
  valid_candidate catalog m.
Proof.
  destruct j; try discriminate. simpl. intros [= <-].
  destruct (validate_match_spec E items
              (list_to_set (map catalog_id catalog))) as (_ & Hi & Hc).
  split; [now apply known_id_set|now apply known_confidence_valid].
Qed.

Lemma try_body_valid (E : extern) catalog r v :
  try_body E (list_to_set (map catalog_id catalog)) r = Some v ->
  Forall (valid_candidate catalog) v.
Proof.
  destruct r as [| |parsed]; try discriminate. simpl.
  intros H%mapM_Some. induction H as [|j m js ms Hj _ IH]; constructor.
  - now apply (validate_entry_valid E catalog j).
  - exact IH.
Qed.

Lemma cache_valid_insert catalog c k v :
  cache_valid catalog c -> Forall (valid_candidate catalog) v ->
  cache_valid catalog (<[k := v]> c).
Proof.
  intros Hc Hv k' v' H. destruct (decide (k = k')) as [->|Hne].
  - rewrite lookup_insert_eq in H. now injection H as <-.
  - rewrite lookup_insert_ne in H by exact Hne. now apply (Hc k').
Qed.

(** With a cache that fits the catalog, the matcher returns candidates
    that fit it and leaves such a cache. *)
Lemma llm_valid (E : extern) t catalog client mr w :
  cache_valid catalog (_match_cache w) ->
  (forall r, (llm_fuzzy_match E t catalog client mr w).1 = inr r ->
     Forall (valid_candidate catalog) r)
  /\ cache_valid catalog (_match_cache (llm_fuzzy_match E t catalog client mr w).2).
Proof.
  intros Hc.
  destruct (_match_cache w !! _cache_key E t) as [cached|] eqn:Hk.
  - rewrite (llm_hit E _ _ _ _ _ _ Hk). simpl.
    split; [|exact Hc]. intros r [= <-]. now apply (Hc _ _ Hk).
  - destruct (llm_miss_loop E t catalog client mr w Hk) as (w1 & _ & Hm & ->).
    match goal with |- context [attempt_loop ?a ?b ?c ?d ?e ?f ?g ?h ?w1] =>
      pose proof (attempt_loop_validated a b c d e f g h w1) as Hv;
      pose proof (attempt_loop_cache a b c d e f g h w1) as Hs;
      destruct (attempt_loop a b c d e f g h w1) as [[e1|[v|]] w2] end;
      simpl in *.
    + split; [discriminate|]. now rewrite Hs, Hm.
    + destruct (Hv v eq_refl) as [i Hi]. apply try_body_valid in Hi.
      split; [now intros r [= <-]|]. rewrite Hs, Hm.
      now apply cache_valid_insert.
    + split; [intros r [= <-]; apply fallback_valid|]. rewrite Hs, Hm.
      apply cache_valid_insert; [exact Hc|apply fallback_valid].
Qed.

Lemma deterministic_match_in name catalog cid conf :
  deterministic_match name catalog = Some (cid, conf) ->
  In cid (map catalog_id catalog) /\ conf = Exact.
Proof.
  induction catalog as [|song rest IH]; simpl; [discriminate|].
  destruct (str_eqb (strip (lower name)) (strip (lower (title song)))).
  { intros [= <- <-]. split; [now left|reflexivity]. }
  destruct (str_eqb (normalize name) (normalize (title song))).
  { intros [= <- <-]. split; [now left|reflexivity]. }
  intros H. destruct (IH H) as [Hi Hc]. split; [now right|exact Hc].
Qed.

Lemma none_row_valid track catalog :
  valid_row catalog (_result_row track NoneStr NoneStr catalog).
Proof. split; simpl; [now left|]. now right; right; right. Qed.

Lemma rows_of_valid track matches catalog :
  Forall (valid_candidate catalog) matches ->
  Forall (valid_row catalog) (rows_of track matches catalog).
Proof.
  intros H. unfold rows_of. induction H as [|m ms [Hi Hc] _ IH]; simpl;
    constructor; [|exact IH]. split; assumption.
Qed.

Lemma send_to_llm_valid (E : extern) client track catalog w :
  cache_valid catalog (_match_cache w) ->
  exists rows w',
    send_to_llm E client track catalog w = (inr rows, w')
    /\ cache_valid catalog (_match_cache w')
    /\ Forall (valid_row catalog) rows.
Proof.
  intros Hc. unfold send_to_llm. destruct client as [c|].
  - destruct (llm_valid E (setlist_track_name track) catalog c None w Hc)
      as [Hv Hc'].
    destruct (llm_default_returns E (setlist_track_name track) catalog c w)
      as (ms & w' & Hl).
    rewrite Hl in *. simpl in *. eexists _, _. split; [reflexivity|].
    split; [exact Hc'|]. now apply rows_of_valid, Hv.
  - eexists _, _. split; [reflexivity|]. split; [exact Hc|].
    constructor; [|constructor]. apply none_row_valid.
Qed.

Lemma reconcile_track_valid (E : extern) client track catalog w :
  cache_valid catalog (_match_cache w) ->
  exists rows w',
    reconcile_track E client track catalog w = (inr rows, w')
    /\ cache_valid catalog (_match_cache w')
    /\ Forall (valid_row catalog) rows.
Proof.
  intros Hc. unfold reconcile_track.
  destruct (has_slash (setlist_track_name track));
    [now apply send_to_llm_valid|].
  destruct (deterministic_match (setlist_track_name track) catalog)
    as [[[|c cid] conf]|] eqn:Hd;
    try (apply send_to_llm_valid; exact Hc).
  eexists _, _. split; [reflexivity|]. split; [exact Hc|].
  destruct (deterministic_match_in _ _ _ _ Hd) as [Hi ->].
  constructor; [|constructor]. split; simpl; [now right|now left].
Qed.

Lemma Forall2_concat_Forall {A B : Type} (P : B -> Prop) (l : list A)
    (blocks : list (list B)) :
  Forall2 (fun _ rows => Forall P rows) l blocks -> Forall P (concat blocks).
Proof.
  induction 1 as [|a rows l blocks H _ IH]; simpl; [constructor|].
  now apply Forall_app.
Qed.

Lemma reconcile_loop_valid (E : extern) client tracks catalog w :
  cache_valid catalog (_match_cache w) ->
  exists rows w',
    reconcile_loop E client tracks catalog w = (inr rows, w')
    /\ cache_valid catalog (_match_cache w')
    /\ Forall (valid_row catalog) rows.
Proof.
  intros Hc.
  destruct (reconcile_loop_inv E client catalog
              (fun w => cache_valid catalog (_match_cache w))
              (fun _ rows => Forall (valid_row catalog) rows)
              (fun track w0 => reconcile_track_valid E client track catalog w0)
              tracks w Hc) as (blocks & w' & H & Hc' & Hb).
  exists (concat blocks), w'. split; [exact H|]. split; [exact Hc'|].
  exact (Forall2_concat_Forall _ _ _ Hb).
Qed.

Lemma resolve_client_cache (E : extern) client w :
  _match_cache (resolve_client E client w).2 = _match_cache w.
Proof.
  unfold resolve_client. destruct client; [reflexivity|].
  now destruct (OPENAI_API_KEY w) as [[|c k]|].
Qed.

(** C2, as amended: when every sequence in the cache at the time of
    the call fits the catalog (an empty cache does), [reconcile] returns,
    every row that it returns carries ["None"] or an id of that catalog, and
    one of the four confidence levels; and the cache it leaves fits the
    catalog too. *)
Theorem reconcile_rows_valid (E : extern) (tracks : list Track)
    (catalog : list CatalogEntry) (client : option Client) (w : World) :
  cache_valid catalog (_match_cache w) ->
  exists rows,
    (reconcile E tracks catalog client w).1 = inr rows
    /\ (forall r, In r rows ->
         (matched_catalog_id r = NoneStr
          \/ In (matched_catalog_id r) (map catalog_id catalog))
         /\ (match_confidence r = Exact \/ match_confidence r = High
             \/ match_confidence r = Review \/ match_confidence r = NoneStr))
    /\ cache_valid catalog
         (_match_cache (reconcile E tracks catalog client w).2).
Proof.
  intros Hc. unfold reconcile.
  pose proof (resolve_client_cache E client w) as Hr.
  destruct (resolve_client E client w) as [c w0]. simpl in Hr.
  rewrite <- Hr in Hc.
  destruct (reconcile_loop_valid E c tracks catalog w0 Hc)
    as (rows & w' & -> & H2 & H1).
  exists rows. split; [reflexivity|]. split; [|exact H2]. intros r Hin.
  exact (proj1 (List.Forall_forall _ _) H1 r Hin).
Qed.

Lemma cache_valid_empty catalog : cache_valid catalog ∅.
Proof. intros k v H. now rewrite lookup_empty in H. Qed.

Lemma reconcile_rows_valid_witness :
  let tracks := [played "Neon Dreams"; played "Tokyo (Acoustic)";
                 played "Desert Rain / Ocean Avenue"] in
  cache_valid tour_catalog (_match_cache fresh)
  /\ (exists rows,
        (reconcile env0 tracks tour_catalog (Some client_ok) fresh).1
        = inr rows
        /\ (forall r, In r rows ->
             (matched_catalog_id r = NoneStr
              \/ In (matched_catalog_id r) (map catalog_id tour_catalog))
             /\ (match_confidence r = Exact \/ match_confidence r = High
                 \/ match_confidence r = Review
                 \/ match_confidence r = NoneStr))
        /\ cache_valid tour_catalog
             (_match_cache (reconcile env0 tracks tour_catalog
                              (Some client_ok) fresh).2))
  /\ (exists rows,
        (reconcile env0 tracks tour_catalog (Some client_ok) fresh).1
        = inr rows
        /\ map matched_catalog_id rows
           = [lit "CAT-001"; lit "CAT-002"; lit "CAT-002"]).
Proof.
  intros tracks.
  assert (H : cache_valid tour_catalog (_match_cache fresh))
    by apply cache_valid_empty.
  split; [exact H|]. split.
  - exact (reconcile_rows_valid env0 tracks tour_catalog
             (Some client_ok) fresh H).
  - eexists. split; vm_compute; reflexivity.
Defined.

(** C2 fails as stated: the cache outlives a call.  A first
    reconciliation against the tour catalog caches CAT-002 for the name
    "tokyo"; a second one, in the same process, against a catalog that
    holds CAT-007 only, returns a row with CAT-002. *)
Lemma reconcile_leaks_cached_id :
  let w1 := (reconcile env0 [played "Tokyo (Live)"] tour_catalog
                       (Some client_ok) fresh).2 in
  let out := (reconcile env0 [played "Tokyo (Acoustic)"] other_catalog
                        (Some client_down) w1).1 in
  map catalog_id other_catalog = [lit "CAT-007"]
  /\ exists rows,
       out = inr rows
       /\ map matched_catalog_id rows = [lit "CAT-002"]
       /\ exists r, In r rows
            /\ matched_catalog_id r <> NoneStr
            /\ ~ In (matched_catalog_id r) (map catalog_id other_catalog).
Proof.
  intros w1 out. split; [reflexivity|].
  assert (Hr : exists rows, out = inr rows
                 /\ map matched_catalog_id rows = [lit "CAT-002"])
    by (eexists; split; vm_compute; reflexivity).
  destruct Hr as (rows & Ho & Hr). exists rows.
  split; [exact Ho|]. split; [exact Hr|].
  destruct rows as [|r [|? ?]]; try discriminate.
  injection Hr as Hr. exists r. split; [now left|]. rewrite Hr.
  split; [discriminate|]. vm_compute. intros [H|[]]. discriminate.
Qed.

(** ** The tests of the repository *)

Example normalize_tokyo : normalize (lit "Tokyo (Acoustic)") = lit "tokyo".
Proof. vm_compute. reflexivity. Qed.

Example normalize_two_suffixes :
  normalize (lit "Song (Live) (Remix)") = lit "song".
Proof. vm_compute. reflexivity. Qed.

Example normalize_collapses :
  normalize (lit "  hello   world  ") = lit "hello world".
Proof. vm_compute. reflexivity. Qed.

Example normalize_upper : normalize (lit "NEON DREAMS") = lit "neon dreams".
Proof. vm_compute. reflexivity. Qed.

Example normalize_empty : normalize [] = [].
Proof. reflexivity. Qed.

Example match_case_insensitive :
  deterministic_match (lit "neon dreams") tour_catalog
  = Some (lit "CAT-001", Exact).
Proof. vm_compute. reflexivity. Qed.

Example match_suffix_stripped :
  deterministic_match (lit "Velocity (Extended Jam)") other_catalog
  = Some (lit "CAT-007", Exact).
Proof. vm_compute. reflexivity. Qed.

Example match_abbreviation_misses :
  deterministic_match (lit "Tokyo (Acoustic)") tour_catalog = None.
Proof. vm_compute. reflexivity. Qed.

Example match_empty_catalog :
  deterministic_match (lit "Neon Dreams") [] = None.
Proof. reflexivity. Qed.

Example parse_results_key :
  _parse_llm_response
    (JDict [(lit "results", JList [JDict [(lit "catalog_id", JStr (lit "CAT-002"))]])])
  = [JDict [(lit "catalog_id", JStr (lit "CAT-002"))]].
Proof. vm_compute. reflexivity. Qed.

Example parse_single_dict :
  length (_parse_llm_response
            (JDict [(lit "catalog_id", JStr (lit "CAT-001"));
                    (lit "confidence", JStr High)])) = 1.
Proof. vm_compute. reflexivity. Qed.

Example parse_no_match_data :
  _parse_llm_response (JDict [(lit "foo", JStr (lit "bar"))]) = [].
Proof. vm_compute. reflexivity. Qed.

Example retry_on_bad_json :
  (llm_fuzzy_match env0 (lit "Neon Dreams") tour_catalog client_flaky
                   (Some 1%Z) fresh).1
  = inr [{| mc_catalog_id := lit "CAT-002"; mc_confidence := High |}].
Proof. vm_compute. reflexivity. Qed.

(** After [clear_cache()] the cache fits every catalog. *)
Lemma clear_cache_valid catalog w :
  cache_valid catalog (_match_cache (clear_cache w)).
Proof. apply cache_valid_empty. Qed.

(** * Further properties *)

Set Warnings "-clear-no-such-hyp".

(** ** The normal form *)

Lemma plain_space_dot c : plain_space c = true -> dot c = true.
Proof. each_char c. Qed.

Lemma plain_single_line s :
  forallb plain_space s = true -> single_line s = true.
Proof.
  induction s as [|c s IH]; [reflexivity|]. simpl.
  intros [Hc Hs]%andb_prop. now rewrite (plain_space_dot _ Hc), IH.
Qed.

Lemma normalize_plain t : forallb plain_space (normalize t) = true.
Proof. rewrite normalize_unfold. apply squeeze_plain. Qed.

Lemma normalize_idem_aux t :
  single_line t = true -> normalize (normalize t) = normalize t.
Proof.
  intros Hl. rewrite (normalize_unfold (normalize t)).
  unfold re_sub. rewrite (paren_pass_id _ (normalize_no_pair t Hl)).
  now rewrite normalize_lower, normalize_strip, normalize_squeeze.
Qed.

(** X1: whatever the text, its normal form is in lower case, has no
    whitespace at either end, holds no whitespace character but the plain
    space, and is on one line. *)
Theorem normalize_normal_form (t : str) :
  lower (normalize t) = normalize t
  /\ strip (normalize t) = normalize t
  /\ forallb plain_space (normalize t) = true
  /\ single_line (normalize t) = true.
Proof.
  split; [apply normalize_lower|]. split; [apply normalize_strip|].
  split; [apply normalize_plain|]. apply plain_single_line, normalize_plain.
Qed.

(** X2: a second application of [normalize] always reaches a fixed
    point: [normalize] applied three times equals [normalize] applied
    twice, for every text, line feeds included. *)
Theorem normalize_stable_after_two (t : str) :
  normalize (normalize (normalize t)) = normalize (normalize t).
Proof. apply normalize_idem_aux, plain_single_line, normalize_plain. Qed.

(** ** Case and margins do not matter to the normalizer *)

Lemma lower_char_dot c : dot (lower_char c) = dot c.
Proof. each_char c. Qed.

Lemma lower_cons c s : lower (c :: s) = lower_char c :: lower s.
Proof. reflexivity. Qed.

Lemma span_lower s : span (lower s) = span s.
Proof.
  induction s as [|c s IH]; [reflexivity|].
  rewrite lower_cons. simpl. rewrite lower_char_space, IH. reflexivity.
Qed.

Lemma k_body_lower s : k_body (lower s) = k_body s.
Proof.
  induction s as [|c s IH]; [reflexivity|].
  rewrite lower_cons, !k_body_cons.
  now rewrite lower_char_rpar, lower_char_dot, span_lower, IH.
Qed.

Lemma k_lpar_lower s : k_lpar (lower s) = k_lpar s.
Proof.
  destruct s as [|c s]; [reflexivity|]. rewrite lower_cons.
  unfold k_lpar, m_one. now rewrite lower_char_lpar, k_body_lower.
Qed.

Lemma paren_lower s : compile pat_paren (lower s) = compile pat_paren s.
Proof.
  induction s as [|c s IH]; [reflexivity|].
  pose proof (k_lpar_lower (c :: s)) as Hk.
  rewrite lower_cons in *. rewrite !paren_cons.
  now rewrite lower_char_space, IH, Hk.
Qed.

Lemma paren_pass_lower k s :
  sub_go (compile pat_paren) [SP] k (lower s)
  = lower (sub_go (compile pat_paren) [SP] k s).
Proof.
  revert k. induction s as [|c s IH]; intros k.
  - cbn [lower map sub_go]. rewrite paren_nil. now destruct k.
  - pose proof (paren_lower (c :: s)) as Hm. rewrite lower_cons in *.
    cbn [sub_go]. destruct k as [|k]; [|apply IH].
    rewrite Hm. destruct (compile pat_paren (c :: s)) as [[|n]|].
    + cbn [app]. rewrite !lower_cons. now rewrite IH.
    + cbn [app]. rewrite lower_cons. now rewrite IH.
    + rewrite lower_cons. now rewrite IH.
Qed.

Lemma normalize_of_lower x : normalize (lower x) = normalize x.
Proof.
  rewrite !normalize_unfold. unfold re_sub.
  now rewrite paren_pass_lower, lower_idem.
Qed.

(** Whitespace in front is replaced by the match it leads to, or is copied. *)
Lemma paren_space_cons c s :
  py_isspace c = true ->
  compile pat_paren (c :: s) = option_map S (compile pat_paren s).
Proof.
  intros Hc. rewrite paren_cons, Hc.
  destruct (compile pat_paren s); [reflexivity|].
  unfold k_lpar, m_one. now rewrite (space_not_lpar _ Hc).
Qed.

Lemma paren_pass_space c s :
  py_isspace c = true ->
  sub_go (compile pat_paren) [SP] 0 (c :: s)
    = sub_go (compile pat_paren) [SP] 0 s
  \/ sub_go (compile pat_paren) [SP] 0 (c :: s)
    = c :: sub_go (compile pat_paren) [SP] 0 s.
Proof.
  intros Hc. cbn [sub_go]. rewrite (paren_space_cons _ _ Hc).
  destruct (compile pat_paren s) as [n|] eqn:Hm; [left|now right].
  cbn [option_map]. destruct s as [|d s].
  { now rewrite paren_nil in Hm. }
  destruct n as [|n]; [now destruct (paren_pos (d :: s))|].
  cbn [sub_go]. now rewrite Hm.
Qed.

Lemma lstrip_paren_pass s :
  lstrip (lower (sub_go (compile pat_paren) [SP] 0 (lstrip s)))
  = lstrip (lower (sub_go (compile pat_paren) [SP] 0 s)).
Proof.
  induction s as [|c s IH]; [reflexivity|].
  cbn [lstrip]. destruct (py_isspace c) eqn:Hc; [|reflexivity].
  rewrite IH. destruct (paren_pass_space c s Hc) as [-> | ->]; [reflexivity|].
  rewrite lower_cons. cbn [lstrip]. now rewrite lower_char_space, Hc.
Qed.

(** Whitespace at the end. *)

Lemma span_le s : span s <= length s.
Proof.
  induction s as [|c s IH]; [reflexivity|]. simpl.
  destruct (py_isspace c); simpl; lia.
Qed.

Lemma span_all post : forallb py_isspace post = true -> span post = length post.
Proof.
  induction post as [|c p IH]; [reflexivity|]. simpl.
  intros [-> Hp]%andb_prop. now rewrite IH.
Qed.

Lemma span_app s post :
  forallb py_isspace post = true ->
  grown s post (span s) (span (s ++ post)).
Proof.
  intros Hp. induction s as [|c s IH].
  - right. simpl. now rewrite span_all.
  - simpl. destruct (py_isspace c); [|now left].
    destruct IH as [-> | [H1 H2]]; [now left|]. right. simpl. lia.
Qed.

Lemma k_body_space post : forallb py_isspace post = true -> k_body post = None.
Proof.
  induction post as [|c p IH]; [reflexivity|]. simpl.
  intros [Hc Hp]%andb_prop. rewrite k_body_cons, (space_not_rpar _ Hc), (IH Hp).
  now destruct (dot c).
Qed.

Lemma k_body_app s post :
  forallb py_isspace post = true ->
  match k_body s with
  | None => k_body (s ++ post) = None
  | Some n => exists n', k_body (s ++ post) = Some n' /\ grown s post n n'
  end.
Proof.
  intros Hp. induction s as [|c s IH].
  - simpl. now apply k_body_space.
  - cbn [app]. rewrite !k_body_cons. destruct (is_rpar c).
    + eexists. split; [reflexivity|].
      destruct (span_app s post Hp) as [-> | [H1 H2]]; [now left|].
      right. simpl. lia.
    + destruct (dot c); [|reflexivity].
      destruct (k_body s) as [n|].
      * destruct IH as (n' & -> & Hg). simpl. eexists. split; [reflexivity|].
        destruct Hg as [-> | [H1 H2]]; [now left|]. right. simpl. lia.
      * now rewrite IH.
Qed.

Lemma k_lpar_app c s post :
  forallb py_isspace post = true ->
  match k_lpar (c :: s) with
  | None => k_lpar (c :: s ++ post) = None
  | Some n =>
      exists n', k_lpar (c :: s ++ post) = Some n'
                 /\ grown (c :: s) post n n'
  end.
Proof.
  intros Hp. unfold k_lpar, m_one. destruct (is_lpar c); [|reflexivity].
  pose proof (k_body_app s post Hp) as H.
  destruct (k_body s) as [n|].
  - destruct H as (n' & -> & Hg). simpl. eexists. split; [reflexivity|].
    destruct Hg as [-> | [H1 H2]]; [now left|]. right. simpl. lia.
  - now rewrite H.
Qed.

Lemma paren_all_space post :
  forallb py_isspace post = true -> compile pat_paren post = None.
Proof.
  induction post as [|c p IH]; [reflexivity|]. simpl.
  intros [Hc Hp]%andb_prop. now rewrite (paren_space_cons _ _ Hc), (IH Hp).
Qed.

Lemma paren_app s post :
  forallb py_isspace post = true ->
  match compile pat_paren s with
  | None => compile pat_paren (s ++ post) = None
  | Some n =>
      exists n', compile pat_paren (s ++ post) = Some n' /\ grown s post n n'
  end.
Proof.
  intros Hp. induction s as [|c s IH].
  - rewrite paren_nil. now apply paren_all_space.
  - cbn [app]. rewrite !paren_cons.
    pose proof (k_lpar_app c s post Hp) as Hk.
    destruct (py_isspace c); [|exact Hk].
    destruct (compile pat_paren s) as [n|].
    + destruct IH as (n' & -> & Hg). eexists. split; [reflexivity|].
      destruct Hg as [-> | [H1 H2]]; [now left|]. right. simpl. lia.
    + rewrite IH. exact Hk.
Qed.

Lemma sub_go_skip_all m r s :
  m [] = None -> sub_go m r (length s) s = [].
Proof.
  intros Hm. induction s as [|c s IH]; simpl; [now rewrite Hm|exact IH].
Qed.

Lemma sub_go_skip_app m r s post :
  sub_go m r (length s + length post) (s ++ post) = sub_go m r (length post) post.
Proof. induction s as [|c s IH]; [reflexivity|exact IH]. Qed.

Lemma paren_pass_all_space k post :
  forallb py_isspace post = true ->
  forallb py_isspace (sub_go (compile pat_paren) [SP] k post) = true.
Proof.
  revert k. induction post as [|c p IH]; intros k Hp.
  - cbn [sub_go]. rewrite paren_nil. now destruct k.
  - pose proof (paren_all_space _ Hp) as Hm. simpl in Hp.
    apply andb_prop in Hp as [Hc Hp]. cbn [sub_go].
    destruct k as [|k]; [|now apply IH]. rewrite Hm. simpl.
    now rewrite Hc, IH.
Qed.

Lemma paren_pass_app k s post :
  forallb py_isspace post = true ->
  exists post',
    forallb py_isspace post' = true
    /\ sub_go (compile pat_paren) [SP] k (s ++ post)
       = sub_go (compile pat_paren) [SP] k s ++ post'.
Proof.
  intros Hp. revert k. induction s as [|c s IH]; intros k.
  - exists (sub_go (compile pat_paren) [SP] k post).
    split; [now apply paren_pass_all_space|].
    cbn [app sub_go]. rewrite paren_nil. now destruct k.
  - cbn [app sub_go]. destruct k as [|k]; [|apply IH].
    pose proof (paren_app (c :: s) post Hp) as Hm. cbn [app] in Hm.
    destruct (compile pat_paren (c :: s)) as [[|n]|] eqn:Hc.
    + now destruct (paren_pos (c :: s)).
    + destruct Hm as (n' & -> & [-> | [H1 H2]]).
      * destruct (IH n) as (post' & Hs & ->). exists post'.
        split; [exact Hs|]. reflexivity.
      * exists []. split; [reflexivity|]. simpl in H1.
        injection H1 as H1. subst n n'. cbn [Nat.add].
        rewrite sub_go_skip_app, !sub_go_skip_all by apply paren_nil.
        reflexivity.
    + rewrite Hm. destruct (IH 0) as (post' & Hs & ->). now exists post'.
Qed.

Lemma lstrip_split_space s :
  exists pre, forallb py_isspace pre = true /\ s = pre ++ lstrip s.
Proof.
  induction s as [|c s (pre & Hp & IH)]; [now exists []|].
  simpl. destruct (py_isspace c) eqn:Hc; [|now exists []].
  exists (c :: pre). simpl. rewrite Hc, Hp. split; [reflexivity|now f_equal].
Qed.

Lemma forallb_rev (p : ascii -> bool) s :
  forallb p (rev s) = forallb p s.
Proof.
  induction s as [|c s IH]; [reflexivity|]. simpl.
  rewrite forallb_app, IH. simpl. rewrite andb_true_r. apply andb_comm.
Qed.

Lemma rstrip_split_space s :
  exists post, forallb py_isspace post = true /\ s = rstrip s ++ post.
Proof.
  unfold rstrip. destruct (lstrip_split_space (rev s)) as (pre & Hp & H).
  exists (rev pre). split; [now rewrite forallb_rev|].
  rewrite <- rev_app_distr, <- H. symmetry. apply rev_involutive.
Qed.

Lemma lstrip_all_space_app ws s :
  forallb py_isspace ws = true -> lstrip (ws ++ s) = lstrip s.
Proof.
  induction ws as [|c ws IH]; [reflexivity|]. simpl.
  intros [-> H]%andb_prop. now apply IH.
Qed.

Lemma rstrip_app_space s ws :
  forallb py_isspace ws = true -> rstrip (s ++ ws) = rstrip s.
Proof.
  intros H. unfold rstrip. rewrite rev_app_distr.
  rewrite lstrip_all_space_app; [reflexivity|now rewrite forallb_rev].
Qed.

Lemma lstrip_app_space s ws :
  forallb py_isspace ws = true ->
  exists ws', forallb py_isspace ws' = true
              /\ lstrip (s ++ ws) = lstrip s ++ ws'.
Proof.
  intros H. induction s as [|c s IH].
  - exists []. split; [reflexivity|]. simpl.
    rewrite <- (app_nil_r ws) at 1. now rewrite lstrip_all_space_app.
  - simpl. destruct (py_isspace c); [exact IH|]. now exists ws.
Qed.

Lemma strip_app_space s ws :
  forallb py_isspace ws = true -> strip (s ++ ws) = strip s.
Proof.
  intros H. unfold strip.
  destruct (lstrip_app_space s ws H) as (ws' & H' & ->).
  now apply rstrip_app_space.
Qed.

Lemma lower_all_space ws :
  forallb py_isspace ws = true -> forallb py_isspace (lower ws) = true.
Proof.
  induction ws as [|c ws IH]; [reflexivity|]. simpl.
  intros [Hc H]%andb_prop. fold (lower ws).
  now rewrite lower_char_space, Hc, IH.
Qed.

Lemma strip_paren_pass z :
  strip (lower (sub_go (compile pat_paren) [SP] 0 (strip z)))
  = strip (lower (sub_go (compile pat_paren) [SP] 0 z)).
Proof.
  transitivity
    (strip (lower (sub_go (compile pat_paren) [SP] 0 (lstrip z)))).
  - unfold strip at 2.
    destruct (rstrip_split_space (lstrip z)) as (post & Hp & Hz).
    rewrite Hz at 2.
    destruct (paren_pass_app 0 (rstrip (lstrip z)) post Hp) as (post' & Hs & ->).
    unfold lower at 2. rewrite map_app. fold (lower post').
    symmetry. apply strip_app_space. now apply lower_all_space.
  - unfold strip. now rewrite lstrip_paren_pass.
Qed.

Lemma normalize_of_strip z : normalize (strip z) = normalize z.
Proof. rewrite !normalize_unfold. unfold re_sub. now rewrite strip_paren_pass. Qed.

(** X3: the normalizer does not see the case of its argument nor the
    whitespace around it: [normalize(t.lower().strip()) == normalize(t)]. *)
Theorem normalize_ignores_case_and_margins (t : str) :
  normalize (strip (lower t)) = normalize t
  /\ normalize (lower t) = normalize t
  /\ normalize (strip t) = normalize t.
Proof.
  split; [|split].
  - now rewrite normalize_of_strip, normalize_of_lower.
  - apply normalize_of_lower.
  - apply normalize_of_strip.
Qed.

(** ** The deterministic matcher *)

Lemma song_matches_norm name s : song_matches name s = norm_matches name s.
Proof.
  unfold song_matches, norm_matches, str_eqb.
  destruct (bool_decide (strip (lower name) = strip (lower (title s))))
    eqn:H; [|reflexivity].
  apply bool_decide_eq_true in H. simpl. symmetry.
  apply bool_decide_eq_true.
  transitivity (normalize (strip (lower name))).
  - now rewrite normalize_of_strip, normalize_of_lower.
  - now rewrite H, normalize_of_strip, normalize_of_lower.
Qed.

Lemma deterministic_match_find name catalog :
  deterministic_match name catalog
  = option_map (fun s => (catalog_id s, Exact))
      (List.find (norm_matches name) catalog).
Proof.
  induction catalog as [|s rest IH]; [reflexivity|].
  cbn [deterministic_match List.find]. rewrite <- song_matches_norm.
  unfold song_matches.
  destruct (str_eqb (strip (lower name)) (strip (lower (title s))));
    [reflexivity|].
  destruct (str_eqb (normalize name) (normalize (title s)));
    [reflexivity|exact IH].
Qed.

(** X4: [deterministic_match] returns the id of the first song, in
    catalog order, whose normalized title equals the normalized track
    name, always with confidence ["Exact"], and [(None, None)] exactly when
    no title normalizes to the same text; the case-insensitive comparison
    of stage 1a never decides on its own. *)
Theorem deterministic_match_first_normalized (name : str)
    (catalog : list CatalogEntry) :
  deterministic_match name catalog
  = option_map (fun s => (catalog_id s, Exact))
      (List.find (fun s => str_eqb (normalize name) (normalize (title s)))
                 catalog)
  /\ (deterministic_match name catalog = None
      <-> Forall (fun s => normalize name <> normalize (title s)) catalog).
Proof.
  split; [apply deterministic_match_find|].
  rewrite deterministic_match_find. unfold norm_matches, str_eqb.
  induction catalog as [|s rest IH]; simpl.
  - split; [constructor|reflexivity].
  - destruct (bool_decide (normalize name = normalize (title s))) eqn:H.
    + apply bool_decide_eq_true in H. split; [discriminate|].
      intros Hf. inversion Hf; subst. contradiction.
    + apply bool_decide_eq_false in H. rewrite IH. split.
      * intros Hf. now constructor.
      * intros Hf. now inversion Hf.
Qed.

(** X5: two track names with the same normal form, hence with the same
    cache key, get the same answer from the deterministic matcher. *)
Theorem deterministic_match_by_normal_form (E : extern) (n1 n2 : str)
    (catalog : list CatalogEntry) :
  normalize n1 = normalize n2 ->
  deterministic_match n1 catalog = deterministic_match n2 catalog
  /\ _cache_key E n1 = _cache_key E n2.
Proof.
  intros H. split; [|now apply cache_key_normalize].
  rewrite !deterministic_match_find. unfold norm_matches. now rewrite H.
Qed.

Lemma deterministic_match_by_normal_form_witness :
  normalize (lit "  VELOCITY (Live)") = normalize (lit "Velocity (Extended Jam)")
  /\ deterministic_match (lit "  VELOCITY (Live)") other_catalog
     = deterministic_match (lit "Velocity (Extended Jam)") other_catalog
  /\ deterministic_match (lit "  VELOCITY (Live)") other_catalog
     = Some (lit "CAT-007", Exact).
Proof.
  assert (H : normalize (lit "  VELOCITY (Live)")
              = normalize (lit "Velocity (Extended Jam)")) by reflexivity.
  split; [exact H|].
  split; [|vm_compute; reflexivity].
  exact (proj1 (deterministic_match_by_normal_form env0 _ _ other_catalog H)).
Defined.

(** ** What one reply yields *)

Lemma try_body_reply (E : extern) ids parsed :
  try_body E ids (Reply parsed)
  = mapM (validate_entry E ids) (parsed_matches parsed).
Proof.
  unfold try_body, parsed_matches. now destruct (_parse_llm_response parsed).
Qed.

Lemma validate_entry_dict (E : extern) ids j m :
  validate_entry E ids j = Some m ->
  exists d, j = JDict d /\ m = validate_match E d ids.
Proof. destruct j; try discriminate. simpl. intros [= <-]. now eexists. Qed.

(** X6: one entry that is not an object makes the whole reply count as
    a failed attempt: the valid entries beside it are dropped with it. *)
Theorem try_body_malformed_entry (E : extern) (ids : gset str)
    (parsed : json) :
  existsb (fun j => negb (is_dict j)) (parsed_matches parsed) = true ->
  try_body E ids (Reply parsed) = None.
Proof.
  intros H. rewrite try_body_reply.
  destruct (mapM (validate_entry E ids) (parsed_matches parsed)) as [v|] eqn:Hm;
    [|reflexivity].
  apply mapM_Some in Hm. exfalso.
  induction Hm as [|j m js ms Hj _ IH]; [discriminate|].
  simpl in H. apply orb_prop in H as [H|H]; [|now apply IH].
  apply validate_entry_dict in Hj as (d & -> & _). discriminate.
Qed.

Lemma try_body_malformed_entry_witness :
  existsb (fun j => negb (is_dict j)) (parsed_matches reply_with_number) = true
  /\ try_body env0 {[ lit "CAT-002" ]} (Reply reply_with_number) = None.
Proof.
  assert (H : existsb (fun j => negb (is_dict j))
                (parsed_matches reply_with_number) = true) by reflexivity.
  split; [exact H|].
  exact (try_body_malformed_entry env0 {[ lit "CAT-002" ]} reply_with_number H).
Defined.

(** X7: a reply that is accepted yields one candidate per entry, in the
    order of the entries, each the validation of its entry, and at least
    one. *)
Theorem try_body_one_per_entry (E : extern) (ids : gset str) (parsed : json)
    (v : list MatchCandidate) :
  try_body E ids (Reply parsed) = Some v ->
  length v = length (parsed_matches parsed)
  /\ v <> []
  /\ Forall2 (fun j m => exists d, j = JDict d /\ m = validate_match E d ids)
       (parsed_matches parsed) v.
Proof.
  rewrite try_body_reply. intros Hm.
  assert (Hl : length v = length (parsed_matches parsed)).
  { symmetry. exact (length_mapM _ _ _ Hm). }
  split; [exact Hl|]. split.
  - intros ->. unfold parsed_matches in Hl.
    now destruct (_parse_llm_response parsed).
  - apply mapM_Some in Hm. clear Hl.
    induction Hm as [|j m js ms Hj _ IH]; [constructor|].
    constructor; [|exact IH]. now apply (validate_entry_dict E ids).
Qed.

Lemma try_body_one_per_entry_witness :
  let v := [{| mc_catalog_id := lit "CAT-002"; mc_confidence := High |}] in
  try_body env0 {[ lit "CAT-002" ]} (Reply tokyo_reply) = Some v
  /\ length v = length (parsed_matches tokyo_reply)
  /\ v <> [].
Proof.
  intros v.
  assert (H : try_body env0 {[ lit "CAT-002" ]} (Reply tokyo_reply) = Some v)
    by (vm_compute; reflexivity).
  split; [exact H|].
  destruct (try_body_one_per_entry env0 _ tokyo_reply v H) as (H1 & H2 & _).
  split; [exact H1|exact H2].
Defined.

Lemma validate_unparseable (E : extern) ids :
  validate_entry E ids unparseable
  = Some {| mc_catalog_id := NoneStr; mc_confidence := NoneStr |}.
Proof.
  unfold unparseable, validate_entry, validate_match. simpl.
  now rewrite (bool_decide_eq_true_2 _ None_valid).
Qed.

(** X8: a reply in which no match data is found (a number, a string, an
    object with neither a list nor a [catalog_id], an empty list) is
    accepted as the single candidate ["None"/"None"], whatever the
    catalog. *)
Theorem try_body_no_match_data (E : extern) (ids : gset str) (parsed : json) :
  _parse_llm_response parsed = [] ->
  try_body E ids (Reply parsed)
  = Some [{| mc_catalog_id := NoneStr; mc_confidence := NoneStr |}].
Proof.
  intros H. rewrite try_body_reply. unfold parsed_matches. rewrite H.
  cbn [mapM]. now rewrite validate_unparseable.
Qed.

Lemma try_body_no_match_data_witness :
  _parse_llm_response (JDict [(lit "foo", JStr (lit "bar"))]) = []
  /\ try_body env0 {[ lit "CAT-002" ]}
       (Reply (JDict [(lit "foo", JStr (lit "bar"))]))
     = Some [{| mc_catalog_id := NoneStr; mc_confidence := NoneStr |}].
Proof.
  assert (H : _parse_llm_response (JDict [(lit "foo", JStr (lit "bar"))]) = [])
    by reflexivity.
  split; [exact H|].
  exact (try_body_no_match_data env0 {[ lit "CAT-002" ]} _ H).
Defined.

(** ** Attempts, pauses and calls *)

Lemma llm_miss_enter (E : extern) t catalog client mr w :
  _match_cache w !! _cache_key E t = None ->
  llm_fuzzy_match E t catalog client mr w =
  match attempt_loop E client t catalog
          (list_to_set (map catalog_id catalog)) (_cache_key E t)
          (default MAX_RETRIES mr)
          (range (default MAX_RETRIES mr + 1)) (enter E t w) with
  | (inl e, w2) => (inl e, w2)
  | (inr (Some validated), w2) => (inr validated, w2)
  | (inr None, w2) => (inr fallback, cache_store (_cache_key E t) fallback w2)
  end.
Proof.
  intros Hk. unfold llm_fuzzy_match, enter. rewrite log_cache, Hk.
  reflexivity.
Qed.

Lemma enter_calls (E : extern) t w : api_calls (enter E t w) = api_calls w.
Proof. unfold enter. now destruct (Qlt_le_dec 0 (RATE_LIMIT_DELAY E)). Qed.

Lemma enter_draws (E : extern) t w : draws (enter E t w) = draws w.
Proof. unfold enter. now destruct (Qlt_le_dec 0 (RATE_LIMIT_DELAY E)). Qed.

Lemma enter_cache (E : extern) t w :
  _match_cache (enter E t w) = _match_cache w.
Proof. unfold enter. now destruct (Qlt_le_dec 0 (RATE_LIMIT_DELAY E)). Qed.

Lemma range_succ (n : Z) :
  (0 <= n)%Z -> range (n + 1) = 0 :: seq 1 (Z.to_nat n).
Proof.
  intros H. unfold range.
  replace (Z.to_nat (n + 1)) with (S (Z.to_nat n)) by lia. reflexivity.
Qed.

Lemma pauses_seq (mr : Z) a len :
  pauses mr (seq a len) = Z.to_nat (Z.min (Z.of_nat (a + len)) mr) - a.
Proof.
  unfold pauses. revert a. induction len as [|len IH]; intros a; simpl.
  - lia.
  - destruct (Z.ltb_spec (Z.of_nat a) mr); simpl; rewrite IH; lia.
Qed.

Lemma pauses_range (mr : Z) : pauses mr (range (mr + 1)) = Z.to_nat mr.
Proof. unfold range. rewrite pauses_seq. lia. Qed.

Lemma pauses_cons (mr : Z) a rest :
  pauses mr (a :: rest)
  = (if (Z.of_nat a <? mr)%Z then 1 else 0) + pauses mr rest.
Proof. unfold pauses. simpl. now destruct (Z.of_nat a <? mr)%Z. Qed.

Lemma retry_pause_draws (E : extern) mr a w :
  draws (retry_pause E mr a w).2
  = draws w + (if (Z.of_nat a <? mr)%Z then 1 else 0).
Proof.
  unfold retry_pause. destruct (Z.of_nat a <? mr)%Z.
  - rewrite backoff_sleep_draws. lia.
  - simpl. lia.
Qed.

Lemma slept_app l1 l2 : (slept (l1 ++ l2) == slept l1 + slept l2)%Q.
Proof.
  induction l1 as [|e l1 IH]; simpl; [lra|].
  destruct e; simpl; rewrite ?IH; lra.
Qed.

Lemma delay_value_cap n j : (delay_value n j <= 30)%Q.
Proof. unfold delay_value. apply Q.le_min_r. Qed.

(** A pause sleeps at most the cap, and nothing when there is no retry
    to wait for or when the delay cannot be formed. *)
Lemma retry_pause_slept (E : extern) mr a w :
  (slept (trace (retry_pause E mr a w).2)
   <= slept (trace w)
      + 30 * inject_Z (Z.of_nat (if (Z.of_nat a <? mr)%Z then 1 else 0)))%Q.
Proof.
  unfold retry_pause. destruct (Z.of_nat a <? mr)%Z.
  - unfold _backoff_sleep, backoff_delay.
    change (inject_Z (Z.of_nat 1)) with 1%Q.
    destruct (1024 <=? a); simpl.
    + lra.
    + rewrite slept_app. simpl.
      pose proof (delay_value_cap a (random_uniform E (draws w))). lra.
  - simpl. change (inject_Z (Z.of_nat 0)) with 0%Q. lra.
Qed.

Section Pauses.

Variable E : extern.
Variables (client : Client) (t : str) (catalog : list CatalogEntry).
Variables (ids : gset str) (key : str) (mr : Z).

Local Abbreviation go := (attempt_loop E client t catalog ids key mr).

(** While every attempt fails and no pause overflows, the loop pauses
    after each attempt that has a successor. *)
Lemma attempt_loop_fail_draws attempts w :
  (mr <= 1024)%Z ->
  (forall i, i < length attempts ->
     try_body E ids (client (api_calls w + i) t catalog) = None) ->
  draws (go attempts w).2 = draws w + pauses mr attempts.
Proof.
  intros Hm. revert w. induction attempts as [|a rest IH]; intros w Hf.
  - simpl. unfold pauses. simpl. lia.
  - pose proof (Hf 0 ltac:(simpl; lia)) as H0.
    rewrite Nat.add_0_r in H0. cbn [attempt_loop]. rewrite H0.
    rewrite pauses_cons.
    pose proof (retry_pause_ok E mr a
                  (log (EvCreate t) (count_call w)) Hm) as Hok.
    pose proof (retry_pause_draws E mr a
                  (log (EvCreate t) (count_call w))) as Hd.
    pause_cases; [discriminate|]. simpl in Hd.
    rewrite IH.
    + rewrite Hd. lia.
    + intros i Hi. rewrite Hpc. simpl.
      specialize (Hf (S i) ltac:(simpl; lia)).
      now rewrite Nat.add_succ_r in Hf.
Qed.

(** Whatever the replies, the loop sleeps at most the cap for each of
    its pauses. *)
Lemma attempt_loop_slept attempts w :
  (slept (trace (go attempts w).2)
   <= slept (trace w) + 30 * inject_Z (Z.of_nat (pauses mr attempts)))%Q.
Proof.
  revert w. induction attempts as [|a rest IH]; intros w.
  - cbn [attempt_loop snd]. unfold pauses. cbn [List.filter length].
    change (inject_Z (Z.of_nat 0)) with 0%Q. lra.
  - cbn [attempt_loop].
    assert (Hc : (slept (trace (log (EvCreate t) (count_call w)))
                  == slept (trace w))%Q).
    { simpl. rewrite slept_app. simpl. lra. }
    assert (Hn : forall k : nat, (0 <= inject_Z (Z.of_nat k))%Q).
    { intros k. change 0%Q with (inject_Z 0). rewrite <- Zle_Qle. lia. }
    destruct (try_body E ids (client (api_calls w) t catalog)).
    + simpl. rewrite slept_app. simpl.
      pose proof (Hn (pauses mr (a :: rest))). lra.
    + pose proof (retry_pause_slept E mr a
                    (log (EvCreate t) (count_call w))) as Hs.
      rewrite pauses_cons, Nat2Z.inj_add, inject_Z_plus.
      pose proof (Hn (pauses mr rest)) as Hr.
      pause_cases; cbn [fst snd] in Hs |- *.
      * lra.
      * specialize (IH w0). lra.
Qed.

End Pauses.

(** X9: on a cache miss with at least one attempt allowed, a first
    reply that is accepted is returned as validated after exactly one call
    and without any backoff pause, and is stored under the key. *)
Theorem llm_first_attempt_success (E : extern) (t : str)
    (catalog : list CatalogEntry) (client : Client) (mr : option Z)
    (w : World) (v : list MatchCandidate) :
  _match_cache w !! _cache_key E t = None ->
  (0 <= default MAX_RETRIES mr)%Z ->
  try_body E (list_to_set (map catalog_id catalog))
    (client (api_calls w) t catalog) = Some v ->
  (llm_fuzzy_match E t catalog client mr w).1 = inr v
  /\ api_calls (llm_fuzzy_match E t catalog client mr w).2 = S (api_calls w)
  /\ draws (llm_fuzzy_match E t catalog client mr w).2 = draws w
  /\ _match_cache (llm_fuzzy_match E t catalog client mr w).2
     = <[_cache_key E t := v]> (_match_cache w).
Proof.
  intros Hk Hm Hv. rewrite (llm_miss_enter E _ _ _ _ _ Hk).
  rewrite (range_succ _ Hm). cbn [attempt_loop].
  rewrite enter_calls, Hv. simpl.
  now rewrite enter_calls, enter_draws, enter_cache.
Qed.

Lemma llm_first_attempt_success_witness :
  let v := [{| mc_catalog_id := lit "CAT-002"; mc_confidence := High |}] in
  _match_cache fresh !! _cache_key env0 (lit "Tokyo (Acoustic)") = None
  /\ (0 <= default MAX_RETRIES None)%Z
  /\ (llm_fuzzy_match env0 (lit "Tokyo (Acoustic)") tour_catalog client_ok
                      None fresh).1 = inr v
  /\ api_calls (llm_fuzzy_match env0 (lit "Tokyo (Acoustic)") tour_catalog
                                client_ok None fresh).2 = 1.
Proof.
  intros v.
  assert (H1 : _match_cache fresh !! _cache_key env0 (lit "Tokyo (Acoustic)")
               = None) by reflexivity.
  assert (H2 : (0 <= default MAX_RETRIES None)%Z) by (vm_compute; discriminate).
  assert (H3 : try_body env0 (list_to_set (map catalog_id tour_catalog))
                 (client_ok (api_calls fresh) (lit "Tokyo (Acoustic)")
                            tour_catalog) = Some v)
    by (vm_compute; reflexivity).
  split; [exact H1|]. split; [exact H2|].
  destruct (llm_first_attempt_success env0 _ tour_catalog client_ok None
              fresh v H1 H2 H3) as (Ha & Hb & _).
  split; [exact Ha|exact Hb].
Defined.

(** X10: when the key is not cached, at most 1024 retries are asked
    for, and every attempt fails, for whatever reason, the matcher returns
    the fallback and has paused for backoff exactly [max_retries] times:
    once after every attempt but the last. *)
Theorem llm_exhausted_pauses (E : extern) (t : str)
    (catalog : list CatalogEntry) (client : Client) (mr : option Z)
    (w : World) :
  _match_cache w !! _cache_key E t = None ->
  (default MAX_RETRIES mr <= 1024)%Z ->
  (forall i, i < Z.to_nat (default MAX_RETRIES mr + 1) ->
     try_body E (list_to_set (map catalog_id catalog))
       (client (api_calls w + i) t catalog) = None) ->
  (llm_fuzzy_match E t catalog client mr w).1 = inr fallback
  /\ draws (llm_fuzzy_match E t catalog client mr w).2
     = draws w + Z.to_nat (default MAX_RETRIES mr)
  /\ api_calls (llm_fuzzy_match E t catalog client mr w).2
     = api_calls w + Z.to_nat (default MAX_RETRIES mr + 1).
Proof.
  intros Hk Hm Hf. rewrite (llm_miss_enter E _ _ _ _ _ Hk).
  match goal with |- context [attempt_loop ?a ?b ?c ?d ?e ?f ?g ?h ?w1] =>
    pose proof (attempt_loop_exhausted a b c d e f g h w1 Hm) as Hx;
    pose proof (attempt_loop_fail_draws a b c d e f g h w1 Hm) as Hd;
    destruct (attempt_loop a b c d e f g h w1) as [[e1|[v|]] w2] end;
    rewrite range_length, enter_calls in Hx, Hd;
    rewrite ?enter_draws, ?pauses_range in Hd;
    specialize (Hx Hf); specialize (Hd Hf); simpl in *;
    destruct Hx as [Hx1 Hx2]; try discriminate.
  now repeat split.
Qed.

Lemma llm_exhausted_pauses_witness :
  _match_cache fresh !! _cache_key env0 (lit "Some Track") = None
  /\ (default MAX_RETRIES None <= 1024)%Z
  /\ (forall i, i < Z.to_nat (default MAX_RETRIES None + 1) ->
       try_body env0 (list_to_set (map catalog_id tour_catalog))
         (client_down (api_calls fresh + i) (lit "Some Track") tour_catalog)
       = None)
  /\ draws (llm_fuzzy_match env0 (lit "Some Track") tour_catalog client_down
                            None fresh).2 = 3
  /\ api_calls (llm_fuzzy_match env0 (lit "Some Track") tour_catalog
                                client_down None fresh).2 = 4.
Proof.
  assert (H1 : _match_cache fresh !! _cache_key env0 (lit "Some Track") = None)
    by reflexivity.
  assert (H0 : (default MAX_RETRIES None <= 1024)%Z)
    by (vm_compute; discriminate).
  assert (H2 : forall i, i < Z.to_nat (default MAX_RETRIES None + 1) ->
       try_body env0 (list_to_set (map catalog_id tour_catalog))
         (client_down (api_calls fresh + i) (lit "Some Track") tour_catalog)
       = None) by (intros i _; reflexivity).
  split; [exact H1|]. split; [exact H0|]. split; [exact H2|].
  destruct (llm_exhausted_pauses env0 _ tour_catalog client_down None fresh
              H1 H0 H2) as (_ & Ha & Hb).
  split; [exact Ha|exact Hb].
Defined.

(** With 1025 retries the last pause draws its jitter and raises: 1025
    draws for 1024 sleeps. *)
Example llm_exhausted_overflow :
  let out := llm_fuzzy_match env0 (lit "Some Track") tour_catalog
                             client_down (Some 1025%Z) fresh in
  out.1 = inl OverflowError
  /\ draws out.2 = 1025
  /\ length (List.filter (fun e => match e with EvSleep _ => true
                                           | _ => false end) (trace out.2))
     = 1025.
Proof. vm_compute. repeat split. Qed.

Lemma enter_slept (E : extern) t w :
  (slept (trace (enter E t w))
   <= slept (trace w) + Qmax 0 (RATE_LIMIT_DELAY E))%Q.
Proof.
  unfold enter. destruct (Qlt_le_dec 0 (RATE_LIMIT_DELAY E)); simpl.
  - rewrite !slept_app. simpl.
    pose proof (Q.le_max_r 0 (RATE_LIMIT_DELAY E)). lra.
  - rewrite slept_app. simpl.
    pose proof (Q.le_max_l 0 (RATE_LIMIT_DELAY E)). lra.
Qed.

(** X11: one invocation of the matcher never sleeps longer than the
    rate-limit delay plus thirty seconds for each retry allowed, whatever
    the client replies and whatever the random jitter. *)
Theorem llm_sleep_bound (E : extern) (t : str) (catalog : list CatalogEntry)
    (client : Client) (mr : option Z) (w : World) :
  (slept (trace (llm_fuzzy_match E t catalog client mr w).2)
   <= slept (trace w) + Qmax 0 (RATE_LIMIT_DELAY E)
      + 30 * inject_Z (Z.of_nat (Z.to_nat (default MAX_RETRIES mr))))%Q.
Proof.
  assert (Hn : (0 <= inject_Z (Z.of_nat (Z.to_nat (default MAX_RETRIES mr))))%Q).
  { change 0%Q with (inject_Z 0). rewrite <- Zle_Qle. lia. }
  pose proof (Q.le_max_l 0 (RATE_LIMIT_DELAY E)) as H0.
  destruct (_match_cache w !! _cache_key E t) as [cached|] eqn:Hk.
  - rewrite (llm_hit E _ _ _ _ _ _ Hk). simpl. rewrite slept_app. simpl. lra.
  - rewrite (llm_miss_enter E _ _ _ _ _ Hk).
    pose proof (enter_slept E t w) as He.
    match goal with |- context [attempt_loop ?a ?b ?c ?d ?e ?f ?g ?h ?w1] =>
      pose proof (attempt_loop_slept a b c d e f g h w1) as Hs;
      destruct (attempt_loop a b c d e f g h w1) as [[e1|[v|]] w2] end;
      rewrite pauses_range in Hs; simpl in *; lra.
Qed.

Lemma llm_miss_calls_aux (E : extern) t catalog client mr w :
  _match_cache w !! _cache_key E t = None ->
  (0 <= default MAX_RETRIES mr)%Z ->
  api_calls w < api_calls (llm_fuzzy_match E t catalog client mr w).2.
Proof.
  intros Hk Hm. rewrite (llm_miss_enter E _ _ _ _ _ Hk).
  rewrite (range_succ _ Hm). cbn [attempt_loop]. rewrite enter_calls.
  destruct (try_body E (list_to_set (map catalog_id catalog))
              (client (api_calls w) t catalog)).
  - simpl. rewrite enter_calls. lia.
  - pause_cases; simpl in Hpc; rewrite enter_calls in Hpc.
    + simpl. lia.
    + match goal with |- context [attempt_loop ?a ?b ?c ?d ?e ?f ?g ?h ?w1] =>
        pose proof (attempt_loop_calls a b c d e f g h w1) as [Hc _];
        destruct (attempt_loop a b c d e f g h w1) as [[e1|[v|]] w2] end;
        simpl in *; lia.
Qed.

(** X12: with a key that is not cached and a non-negative retry count,
    the matcher calls the service at least once. *)
Theorem llm_miss_calls (E : extern) (t : str) (catalog : list CatalogEntry)
    (client : Client) (mr : option Z) (w : World) :
  _match_cache w !! _cache_key E t = None ->
  (0 <= default MAX_RETRIES mr)%Z ->
  api_calls w < api_calls (llm_fuzzy_match E t catalog client mr w).2.
Proof. apply llm_miss_calls_aux. Qed.

Lemma llm_miss_calls_witness :
  _match_cache fresh !! _cache_key env0 (lit "Neon Dreams") = None
  /\ (0 <= default MAX_RETRIES (Some 0%Z))%Z
  /\ api_calls fresh
     < api_calls (llm_fuzzy_match env0 (lit "Neon Dreams") tour_catalog
                                  client_down (Some 0%Z) fresh).2.
Proof.
  assert (H1 : _match_cache fresh !! _cache_key env0 (lit "Neon Dreams") = None)
    by reflexivity.
  assert (H2 : (0 <= default MAX_RETRIES (Some 0%Z))%Z) by reflexivity.
  split; [exact H1|]. split; [exact H2|].
  exact (llm_miss_calls env0 _ tour_catalog client_down (Some 0%Z) fresh H1 H2).
Defined.

(** X13: [clear_cache] forgets every entry: after it, the next
    invocation on any name, with a non-negative retry count, calls the
    service again, whatever was cached before; the call counter, the count
    of draws, the environment variable and the record of events are left as
    they were. *)
Theorem clear_cache_forces_call (E : extern) (t : str)
    (catalog : list CatalogEntry) (client : Client) (mr : option Z)
    (w : World) :
  (0 <= default MAX_RETRIES mr)%Z ->
  api_calls w
  < api_calls (llm_fuzzy_match E t catalog client mr (clear_cache w)).2
  /\ (forall key, _match_cache (clear_cache w) !! key = None)
  /\ api_calls (clear_cache w) = api_calls w
  /\ trace (clear_cache w) = trace w
  /\ draws (clear_cache w) = draws w
  /\ OPENAI_API_KEY (clear_cache w) = OPENAI_API_KEY w.
Proof.
  intros Hm. split; [|now repeat split].
  change (api_calls w) with (api_calls (clear_cache w)).
  apply llm_miss_calls_aux; [apply lookup_empty|exact Hm].
Qed.

Lemma clear_cache_forces_call_witness :
  let w1 := (llm_fuzzy_match env0 (lit "Tokyo (Live)") tour_catalog client_ok
                             None fresh).2 in
  (0 <= default MAX_RETRIES None)%Z
  /\ api_calls w1 = 1
  /\ api_calls (llm_fuzzy_match env0 (lit "Tokyo (Live)") tour_catalog
                                client_ok None w1).2 = 1
  /\ api_calls w1
     < api_calls (llm_fuzzy_match env0 (lit "Tokyo (Live)") tour_catalog
                                  client_ok None (clear_cache w1)).2.
Proof.
  intros w1.
  assert (H : (0 <= default MAX_RETRIES None)%Z) by (vm_compute; discriminate).
  split; [exact H|]. split; [vm_compute; reflexivity|].
  split; [vm_compute; reflexivity|].
  exact (proj1 (clear_cache_forces_call env0 (lit "Tokyo (Live)") tour_catalog
                  client_ok None w1 H)).
Defined.

(** X14: with a negative retry count and a key that is not cached, the
    matcher makes no attempt at all, returns the fallback and stores it:
    from then on every invocation on that name, whatever its retry count,
    client or catalog, returns ["None"/"None"] without a call. *)
Theorem llm_negative_retries (E : extern) (t : str)
    (catalog : list CatalogEntry) (client : Client) (mr : Z) (w : World) :
  _match_cache w !! _cache_key E t = None ->
  (mr < 0)%Z ->
  let out := llm_fuzzy_match E t catalog client (Some mr) w in
  out.1 = inr fallback
  /\ api_calls out.2 = api_calls w
  /\ forall catalog2 client2 mr2,
       (llm_fuzzy_match E t catalog2 client2 mr2 out.2).1 = inr fallback
       /\ api_calls (llm_fuzzy_match E t catalog2 client2 mr2 out.2).2
          = api_calls w.
Proof.
  intros Hk Hm out.
  assert (Ho : out = (inr fallback,
                      cache_store (_cache_key E t) fallback (enter E t w))).
  { subst out. rewrite (llm_miss_enter E _ _ _ _ _ Hk). unfold range.
    change (default MAX_RETRIES (Some mr)) with mr.
    replace (Z.to_nat (mr + 1)) with 0 by lia. reflexivity. }
  rewrite Ho. simpl. split; [reflexivity|]. split; [apply enter_calls|].
  intros catalog2 client2 mr2.
  rewrite (llm_hit E t catalog2 client2 mr2 _ fallback).
  - simpl. split; [reflexivity|apply enter_calls].
  - simpl. apply lookup_insert_eq.
Qed.

Lemma llm_negative_retries_witness :
  _match_cache fresh !! _cache_key env0 (lit "Tokyo (Live)") = None
  /\ (-1 < 0)%Z
  /\ (llm_fuzzy_match env0 (lit "Tokyo (Live)") tour_catalog client_ok
                      (Some (-1)%Z) fresh).1 = inr fallback
  /\ (llm_fuzzy_match env0 (lit "Tokyo (Live)") tour_catalog client_ok None
        (llm_fuzzy_match env0 (lit "Tokyo (Live)") tour_catalog client_ok
                         (Some (-1)%Z) fresh).2).1 = inr fallback.
Proof.
  assert (H1 : _match_cache fresh !! _cache_key env0 (lit "Tokyo (Live)")
               = None) by reflexivity.
  assert (H2 : (-1 < 0)%Z) by reflexivity.
  split; [exact H1|]. split; [exact H2|].
  destruct (llm_negative_retries env0 (lit "Tokyo (Live)") tour_catalog
              client_ok (-1)%Z fresh H1 H2) as (Ha & _ & Hb).
  split; [exact Ha|]. exact (proj1 (Hb tour_catalog client_ok None)).
Defined.

(** ** Candidates are never missing *)

Lemma try_body_nonempty (E : extern) ids r v :
  try_body E ids r = Some v -> v <> [].
Proof.
  destruct r as [| |parsed]; try discriminate. rewrite try_body_reply.
  intros Hm%length_mapM ->. unfold parsed_matches in Hm.
  now destruct (_parse_llm_response parsed).
Qed.

(** On a miss, what the invocation returns is what it stores. *)
Lemma llm_miss_cache (E : extern) t catalog client mr w r :
  _match_cache w !! _cache_key E t = None ->
  (llm_fuzzy_match E t catalog client mr w).1 = inr r ->
  _match_cache (llm_fuzzy_match E t catalog client mr w).2
  = <[_cache_key E t := r]> (_match_cache w).
Proof.
  intros Hk. rewrite (llm_miss_enter E _ _ _ _ _ Hk).
  match goal with |- context [attempt_loop ?a ?b ?c ?d ?e ?f ?g ?h ?w1] =>
    pose proof (attempt_loop_cache a b c d e f g h w1) as Hc;
    destruct (attempt_loop a b c d e f g h w1) as [[e1|[v|]] w2] end;
    simpl in *; intros [= <-]; rewrite Hc, enter_cache; reflexivity.
Qed.

Lemma cache_nonempty_insert c k v :
  cache_nonempty c -> v <> [] -> cache_nonempty (<[k := v]> c).
Proof.
  intros Hc Hv k' v' Hl. destruct (decide (k = k')) as [<-|Hne].
  - rewrite lookup_insert_eq in Hl. now injection Hl as <-.
  - rewrite lookup_insert_ne in Hl by exact Hne. now apply (Hc k').
Qed.

Lemma llm_nonempty_aux (E : extern) t catalog client mr w :
  cache_nonempty (_match_cache w) ->
  (forall r, (llm_fuzzy_match E t catalog client mr w).1 = inr r -> r <> [])
  /\ cache_nonempty (_match_cache (llm_fuzzy_match E t catalog client mr w).2).
Proof.
  intros Hc.
  destruct (_match_cache w !! _cache_key E t) as [cached|] eqn:Hk.
  - rewrite (llm_hit E _ _ _ _ _ _ Hk). simpl.
    split; [|exact Hc]. intros r [= <-]. now apply (Hc _ _ Hk).
  - assert (Hr : forall r,
              (llm_fuzzy_match E t catalog client mr w).1 = inr r -> r <> []).
    { rewrite (llm_miss_enter E _ _ _ _ _ Hk).
      match goal with |- context [attempt_loop ?a ?b ?c ?d ?e ?f ?g ?h ?w1] =>
        pose proof (attempt_loop_validated a b c d e f g h w1) as Hv;
        destruct (attempt_loop a b c d e f g h w1) as [[e1|[v|]] w2] end;
        simpl in *; intros r [= <-]; [|discriminate].
      destruct (Hv v eq_refl) as [i Hi]. now apply try_body_nonempty in Hi. }
    split; [exact Hr|].
    destruct (llm_fuzzy_match E t catalog client mr w).1 as [e|r] eqn:Ho.
    + now rewrite (llm_raise_cache E _ _ _ _ _ _ Ho).
    + rewrite (llm_miss_cache E _ _ _ _ _ _ Hk Ho).
      apply cache_nonempty_insert; [exact Hc|now apply Hr].
Qed.

(** X15: as long as no cached sequence is empty, which holds of the
    empty cache, the matcher never returns an empty sequence and never
    stores one; and it does return when at most 1024 retries are asked
    for. *)
Theorem llm_never_empty (E : extern) (t : str) (catalog : list CatalogEntry)
    (client : Client) (mr : option Z) (w : World) :
  cache_nonempty (_match_cache w) ->
  (forall r, (llm_fuzzy_match E t catalog client mr w).1 = inr r -> r <> [])
  /\ ((default MAX_RETRIES mr <= 1024)%Z ->
      exists r, (llm_fuzzy_match E t catalog client mr w).1 = inr r
                /\ r <> [])
  /\ cache_nonempty (_match_cache (llm_fuzzy_match E t catalog client mr w).2).
Proof.
  intros Hc. destruct (llm_nonempty_aux E t catalog client mr w Hc) as [H1 H2].
  split; [exact H1|]. split; [|exact H2].
  intros Hm. destruct (llm_returns E t catalog client mr w Hm) as [r Hr].
  exists r. split; [exact Hr|now apply H1].
Qed.

Lemma cache_nonempty_empty : cache_nonempty ∅.
Proof. intros k v H. now rewrite lookup_empty in H. Qed.

Lemma llm_never_empty_witness :
  cache_nonempty (_match_cache fresh)
  /\ (default MAX_RETRIES None <= 1024)%Z
  /\ exists r, (llm_fuzzy_match env0 (lit "Some Track") tour_catalog
                                client_down None fresh).1 = inr r
               /\ r <> [].
Proof.
  assert (H : cache_nonempty (_match_cache fresh)) by apply cache_nonempty_empty.
  assert (H0 : (default MAX_RETRIES None <= 1024)%Z)
    by (vm_compute; discriminate).
  split; [exact H|]. split; [exact H0|].
  exact (proj1 (proj2 (llm_never_empty env0 (lit "Some Track") tour_catalog
                         client_down None fresh H)) H0).
Defined.

(** ** Rows follow the tracks *)

Lemma result_row_from_track track cid conf catalog :
  from_track track (_result_row track cid conf catalog).
Proof. now repeat split. Qed.

Lemma rows_of_from_track track matches catalog :
  Forall (from_track track) (rows_of track matches catalog).
Proof.
  unfold rows_of. induction matches as [|m ms IH]; simpl; constructor;
    [apply result_row_from_track|exact IH].
Qed.

Lemma reconcile_track_block (E : extern) client track catalog w :
  cache_nonempty (_match_cache w) ->
  exists rows w',
    reconcile_track E client track catalog w = (inr rows, w')
    /\ cache_nonempty (_match_cache w')
    /\ (rows <> [] /\ Forall (from_track track) rows).
Proof.
  intros Hc.
  assert (Hs : forall w0, cache_nonempty (_match_cache w0) ->
            exists rows w',
              send_to_llm E client track catalog w0 = (inr rows, w')
              /\ cache_nonempty (_match_cache w')
              /\ (rows <> [] /\ Forall (from_track track) rows)).
  { intros w0 H0. unfold send_to_llm. destruct client as [c|].
    - destruct (llm_nonempty_aux E (setlist_track_name track) catalog c None
                  w0 H0) as [Hn Hc'].
      destruct (llm_default_returns E (setlist_track_name track) catalog c w0)
        as (ms & w1 & Hl).
      rewrite Hl in *. simpl in *. eexists _, _. split; [reflexivity|].
      split; [exact Hc'|]. split; [|apply rows_of_from_track].
      specialize (Hn ms eq_refl). unfold rows_of. now destruct ms.
    - eexists _, _. split; [reflexivity|]. split; [exact H0|].
      split; [discriminate|].
      constructor; [apply result_row_from_track|constructor]. }
  unfold reconcile_track.
  destruct (has_slash (setlist_track_name track)); [now apply Hs|].
  destruct (deterministic_match (setlist_track_name track) catalog)
    as [[[|c cid] conf]|]; try (apply Hs; exact Hc).
  eexists _, _. split; [reflexivity|]. split; [exact Hc|].
  split; [discriminate|].
  constructor; [apply result_row_from_track|constructor].
Qed.

Lemma concat_nonempty_length {A B : Type} (P : A -> list B -> Prop)
    (l : list A) (blocks : list (list B)) :
  Forall2 (fun a block => block <> [] /\ P a block) l blocks ->
  length l <= length (concat blocks).
Proof.
  induction 1 as [|a block l blocks [Hn _] _ IH]; simpl; [lia|].
  rewrite length_app. destruct block; [contradiction|]. simpl. lia.
Qed.

(** X16: [reconcile] returns, and the rows that it returns are the
    concatenation of one block per track, in the order of the tracks; every
    row of a block repeats the date, venue and name of its track; and, when
    no cached sequence is empty, no block is empty, so that every track is
    answered. *)
Theorem reconcile_row_blocks (E : extern) (tracks : list Track)
    (catalog : list CatalogEntry) (client : option Client) (w : World) :
  cache_nonempty (_match_cache w) ->
  exists blocks,
    (reconcile E tracks catalog client w).1 = inr (concat blocks)
    /\ Forall2 (fun track block =>
                  block <> [] /\ Forall (from_track track) block)
               tracks blocks
    /\ length tracks <= length (concat blocks).
Proof.
  intros Hc. unfold reconcile.
  pose proof (resolve_client_cache E client w) as Hr.
  destruct (resolve_client E client w) as [c w0]. simpl in Hr.
  rewrite <- Hr in Hc.
  destruct (reconcile_loop_inv E c catalog
              (fun w => cache_nonempty (_match_cache w))
              (fun track block =>
                 block <> [] /\ Forall (from_track track) block)
              (fun track w1 => reconcile_track_block E c track catalog w1)
              tracks w0 Hc) as (blocks & w' & H & _ & Hb).
  exists blocks. rewrite H. split; [reflexivity|]. split; [exact Hb|].
  exact (concat_nonempty_length _ _ _ Hb).
Qed.

Lemma reconcile_row_blocks_witness :
  let tracks := [played "Neon Dreams"; played "Desert Rain / Ocean Avenue"] in
  cache_nonempty (_match_cache fresh)
  /\ exists blocks,
       (reconcile env0 tracks tour_catalog (Some client_ok) fresh).1
       = inr (concat blocks)
       /\ Forall2 (fun track block =>
                     block <> [] /\ Forall (from_track track) block)
                  tracks blocks
       /\ length tracks <= length (concat blocks).
Proof.
  intros tracks.
  assert (H : cache_nonempty (_match_cache fresh)) by apply cache_nonempty_empty.
  split; [exact H|].
  exact (reconcile_row_blocks env0 tracks tour_catalog (Some client_ok)
           fresh H).
Defined.

(** ** The cost of a run *)

Lemma llm_potential (E : extern) t catalog client w :
  api_calls (llm_fuzzy_match E t catalog client None w).2
    + 4 * size (dom (_match_cache w))
  <= api_calls w
     + 4 * size (dom (_match_cache (llm_fuzzy_match E t catalog client None w).2))
  /\ dom (_match_cache (llm_fuzzy_match E t catalog client None w).2)
     ⊆ dom (_match_cache w) ∪ {[ _cache_key E t ]}.
Proof.
  destruct (_match_cache w !! _cache_key E t) as [cached|] eqn:Hk.
  - rewrite (llm_hit E _ _ _ _ _ _ Hk). simpl. split; [lia|set_solver].
  - destruct (llm_default_returns E t catalog client w) as (r & w' & Hl).
    pose proof (llm_miss_cache E t catalog client None w r Hk) as Hc.
    pose proof (llm_calls_bound E t catalog client None w) as [_ Hb].
    change (Z.to_nat (default MAX_RETRIES None + 1)) with 4 in Hb.
    rewrite Hl in *. cbn [fst snd] in *. rewrite (Hc eq_refl), dom_insert_L.
    apply not_elem_of_dom in Hk.
    rewrite size_union by set_solver. rewrite size_singleton.
    split; [lia|set_solver].
Qed.

Lemma reconcile_track_potential (E : extern) client track catalog w :
  api_calls (reconcile_track E client track catalog w).2
    + 4 * size (dom (_match_cache w))
  <= api_calls w
     + 4 * size (dom (_match_cache (reconcile_track E client track catalog w).2))
  /\ dom (_match_cache (reconcile_track E client track catalog w).2)
     ⊆ dom (_match_cache w)
       ∪ (if needs_llm catalog track then {[ track_key E track ]} else ∅).
Proof.
  assert (Hs : forall w0,
    api_calls (send_to_llm E client track catalog w0).2
      + 4 * size (dom (_match_cache w0))
    <= api_calls w0
       + 4 * size (dom (_match_cache (send_to_llm E client track catalog w0).2))
    /\ dom (_match_cache (send_to_llm E client track catalog w0).2)
       ⊆ dom (_match_cache w0) ∪ {[ track_key E track ]}).
  { intros w0. unfold send_to_llm. destruct client as [c|].
    - pose proof (llm_potential E (setlist_track_name track) catalog c w0) as H.
      now destruct (llm_fuzzy_match E (setlist_track_name track) catalog c None w0)
        as [[e|ms] w1].
    - simpl. split; [lia|set_solver]. }
  unfold reconcile_track, needs_llm, det_hit.
  destruct (has_slash (setlist_track_name track)); [apply Hs|].
  destruct (deterministic_match (setlist_track_name track) catalog)
    as [[[|c cid] conf]|]; simpl orb; cbv iota;
    try (exact (Hs (log (EvDeterministic (setlist_track_name track)) w))).
  simpl. split; [lia|set_solver].
Qed.

(** X17: a run makes at most four calls, one attempt and three
    retries, for each distinct cache key among the tracks that stage 1
    does not settle: tracks that share a normalized name are paid for once,
    and a run in which every track is matched deterministically makes no
    call. *)
Theorem reconcile_calls_bound (E : extern) (tracks : list Track)
    (catalog : list CatalogEntry) (client : option Client) (w : World) :
  api_calls (reconcile E tracks catalog client w).2
  <= api_calls w
     + 4 * size (list_to_set
                   (map (track_key E) (List.filter (needs_llm catalog) tracks))
                 : gset str).
Proof.
  unfold reconcile.
  assert (Ha : api_calls (resolve_client E client w).2 = api_calls w).
  { unfold resolve_client. destruct client; [reflexivity|].
    now destruct (OPENAI_API_KEY w) as [[|c k]|]. }
  destruct (resolve_client E client w) as [c w0]. simpl in Ha.
  rewrite <- Ha. clear Ha w.
  set (K := fun ts => (list_to_set
            (map (track_key E) (List.filter (needs_llm catalog) ts)) : gset str)).
  change (api_calls (reconcile_loop E c tracks catalog w0).2
          <= api_calls w0 + 4 * size (K tracks)).
  assert (H : forall ts w,
    api_calls (reconcile_loop E c ts catalog w).2
      + 4 * size (dom (_match_cache w))
    <= api_calls w
       + 4 * size (dom (_match_cache (reconcile_loop E c ts catalog w).2))
    /\ dom (_match_cache (reconcile_loop E c ts catalog w).2)
       ⊆ dom (_match_cache w) ∪ K ts).
  { induction ts as [|track rest IH]; intros w; simpl.
    - split; [lia|set_solver].
    - destruct (reconcile_track_potential E c track catalog w) as [H1 H2].
      assert (Hk : dom (_match_cache (reconcile_track E c track catalog w).2)
                   ⊆ dom (_match_cache w) ∪ K (track :: rest)).
      { clear - H2. unfold K. simpl. destruct (needs_llm catalog track);
          simpl; fold (K rest); set_solver. }
      destruct (reconcile_track E c track catalog w) as [[e|rows] w1];
        [simpl in *; split; [lia|exact Hk]|].
      destruct (IH w1) as [I1 I2].
      assert (Hk2 : dom (_match_cache (reconcile_loop E c rest catalog w1).2)
                    ⊆ dom (_match_cache w) ∪ K (track :: rest)).
      { simpl in H2. clear - H2 I2. unfold K. simpl.
        destruct (needs_llm catalog track); simpl; fold (K rest);
          set_solver. }
      destruct (reconcile_loop E c rest catalog w1) as [[e|more] w2];
        simpl in *; (split; [lia|exact Hk2]). }
  destruct (H tracks w0) as [H1 H2].
  pose proof (subseteq_size _ _ H2) as Hs.
  rewrite size_union_alt in Hs.
  pose proof (subseteq_size (K tracks ∖ dom (_match_cache w0)) (K tracks)
                ltac:(set_solver)).
  lia.
Qed.

(** ** Titles and precedence *)

Lemma title_of_find catalog cid :
  title_of catalog cid
  = from_option title []
      (List.find (fun s => str_eqb (catalog_id s) cid) catalog).
Proof.
  induction catalog as [|s rest IH]; [reflexivity|]. simpl.
  now destruct (str_eqb (catalog_id s) cid).
Qed.

Lemma result_row_title track cid conf catalog :
  matched_catalog_title (_result_row track cid conf catalog)
  = if bool_decide (cid = [] \/ cid = NoneStr) then []
    else title_of catalog cid.
Proof.
  unfold _result_row, str_eqb. simpl.
  destruct (bool_decide (cid = [])) eqn:H1;
    [apply bool_decide_eq_true in H1 | apply bool_decide_eq_false in H1];
    destruct (bool_decide (cid = NoneStr)) eqn:H2;
    try apply bool_decide_eq_true in H2;
    try apply bool_decide_eq_false in H2; simpl.
  all: try (rewrite (bool_decide_eq_true_2 (cid = [] \/ cid = NoneStr))
             by tauto; reflexivity).
  rewrite (bool_decide_eq_false_2 (cid = [] \/ cid = NoneStr)) by tauto.
  reflexivity.
Qed.

Lemma result_row_titled track cid conf catalog :
  titled catalog (_result_row track cid conf catalog).
Proof.
  unfold titled. rewrite result_row_title. simpl.
  now rewrite title_of_find.
Qed.

Lemma reconcile_track_titled (E : extern) client track catalog w :
  True ->
  exists rows w',
    reconcile_track E client track catalog w = (inr rows, w')
    /\ True /\ Forall (titled catalog) rows.
Proof.
  intros _.
  assert (Hs : forall w0,
            exists rows w',
              send_to_llm E client track catalog w0 = (inr rows, w')
              /\ True /\ Forall (titled catalog) rows).
  { intros w0. unfold send_to_llm. destruct client as [c|].
    - destruct (llm_default_returns E (setlist_track_name track) catalog c w0)
        as (ms & w1 & ->).
      eexists _, _. split; [reflexivity|]. split; [exact I|]. unfold rows_of.
      induction ms; simpl; constructor; [apply result_row_titled|assumption].
    - eexists _, _. split; [reflexivity|]. split; [exact I|].
      constructor; [apply result_row_titled|constructor]. }
  unfold reconcile_track.
  destruct (has_slash (setlist_track_name track)); [apply Hs|].
  destruct (deterministic_match (setlist_track_name track) catalog)
    as [[[|c cid] conf]|]; try apply Hs.
  eexists _, _. split; [reflexivity|]. split; [exact I|].
  constructor; [apply result_row_titled|constructor].
Qed.

(** X18: [reconcile] returns, and in every row that it returns the
    matched title is empty when the matched id is ["None"] (or empty), and
    is otherwise the title of the first song of the catalog that carries
    the matched id, empty when no song does. *)
Theorem reconcile_titles (E : extern) (tracks : list Track)
    (catalog : list CatalogEntry) (client : option Client) (w : World) :
  exists rows,
    (reconcile E tracks catalog client w).1 = inr rows
    /\ Forall (fun r =>
                 matched_catalog_title r
                 = if bool_decide (matched_catalog_id r = []
                                   \/ matched_catalog_id r = NoneStr)
                   then []
                   else from_option title []
                          (List.find
                             (fun s => str_eqb (catalog_id s)
                                               (matched_catalog_id r))
                             catalog))
              rows.
Proof.
  unfold reconcile. destruct (resolve_client E client w) as [c w0].
  destruct (reconcile_loop_inv E c catalog (fun _ => True)
              (fun _ rows => Forall (titled catalog) rows)
              (fun track w1 => reconcile_track_titled E c track catalog w1)
              tracks w0 I) as (blocks & w' & H & _ & Hb).
  exists (concat blocks). rewrite H. split; [reflexivity|].
  exact (Forall2_concat_Forall _ _ _ Hb).
Qed.

(** A track that stage 1 settles costs one consultation of the
    deterministic matcher and nothing else. *)
Lemma reconcile_track_settled (E : extern) client track catalog w :
  needs_llm catalog track = false ->
  exists cid,
    deterministic_match (setlist_track_name track) catalog = Some (cid, Exact)
    /\ cid <> [] /\ In cid (map catalog_id catalog)
    /\ reconcile_track E client track catalog w
       = (inr [_result_row track cid Exact catalog],
          log (EvDeterministic (setlist_track_name track)) w).
Proof.
  unfold needs_llm, det_hit, reconcile_track.
  destruct (has_slash (setlist_track_name track)); [discriminate|].
  destruct (deterministic_match (setlist_track_name track) catalog)
    as [[[|c cid] conf]|] eqn:Hd; try discriminate.
  intros _. destruct (deterministic_match_in _ _ _ _ Hd) as [Hi ->].
  exists (c :: cid). now repeat split.
Qed.

(** X19: a run over tracks that stage 1 settles, none of them a medley
    and each matched by the deterministic matcher, returns exactly one row
    per track, in order: the row repeats the date, venue and name of its
    track, carries the id that the deterministic matcher gave for the name,
    an id of the catalog, with confidence ["Exact"].  The run makes no
    external call and leaves the cache as it was, whether or not a client is
    at hand and whatever the cache holds. *)
Theorem deterministic_hit_precedes (E : extern) (tracks : list Track)
    (catalog : list CatalogEntry) (client : option Client) (w : World) :
  Forall (fun track => needs_llm catalog track = false) tracks ->
  exists rows,
    (reconcile E tracks catalog client w).1 = inr rows
    /\ Forall2 (fun track r =>
                  r_show_date r = show_date track
                  /\ r_venue_name r = venue_name track
                  /\ r_setlist_track_name r = setlist_track_name track
                  /\ deterministic_match (setlist_track_name track) catalog
                     = Some (matched_catalog_id r, Exact)
                  /\ matched_catalog_id r <> []
                  /\ In (matched_catalog_id r) (map catalog_id catalog)
                  /\ match_confidence r = Exact)
               tracks rows
    /\ api_calls (reconcile E tracks catalog client w).2 = api_calls w
    /\ _match_cache (reconcile E tracks catalog client w).2 = _match_cache w.
Proof.
  intros Hall. unfold reconcile.
  assert (Ha : api_calls (resolve_client E client w).2 = api_calls w
               /\ _match_cache (resolve_client E client w).2 = _match_cache w).
  { unfold resolve_client. destruct client; [now split|].
    now destruct (OPENAI_API_KEY w) as [[|c k]|]. }
  destruct (resolve_client E client w) as [c w0]. simpl in Ha.
  destruct Ha as [<- <-]. clear w. revert w0.
  induction Hall as [|track rest Ht _ IH]; intros w.
  - exists []. simpl. repeat split. constructor.
  - destruct (reconcile_track_settled E c track catalog w Ht)
      as (cid & Hd & Hne & Hin & Hr).
    destruct (IH (log (EvDeterministic (setlist_track_name track)) w))
      as (rows & Hl & Hf & Hc & Hk).
    cbn [reconcile_loop]. rewrite Hr.
    destruct (reconcile_loop E c rest catalog
                (log (EvDeterministic (setlist_track_name track)) w))
      as [[e|more] w2]; [discriminate|].
    simpl in Hl, Hc, Hk |- *. injection Hl as ->.
    exists (_result_row track cid Exact catalog :: rows).
    split; [reflexivity|]. split; [|now split].
    constructor; [|exact Hf]. now repeat split.
Qed.

Lemma deterministic_hit_precedes_witness :
  let tracks := [played "Neon Dreams (Live)"; played "midnight in TOKYO"] in
  Forall (fun track => needs_llm tour_catalog track = false) tracks
  /\ (exists rows,
        (reconcile env0 tracks tour_catalog (Some client_ok) with_key).1
        = inr rows
        /\ map matched_catalog_id rows = [lit "CAT-001"; lit "CAT-002"]
        /\ map matched_catalog_title rows
           = [lit "Neon Dreams"; lit "Midnight in Tokyo"])
  /\ api_calls (reconcile env0 tracks tour_catalog (Some client_ok)
                          with_key).2 = api_calls with_key.
Proof.
  intros tracks.
  assert (H : Forall (fun track => needs_llm tour_catalog track = false) tracks)
    by (constructor; [|constructor; [|constructor]]; vm_compute; reflexivity).
  split; [exact H|].
  destruct (deterministic_hit_precedes env0 tracks tour_catalog
              (Some client_ok) with_key H) as (rows & Hr & _ & Hc & _).
  split; [|exact Hc].
  eexists. split; [vm_compute; reflexivity|]. split; vm_compute; reflexivity.
Defined.

(** ** Where the parsed entries come from *)

Lemma dict_get_In d key v : dict_get d key = Some v -> In (key, v) d.
Proof.
  induction d as [|[k x] d IH]; [discriminate|]. simpl. unfold str_eqb.
  destruct (bool_decide (k = key)) eqn:H.
  - apply bool_decide_eq_true in H. intros [= <-]. left. now subst.
  - intros Hd. right. now apply IH.
Qed.

Lemma first_list_under_In d keys l :
  first_list_under d keys = Some l -> exists key, In (key, JList l) d.
Proof.
  induction keys as [|key keys IH]; [discriminate|]. simpl.
  destruct (dict_get d key) as [v|] eqn:Hg; simpl; [|exact IH].
  destruct v; simpl; try exact IH.
  intros [= <-]. exists key. now apply dict_get_In.
Qed.

Lemma first_list_value_In d l :
  first_list_value d = Some l -> exists key, In (key, JList l) d.
Proof.
  induction d as [|[k v] d IH]; [discriminate|]. simpl.
  destruct v; simpl;
    try (intros H; destruct (IH H) as [key Hk]; exists key; now right).
  intros [= <-]. exists k. now left.
Qed.

(** X20: [_parse_llm_response] never makes entries up: what it returns
    is empty, or is the reply itself when the reply is a list, or is the
    list held under some key of the reply when the reply is an object, or is
    the reply wrapped in a one-element list when the reply is an object with
    a [catalog_id]. *)
Theorem parse_llm_response_provenance (parsed : json) :
  _parse_llm_response parsed = []
  \/ parsed = JList (_parse_llm_response parsed)
  \/ (exists d key, parsed = JDict d
                    /\ In (key, JList (_parse_llm_response parsed)) d)
  \/ (exists d, parsed = JDict d
                /\ is_Some (dict_get d (lit "catalog_id"))
                /\ _parse_llm_response parsed = [parsed]).
Proof.
  destruct parsed as [| | | | |l|d]; try (now left).
  - right. now left.
  - unfold _parse_llm_response.
    destruct (first_list_under d [lit "matches"; lit "results"; lit "data"])
      as [l|] eqn:H1.
    + right. right. left. destruct (first_list_under_In _ _ _ H1) as [key Hk].
      now exists d, key.
    + destruct (bool_decide (is_Some (dict_get d (lit "catalog_id")))) eqn:H2.
      * apply bool_decide_eq_true in H2. right. right. right. now exists d.
      * destruct (first_list_value d) as [l|] eqn:H3; [|now left].
        right. right. left. destruct (first_list_value_In _ _ H3) as [key Hk].
        now exists d, key.
Qed.

(** ** Tour data *)

Arguments lit : simpl never.

Lemma require_key_dict key sd :
  require_key key (JDict sd)
  = if bool_decide (is_Some (dict_get sd key)) then inr tt else inl ValueError.
Proof. reflexivity. Qed.

Lemma validate_show_good show : validate_show show = inr tt <-> good_show show.
Proof.
  split.
  - destruct show as [| | | |s|l|sd]; try discriminate.
    + unfold validate_show, require_key, rbind. simpl.
      repeat match goal with |- context [if ?b then _ else _] => destruct b end;
        discriminate.
    + unfold validate_show, require_key, rbind. simpl.
      repeat match goal with |- context [if ?b then _ else _] => destruct b end;
        discriminate.
    + unfold validate_show. rewrite !require_key_dict. unfold rbind.
      destruct (bool_decide (is_Some (dict_get sd (lit "date")))) eqn:H1;
        [|discriminate].
      destruct (bool_decide (is_Some (dict_get sd (lit "venue")))) eqn:H2;
        [|discriminate].
      destruct (bool_decide (is_Some (dict_get sd (lit "city")))) eqn:H3;
        [|discriminate].
      destruct (bool_decide (is_Some (dict_get sd (lit "setlist")))) eqn:H4;
        [|discriminate].
      apply bool_decide_eq_true in H1, H2, H3.
      unfold py_getitem.
      destruct (dict_get sd (lit "setlist")) as [v|] eqn:H5; [|discriminate].
      destruct v; try discriminate. intros _.
      now exists sd, l.
  - intros (sd & l & -> & H1 & H2 & H3 & H4).
    unfold validate_show. rewrite !require_key_dict. unfold rbind, py_getitem.
    rewrite !bool_decide_eq_true_2 by (try assumption; now rewrite H4).
    now rewrite H4.
Qed.

Lemma validate_shows_good shows :
  validate_shows shows = inr tt <-> Forall good_show shows.
Proof.
  induction shows as [|show rest IH]; simpl.
  - split; [constructor|reflexivity].
  - unfold rbind. destruct (validate_show show) as [e|[]] eqn:Hs.
    + split; [discriminate|]. intros H. inversion H; subst.
      apply validate_show_good in H2. congruence.
    + rewrite IH. apply validate_show_good in Hs. split.
      * now constructor.
      * intros H. now inversion H.
Qed.

Lemma validate_good data : _validate_tour_data data = inr tt -> good_tour data.
Proof.
  destruct data as [| | | | | |d]; try discriminate.
  unfold _validate_tour_data, py_contains, py_getitem, rbind.
  destruct (bool_decide (is_Some (dict_get d (lit "data")))) eqn:H1;
    [|discriminate]. cbn [negb].
  destruct (dict_get d (lit "data")) as [inner|] eqn:Hd; [|discriminate].
  destruct inner as [| | | |s|l|inner];
    try discriminate;
    try (match goal with |- context [if ?b then _ else _] => destruct b end;
         discriminate).
  destruct (bool_decide (is_Some (dict_get inner (lit "shows")))) eqn:H2;
    [|discriminate]. cbn [negb].
  destruct (dict_get inner (lit "shows")) as [shows|] eqn:Hs; [|discriminate].
  destruct shows as [| | | | |[|show rest]|]; try discriminate.
  intros H%validate_shows_good.
  exists d, inner, (show :: rest). now repeat split.
Qed.

Lemma good_validate data : good_tour data -> _validate_tour_data data = inr tt.
Proof.
  intros (d & inner & shows & -> & Hd & Hs & Hne & Hf).
  unfold _validate_tour_data, py_contains, py_getitem, rbind.
  rewrite Hd. rewrite bool_decide_eq_true_2 by now eexists. cbn [negb].
  rewrite Hs. rewrite bool_decide_eq_true_2 by now eexists. cbn [negb].
  destruct shows as [|show rest]; [contradiction|].
  now apply validate_shows_good.
Qed.

(** X21: [_validate_tour_data] returns without raising exactly on the
    objects whose [data] is an object whose [shows] is a non-empty list of
    objects, each of which has the keys [date], [venue], [city] and a
    [setlist] that is a list; the values under [date], [venue], [city] and
    the entries of the setlists are not looked at. *)
Theorem validate_tour_data_accepts (data : json) :
  _validate_tour_data data = inr tt <-> good_tour data.
Proof. split; [apply validate_good|apply good_validate]. Qed.

Lemma flatten_names_good show names :
  good_show show ->
  flatten_names show names
  = inr (map (fun name =>
                {| rt_show_date := field show (lit "date");
                   rt_venue_name := field show (lit "venue");
                   rt_city := field show (lit "city");
                   rt_setlist_track_name := name |}) names).
Proof.
  intros (sd & l & -> & [a Ha] & [b Hb] & [c Hc] & _).
  induction names as [|name rest IH]; [reflexivity|].
  cbn [flatten_names]. unfold py_getitem, rbind in *. simpl field in *.
  rewrite Ha, Hb, Hc in *. now rewrite IH.
Qed.

Lemma flatten_shows_good shows :
  Forall good_show shows ->
  flatten_shows shows = inr (flat_map show_rows shows).
Proof.
  induction 1 as [|show rest Hs _ IH]; [reflexivity|].
  cbn [flatten_shows flat_map]. rewrite IH.
  pose proof (flatten_names_good show) as Hn.
  destruct Hs as (sd & l & -> & H1 & H2 & H3 & H4).
  assert (Hr : show_rows (JDict sd)
               = map (fun name =>
                        {| rt_show_date := field (JDict sd) (lit "date");
                           rt_venue_name := field (JDict sd) (lit "venue");
                           rt_city := field (JDict sd) (lit "city");
                           rt_setlist_track_name := name |}) l).
  { unfold show_rows. cbn [field]. now rewrite H4. }
  rewrite Hr. unfold py_getitem. rewrite H4. cbn [rbind py_iter].
  rewrite (Hn l) by (exists sd, l; now repeat split).
  reflexivity.
Qed.

(** X22: on tour data that [_validate_tour_data] accepts,
    [flatten_setlists] does not raise and returns one track for each entry
    of each setlist, show after show and, within a show, in setlist order,
    each with the date, venue and city of its show. *)
Theorem flatten_validated (data : json) :
  _validate_tour_data data = inr tt ->
  flatten_setlists data = inr (flat_map show_rows (tour_shows data))
  /\ Forall good_show (tour_shows data)
  /\ tour_shows data <> [].
Proof.
  intros (d & inner & shows & -> & Hd & Hs & Hne & Hf)%validate_good.
  unfold flatten_setlists, tour_shows, py_getitem, rbind. simpl field.
  rewrite Hd. simpl. rewrite Hs. simpl.
  split; [now apply flatten_shows_good|]. now split.
Qed.

Lemma flatten_validated_witness :
  _validate_tour_data sample_tour = inr tt
  /\ flatten_setlists sample_tour
     = inr (flat_map show_rows (tour_shows sample_tour))
  /\ option_map (map setlist_track_name)
       (mapM as_track (flat_map show_rows (tour_shows sample_tour)))
     = Some [lit "Neon Dreams"; lit "Tokyo (Acoustic)"; lit "Shattered Glass";
             lit "Neon Dreams"; lit "Velocity (Extended Jam)"].
Proof.
  assert (H : _validate_tour_data sample_tour = inr tt) by reflexivity.
  split; [exact H|].
  split; [exact (proj1 (flatten_validated sample_tour H))|].
  vm_compute. reflexivity.
Defined.

(** X23: [flatten_setlists] reads the date, venue and city of a show
    only while it walks a non-empty setlist: when every show is an object
    whose setlist is the empty list it returns no track and does not raise,
    even though keys that the validation insists on are missing. *)
Theorem flatten_silent_shows (tour_data data : json) (shows : list json) :
  py_getitem tour_data (lit "data") = inr data ->
  py_getitem data (lit "shows") = inr (JList shows) ->
  Forall (fun show => exists sd, show = JDict sd
                        /\ dict_get sd (lit "setlist") = Some (JList []))
         shows ->
  flatten_setlists tour_data = inr [].
Proof.
  intros Hd Hs Hf.
  assert (H : flatten_shows shows = inr []).
  { clear Hs. induction Hf as [|show rest (sd & -> & Hl) _ IH]; [reflexivity|].
    cbn [flatten_shows]. unfold py_getitem. rewrite Hl.
    cbn [rbind py_iter flatten_names]. now rewrite IH. }
  unfold flatten_setlists, rbind. now rewrite Hd, Hs.
Qed.

Lemma flatten_silent_shows_witness :
  _validate_tour_data silent_tour = inl ValueError
  /\ flatten_setlists silent_tour = inr [].
Proof.
  split; [reflexivity|].
  apply (flatten_silent_shows silent_tour
           (JDict [(lit "artist", JStr (lit "The Neon Lights"));
                   (lit "shows",
                    JList [JDict [(lit "date", JStr (lit "2024-01-01"));
                                  (lit "setlist", JList [])]])])
           [JDict [(lit "date", JStr (lit "2024-01-01"));
                   (lit "setlist", JList [])]]).
  - reflexivity.
  - reflexivity.
  - constructor; [|constructor]. eexists. split; reflexivity.
Defined.

(** ** Validation again *)

Lemma strip_idem s : strip (strip s) = strip s.
Proof.
  unfold strip at 1. rewrite (lstrip_id _ (strip_hd s)).
  unfold strip. destruct (rstrip_shape (lstrip s)) as [-> | (x & c & -> & Hc)].
  - reflexivity.
  - now apply rstrip_snoc.
Qed.

Lemma validate_match_dict (E : extern) ids cid conf :
  strip cid = cid -> strip conf = conf ->
  cid = NoneStr \/ cid ∈ ids -> conf ∈ VALID_CONFIDENCE ->
  validate_match E
    (match_dict {| mc_catalog_id := cid; mc_confidence := conf |}) ids
  = {| mc_catalog_id := cid; mc_confidence := conf |}.
Proof.
  intros H1 H2 Hi Hc. unfold validate_match, match_dict.
  cbn [mc_catalog_id mc_confidence].
  change (dict_get _ (lit "catalog_id")) with (Some (JStr cid)).
  change (dict_get _ (lit "confidence")) with (Some (JStr conf)).
  cbn [default from_option py_str id]. rewrite H1, H2. unfold str_eqb.
  destruct Hi as [-> | Hi].
  - rewrite (bool_decide_eq_true_2 (NoneStr = NoneStr)) by reflexivity.
    cbn [negb andb]. now rewrite (bool_decide_eq_true_2 _ Hc).
  - rewrite (bool_decide_eq_true_2 _ Hi), andb_false_r.
    now rewrite (bool_decide_eq_true_2 _ Hc).
Qed.

(** X24: validating again, against the same ids, what [validate_match]
    returned changes nothing. *)
Theorem validate_match_idempotent (E : extern) (m : pydict) (ids : gset str) :
  validate_match E (match_dict (validate_match E m ids)) ids
  = validate_match E m ids.
Proof.
  destruct (validate_match_spec E m ids) as (Heq & Hi & Hc).
  cbv zeta in Heq, Hi, Hc.
  set (r := validate_match E m ids) in *.
  assert (Hs : strip (mc_catalog_id r) = mc_catalog_id r
               /\ strip (mc_confidence r) = mc_confidence r).
  { rewrite Heq.
    destruct (bool_decide (_ <> NoneStr /\ _ ∉ ids)); cbn [mc_catalog_id mc_confidence].
    - split; reflexivity.
    - split; [apply strip_idem|].
      destruct (bool_decide (_ ∈ VALID_CONFIDENCE)); [apply strip_idem|reflexivity]. }
  destruct Hs as [H1 H2]. destruct r as [cid conf].
  now apply validate_match_dict.
Qed.

(** ** Titles of exact rows *)

Lemma title_of_unique catalog s :
  NoDup (map catalog_id catalog) -> In s catalog ->
  title_of catalog (catalog_id s) = title s.
Proof.
  induction catalog as [|x rest IH]; [contradiction|]. simpl.
  intros Hn [-> | Hin].
  - unfold str_eqb. now rewrite bool_decide_eq_true_2.
  - inversion Hn as [|? ? Hx Hr]; subst. unfold str_eqb.
    destruct (bool_decide (catalog_id x = catalog_id s)) eqn:He;
      [|now apply IH].
    apply bool_decide_eq_true in He. exfalso. apply Hx. rewrite He.
    apply list_elem_of_In. now apply in_map.
Qed.

Lemma find_norm_some name catalog s :
  List.find (norm_matches name) catalog = Some s ->
  In s catalog /\ normalize name = normalize (title s).
Proof.
  intros H. apply List.find_some in H as [Hin Hm]. split; [exact Hin|].
  unfold norm_matches, str_eqb in Hm. now apply bool_decide_eq_true in Hm.
Qed.

(** X25: when the ids of the catalog are distinct, the row of a track
    that stage 1 matches, with an id other than ["None"], carries a title
    whose normal form is the normal form of the track name. *)
Theorem exact_row_title (E : extern) (client : option Client)
    (track : Track) (catalog : list CatalogEntry) (w : World)
    (c : ascii) (cid conf : str) :
  NoDup (map catalog_id catalog) ->
  has_slash (setlist_track_name track) = false ->
  deterministic_match (setlist_track_name track) catalog
    = Some (c :: cid, conf) ->
  c :: cid <> NoneStr ->
  exists r,
    (reconcile_track E client track catalog w).1 = inr [r]
    /\ matched_catalog_id r = c :: cid
    /\ match_confidence r = Exact
    /\ normalize (matched_catalog_title r)
       = normalize (setlist_track_name track).
Proof.
  intros Hn Hs Hd Hne.
  pose proof Hd as Hf. rewrite deterministic_match_find in Hf.
  destruct (List.find (norm_matches (setlist_track_name track)) catalog)
    as [s|] eqn:Hfind; [|discriminate].
  simpl in Hf. injection Hf as Hid Hconf.
  destruct (find_norm_some _ _ _ Hfind) as [Hin Hnorm].
  unfold reconcile_track. rewrite Hs, Hd. eexists. split; [reflexivity|].
  cbn [fst matched_catalog_id match_confidence]. split; [reflexivity|].
  split; [now symmetry|].
  rewrite result_row_title.
  rewrite (bool_decide_eq_false_2 (c :: cid = [] \/ c :: cid = NoneStr))
    by (intros [H|H]; [discriminate|contradiction]).
  rewrite <- Hid, (title_of_unique _ _ Hn Hin). now symmetry.
Qed.

Lemma exact_row_title_witness :
  let track := played "  MIDNIGHT in tokyo (Live)" in
  NoDup (map catalog_id tour_catalog)
  /\ has_slash (setlist_track_name track) = false
  /\ deterministic_match (setlist_track_name track) tour_catalog
     = Some (lit "CAT-002", Exact)
  /\ exists r,
       (reconcile_track env0 None track tour_catalog fresh).1 = inr [r]
       /\ matched_catalog_id r = lit "CAT-002"
       /\ match_confidence r = Exact
       /\ normalize (matched_catalog_title r)
          = normalize (setlist_track_name track).
Proof.
  intros track.
  assert (H1 : NoDup (map catalog_id tour_catalog)).
  { apply NoDup_cons_2; [|apply NoDup_cons_2; [|constructor]].
    - intros [H|[]]%list_elem_of_In. discriminate.
    - intros []%list_elem_of_In. }
  assert (H2 : has_slash (setlist_track_name track) = false) by reflexivity.
  assert (H3 : deterministic_match (setlist_track_name track) tour_catalog
               = Some ("C"%char :: lit "AT-002", Exact))
    by (vm_compute; reflexivity).
  assert (H4 : "C"%char :: lit "AT-002" <> NoneStr) by discriminate.
  split; [exact H1|]. split; [exact H2|]. split; [exact H3|].
  exact (exact_row_title env0 None track tour_catalog fresh _ _ _ H1 H2 H3 H4).
Defined.

(** ** Backoff grows *)

(** X26: while both delays exist, that is up to attempt 1023, and with
    every jitter drawn in [[0, 1]], the backoff delay never decreases from
    one retry to the next, whatever the draws. *)
Theorem backoff_delay_monotone (n : nat) (j1 j2 : Q) :
  (0 <= j1 <= 1)%Q -> (0 <= j2 <= 1)%Q -> S n < 1024 ->
  exists d1 d2 : Q,
    backoff_delay n j1 = inr d1
    /\ backoff_delay (S n) j2 = inr d2
    /\ (d1 <= d2)%Q.
Proof.
  intros [_ H1] [H2 _] Hn.
  exists (delay_value n j1), (delay_value (S n) j2).
  split; [apply backoff_delay_ok; lia|].
  split; [now apply backoff_delay_ok|].
  unfold delay_value, BACKOFF_BASE.
  apply Q.min_le_compat_r.
  assert (Hz : (2 ^ Z.of_nat n + 1 <= 2 ^ Z.of_nat (S n))%Z).
  { rewrite Nat2Z.inj_succ, Z.pow_succ_r by lia.
    assert (0 < 2 ^ Z.of_nat n)%Z by (apply Z.pow_pos_nonneg; lia). lia. }
  rewrite Zle_Qle, inject_Z_plus in Hz. change (inject_Z 1) with 1%Q in Hz.
  lra.
Qed.

Lemma backoff_delay_monotone_witness :
  (0 <= 1 <= 1)%Q /\ (0 <= 0 <= 1)%Q /\ 2 < 1024
  /\ exists d1 d2 : Q,
       backoff_delay 1 1 = inr d1
       /\ backoff_delay 2 0 = inr d2
       /\ (d1 <= d2)%Q.
Proof.
  assert (H1 : (0 <= 1 <= 1)%Q) by (split; vm_compute; discriminate).
  assert (H2 : (0 <= 0 <= 1)%Q) by (split; vm_compute; discriminate).
  assert (H3 : 2 < 1024) by lia.
  split; [exact H1|]. split; [exact H2|]. split; [exact H3|].
  exact (backoff_delay_monotone 1 1 0 H1 H2 H3).
Defined.

(** From attempt 1023 to attempt 1024 there is no next delay. *)
Example backoff_delay_ends :
  exists d, backoff_delay 1023 0 = inr d
            /\ backoff_delay 1024 0 = inl OverflowError.
Proof. eexists. split; reflexivity. Qed.
